(** * Versioned catalog swap of the Glue overwrite job

    A shallow embedding of [lib/overwrite_glue.py]: the Python string and
    list primitives the job uses, the dictionaries it passes to and receives
    from the Glue catalog client, a model of that client (tables, partitions,
    paginated listings, batch limits, injected call failures), the Glue sink
    taken as a parameter, and the job's own functions under their own names.
    The theorems follow the definitions. *)

From Stdlib Require Import ZArith Lia Ascii String DecimalString DecimalZ.
From stdpp Require Import base strings gmap list.

Set Warnings "-register-all".

(** ** Python values and exceptions *)

(** The JSON-like values carried by the dictionaries of the boto3 Glue
    client. *)
Inductive value :=
  | VStr (s : string)
  | VInt (n : Z)
  | VBool (b : bool)
  | VList (l : list value)
  | VDict (d : gmap string value).

Abbreviation dict := (gmap string value).

(** The exceptions the job can meet.  [ClientError code] is botocore's
    exception for an error answered by the service or by the transport,
    [ParamValidationError] its refusal of a malformed request, and
    [SinkError] any failure of the Glue sink. *)
Inductive exn :=
  | KeyError (k : string)
  | IndexError
  | ValueError
  | TypeError
  | AttributeError
  | ClientError (code : string)
  | ParamValidationError
  | SinkError (msg : string).

Inductive result (A : Type) :=
  | Ok (a : A)
  | Raise (e : exn).
Arguments Ok {A} a.
Arguments Raise {A} e.

Definition rbind {A B} (r : result A) (f : A → result B) : result B :=
  match r with
  | Ok a => f a
  | Raise e => Raise e
  end.

(** What a call logs of its result: the exception, if any. *)
Definition outcome {A} (r : result A) : option exn :=
  match r with
  | Ok _ => None
  | Raise e => Some e
  end.

(** [d[k]] *)
Definition getitem (d : dict) (k : string) : result value :=
  match d !! k with
  | Some v => Ok v
  | None => Raise (KeyError k)
  end.

(** [v[k]] for a value that has to be a dictionary to be subscripted by a
    string. *)
Definition subscript (v : value) (k : string) : result value :=
  match v with
  | VDict d => getitem d k
  | _ => Raise TypeError
  end.

(** ** Python strings

    Strings are taken over the ASCII range, where Python's characters and
    the characters of [string] coincide. *)
Module Py.

(** [s.split(sep)] for a one-character separator: never an empty list. *)
Fixpoint split (sep : ascii) (s : string) : list string :=
  match s with
  | EmptyString => [EmptyString]
  | String c s' =>
      if Ascii.eqb c sep then EmptyString :: split sep s'
      else match split sep s' with
           | [] => [String c EmptyString]
           | h :: t => String c h :: t
           end
  end.

(** [sep.join(l)] *)
Fixpoint join (sep : string) (l : list string) : string :=
  match l with
  | [] => EmptyString
  | [x] => x
  | x :: rest => x +:+ sep +:+ join sep rest
  end.

(** [s.startswith(p)] *)
Fixpoint startswith (p s : string) : bool :=
  match p, s with
  | EmptyString, _ => true
  | String a p', String b s' => Ascii.eqb a b && startswith p' s'
  | String _ _, EmptyString => false
  end.

(** [s.endswith(p)]: [p] is [s] or ends what follows the first character
    of [s]. *)
Fixpoint endswith (p s : string) : bool :=
  String.eqb s p ||
  match s with
  | EmptyString => false
  | String _ s' => endswith p s'
  end.

(** [s.replace(old, new)] for a non-empty [old]: the occurrences are taken
    from the left and do not overlap; [skip] counts the characters of the
    occurrence just replaced that are still to be passed over. *)
Fixpoint replace_from (old new : string) (skip : nat) (s : string) : string :=
  match s with
  | EmptyString => EmptyString
  | String c s' =>
      match skip with
      | S k => replace_from old new k s'
      | O =>
          if startswith old s
          then new +:+ replace_from old new (String.length old - 1) s'
          else String c (replace_from old new 0 s')
      end
  end.

Definition replace (old new s : string) : string := replace_from old new 0 s.

(** [str(n)] for an integer. *)
Definition str (n : Z) : string := NilZero.string_of_int (Z.to_int n).

(** The white space [int()] skips around an ASCII literal. *)
Definition is_space (c : ascii) : bool :=
  let n := nat_of_ascii c in
  ((9 <=? n) && (n <=? 13)) || (n =? 32).

Definition digit_of (c : ascii) : option Z :=
  let n := nat_of_ascii c in
  if (48 <=? n) && (n <=? 57) then Some (Z.of_nat (n - 48)) else None.

Fixpoint lstrip (s : string) : string :=
  match s with
  | EmptyString => EmptyString
  | String c s' => if is_space c then lstrip s' else s
  end.

Fixpoint rstrip (s : string) : string :=
  match s with
  | EmptyString => EmptyString
  | String c s' =>
      match rstrip s' with
      | EmptyString => if is_space c then EmptyString else String c EmptyString
      | r => String c r
      end
  end.

Definition strip (s : string) : string := rstrip (lstrip s).

(** The digits of a base-10 literal: single underscores are allowed between
    two digits, and there is at least one digit.  [after_digit] tells that
    the previous character was a digit. *)
Fixpoint parse_digits (acc : Z) (after_digit : bool) (s : string) : option Z :=
  match s with
  | EmptyString => if after_digit then Some acc else None
  | String c s' =>
      match digit_of c with
      | Some d => parse_digits (10 * acc + d) true s'
      | None =>
          if Ascii.eqb c "_" && after_digit then parse_digits acc false s'
          else None
      end
  end.

(** [s[1:]] *)
Definition tail (s : string) : string :=
  match s with
  | EmptyString => EmptyString
  | String _ s' => s'
  end.

(** [int(s)]: optional white space on both sides, an optional sign, then
    the digits; anything else is a [ValueError].  The decimal digits and the
    white space that Python also reads outside ASCII are outside the
    strings modelled here. *)
Definition int (s : string) : result Z :=
  let t := strip s in
  let r :=
    if startswith "+" t then parse_digits 0 false (tail t)
    else if startswith "-" t then Z.opp <$> parse_digits 0 false (tail t)
    else parse_digits 0 false t in
  match r with
  | Some n => Ok n
  | None => Raise ValueError
  end.

(** [l[-2]] *)
Definition index_m2 {A} (l : list A) : result A :=
  match l !! (length l - 2) with
  | Some x => if 2 <=? length l then Ok x else Raise IndexError
  | None => Raise IndexError
  end.

(** [l[:-k]] *)
Definition drop_last {A} (k : nat) (l : list A) : list A :=
  take (length l - k) l.

(** [s[:-1]] *)
Definition str_drop_last (s : string) : string :=
  String.substring 0 (String.length s - 1) s.

(** [l[i:j]] for [0 <= i <= j]. *)
Definition slice {A} (i j : nat) (l : list A) : list A :=
  take (j - i) (drop i l).

(** The multiples of a positive [step] below [stop], in order. *)
Definition multiples (stop step : nat) : list nat :=
  (λ k, k * step) <$> seq 0 (Nat.div (stop + (step - 1)) step).

(** [range(0, stop, step)] as a list, for a [step] that is not negative: a
    zero [step] is a [ValueError]. *)
Definition range0 (stop step : nat) : result (list nat) :=
  match step with
  | O => Raise ValueError
  | S _ => Ok (multiples stop step)
  end.

(** The white space [str.strip()] removes, over ASCII: the characters
    [str.isspace()] accepts. *)
Definition is_whitespace (c : ascii) : bool :=
  let n := nat_of_ascii c in
  ((9 <=? n) && (n <=? 13)) || ((28 <=? n) && (n <=? 32)).

Fixpoint str_lstrip (s : string) : string :=
  match s with
  | EmptyString => EmptyString
  | String c s' => if is_whitespace c then str_lstrip s' else s
  end.

Fixpoint str_rstrip (s : string) : string :=
  match s with
  | EmptyString => EmptyString
  | String c s' =>
      match str_rstrip s' with
      | EmptyString => if is_whitespace c then EmptyString else String c EmptyString
      | r => String c r
      end
  end.

(** [s.strip()] *)
Definition str_strip (s : string) : string := str_rstrip (str_lstrip s).

End Py.

(** ** Location versioning *)

(** The answer of [get_table]: a dictionary with the table under ['Table']. *)
Record get_table_response := GetTableResponse { Table : dict }.

Definition calculate_next_location (existing_target_table : get_table_response)
  : result string :=
  let curr_table := Table existing_target_table in
  rbind (getitem curr_table "StorageDescriptor") (λ sd,
  rbind (subscript sd "Location") (λ loc,
  match loc with
  | VStr location =>
      let curr_location_split := Py.split "/" location in
      rbind (Py.index_m2 curr_location_split) (λ curr_version_suffix,
      rbind (Py.int (Py.replace "version_" "" curr_version_suffix)) (λ curr_version_int,
      let next_version_int := (curr_version_int + 1)%Z in
      let next_location_split :=
        Py.drop_last 2 curr_location_split
          ++ ["version_" +:+ Py.str next_version_int; ""] in
      let next_location := Py.join "/" next_location_split in
      Ok next_location))
  | _ => Raise AttributeError
  end)).

(** ** The Glue catalog, as the boto3 client shows it *)

(** Tables are keyed by database and name, the partitions of a table by
    their values.  [clock] is the time the service stamps on what it
    stores, [default_page] the page length of a listing that asks for
    none. *)
Record catalog := Catalog {
  databases : gmap string dict;
  tables : gmap (string * string) dict;
  partitions : gmap (string * string) (gmap (list string) dict);
  clock : Z;
  default_page : positive
}.

Definition set_tables (f : gmap (string * string) dict → gmap (string * string) dict)
    (c : catalog) : catalog :=
  Catalog (databases c) (f (tables c)) (partitions c) (clock c) (default_page c).

Definition set_partitions
    (f : gmap (string * string) (gmap (list string) dict)
         → gmap (string * string) (gmap (list string) dict))
    (c : catalog) : catalog :=
  Catalog (databases c) (tables c) (f (partitions c)) (clock c) (default_page c).

(** The partitions registered under a table. *)
Definition table_parts (c : catalog) (k : string * string) : gmap (list string) dict :=
  default ∅ (partitions c !! k).
Arguments table_parts : simpl never.

(** The requests of the job, as they are logged. *)
Inductive call :=
  | GetDatabase (name : string)
  | GetTable (db name : string)
  | GetPartitions (db tbl : string) (page : option nat)
  | BatchDeletePartition (db tbl : string) (to_delete : list dict)
  | BatchCreatePartition (db tbl : string) (inputs : list dict)
  | UpdateTable (db : string) (table_input : dict)
  | DeleteTable (db name : string)
  | WriteFrame (path : string) (keys : list string) (db tbl : string).

(** The world of a run: the catalog, the failures still to be injected into
    the client's requests (one entry per request, [Some e] makes it raise
    [e] and leave the catalog as it is; past the end requests are served),
    and the log of the requests made with their outcomes. *)
Record world := World {
  cat : catalog;
  faults : list (option exn);
  calls : list (call * option exn)
}.

(** Computations of the job: they read and change the world and return or
    raise. *)
Definition M (A : Type) : Type := world → result A * world.

Definition ret {A} (a : A) : M A := λ w, (Ok a, w).

Definition raise {A} (e : exn) : M A := λ w, (Raise e, w).

Definition bind {A B} (m : M A) (f : A → M B) : M B := λ w,
  match m w with
  | (Ok a, w') => f a w'
  | (Raise e, w') => (Raise e, w')
  end.

Definition lift {A} (r : result A) : M A := λ w, (r, w).

Notation "x <- m ;; k" := (bind m (λ x, k))
  (at level 100, m at next level, right associativity,
   format "'[v' x  <-  m  ;;  '/' k ']'").
Notation "m ;;; k" := (bind m (λ _, k))
  (at level 100, right associativity, format "'[v' m  ;;;  '/' k ']'").

(** [try: m except: handler] with a bare [except]. *)
Definition try_except {A} (m : M A) (handler : M A) : M A := λ w,
  match m w with
  | (Ok a, w') => (Ok a, w')
  | (Raise _, w') => handler w'
  end.

(** [for x in l: body x] *)
Fixpoint for_each {A} (l : list A) (body : A → M unit) : M unit :=
  match l with
  | [] => ret tt
  | x :: rest => body x ;;; for_each rest body
  end.

(** [[f x for x in l]] where [f] may raise. *)
Fixpoint map_result {A B} (f : A → result B) (l : list A) : result (list B) :=
  match l with
  | [] => Ok []
  | x :: rest => rbind (f x) (λ y, rbind (map_result f rest) (λ ys, Ok (y :: ys)))
  end.

(** One request of the client. *)
Definition client_call {A} (c : call) (op : catalog → result A * catalog) : M A := λ w,
  match faults w with
  | Some e :: rest => (Raise e, World (cat w) rest (calls w ++ [(c, Some e)]))
  | _ =>
      let '(r, c') := op (cat w) in
      (r, World c' (drop 1 (faults w)) (calls w ++ [(c, outcome r)]))
  end.

Definition EntityNotFound : exn := ClientError "EntityNotFoundException".
Definition ValidationException : exn := ClientError "ValidationException".

Record get_database_response := GetDatabaseResponse { Database : dict }.

Definition get_database (Name : string) : M get_database_response :=
  client_call (GetDatabase Name) (λ c,
    match databases c !! Name with
    | Some d => (Ok (GetDatabaseResponse (<["Name" := VStr Name]> d)), c)
    | None => (Raise EntityNotFound, c)
    end).

(** What the service answers for a stored table: the stored definition
    under its identity. *)
Definition table_record (db name : string) (stored : dict) : dict :=
  <["Name" := VStr name]> (<["DatabaseName" := VStr db]> stored).

Definition get_table (DatabaseName Name : string) : M get_table_response :=
  client_call (GetTable DatabaseName Name) (λ c,
    match tables c !! (DatabaseName, Name) with
    | Some t => (Ok (GetTableResponse (table_record DatabaseName Name t)), c)
    | None => (Raise EntityNotFound, c)
    end).

(** [update_table] replaces the whole definition of the table that
    [TableInput] names. *)
Definition update_table (DatabaseName : string) (TableInput : dict) : M unit :=
  client_call (UpdateTable DatabaseName TableInput) (λ c,
    match TableInput !! "Name" with
    | Some (VStr name) =>
        match tables c !! (DatabaseName, name) with
        | Some _ =>
            (Ok tt,
             set_tables <[(DatabaseName, name) :=
                            <["UpdateTime" := VInt (clock c)]> TableInput]> c)
        | None => (Raise EntityNotFound, c)
        end
    | _ => (Raise ParamValidationError, c)
    end).

(** [delete_table] drops the table and the partitions under it. *)
Definition delete_table (DatabaseName Name : string) : M unit :=
  client_call (DeleteTable DatabaseName Name) (λ c,
    match tables c !! (DatabaseName, Name) with
    | Some _ =>
        (Ok tt,
         set_partitions (delete (DatabaseName, Name))
           (set_tables (delete (DatabaseName, Name)) c))
    | None => (Raise EntityNotFound, c)
    end).

(** What the service answers for a stored partition. *)
Definition partition_record (db tbl : string) (kv : list string * dict) : dict :=
  <["Values" := VList (VStr <$> kv.1)]>
    (<["DatabaseName" := VStr db]> (<["TableName" := VStr tbl]> kv.2)).

Definition listing (c : catalog) (db tbl : string) : list dict :=
  partition_record db tbl <$> map_to_list (table_parts c (db, tbl)).

(** Consecutive runs of [n] elements, the last one possibly shorter. *)
Definition chunks {A} (n : nat) (l : list A) : list (list A) :=
  (λ i, Py.slice i (i + n) l) <$> Py.multiples (length l) n.

(** The pages of a listing: at least one, which is empty for an empty
    listing. *)
Definition pages_of (n : nat) (l : list dict) : list (list dict) :=
  match l with
  | [] => [[]]
  | _ => chunks n l
  end.

Definition page_length (c : catalog) (page : option nat) : nat :=
  match page with
  | Some (S n) => S n
  | _ => Pos.to_nat (default_page c)
  end.

(** The first request of a listing fixes its pages; the listing continues
    after the last partition of the page before, so that a partition
    deleted meanwhile from an earlier page moves nothing. *)
Definition get_partitions_first (db tbl : string) (page : option nat)
  : M (list (list dict)) :=
  client_call (GetPartitions db tbl page) (λ c,
    match tables c !! (db, tbl) with
    | Some _ => (Ok (pages_of (page_length c page) (listing c db tbl)), c)
    | None => (Raise EntityNotFound, c)
    end).

Definition get_partitions_next (db tbl : string) (page : option nat) : M unit :=
  client_call (GetPartitions db tbl page) (λ c, (Ok tt, c)).

(** [for page in paginator.paginate(...)]: one request per page, made when
    the loop reaches it. *)
Definition for_page_in (db tbl : string) (page : option nat)
    (body : list dict → M unit) : M unit :=
  ps <- get_partitions_first db tbl page ;;
  match ps with
  | [] => ret tt
  | p :: rest =>
      body p ;;;
      for_each rest (λ q, get_partitions_next db tbl page ;;; body q)
  end.

(** The values that key a partition in a request. *)
Definition as_str (v : value) : option string :=
  match v with
  | VStr s => Some s
  | _ => None
  end.

Definition values_of (p : dict) : option (list string) :=
  match p !! "Values" with
  | Some (VList l) => mapM as_str l
  | _ => None
  end.

(** [batch_delete_partition]: at most 25 partitions a request; the ones
    that are not there are reported in the answer, which the job does not
    read. *)
Definition batch_delete_partition (DatabaseName TableName : string)
    (PartitionsToDelete : list dict) : M unit :=
  client_call (BatchDeletePartition DatabaseName TableName PartitionsToDelete) (λ c,
    if 25 <? length PartitionsToDelete then (Raise ValidationException, c)
    else
      match tables c !! (DatabaseName, TableName) with
      | None => (Raise EntityNotFound, c)
      | Some _ =>
          match mapM values_of PartitionsToDelete with
          | None => (Raise ParamValidationError, c)
          | Some keys =>
              (Ok tt,
               set_partitions
                 <[(DatabaseName, TableName) :=
                     foldr delete (table_parts c (DatabaseName, TableName)) keys]> c)
          end
      end).

(** Registers one partition unless its values are taken already. *)
Definition create_partition (now : Z) (parts : gmap (list string) dict)
    (kv : list string * dict) : gmap (list string) dict :=
  match parts !! kv.1 with
  | Some _ => parts
  | None => <[kv.1 := <["CreationTime" := VInt now]> kv.2]> parts
  end.

(** [batch_create_partition]: at most 100 partitions a request; the ones
    that exist already are reported in the answer, which the job does not
    read. *)
Definition batch_create_partition (DatabaseName TableName : string)
    (PartitionInputList : list dict) : M unit :=
  client_call (BatchCreatePartition DatabaseName TableName PartitionInputList) (λ c,
    if 100 <? length PartitionInputList then (Raise ValidationException, c)
    else
      match tables c !! (DatabaseName, TableName) with
      | None => (Raise EntityNotFound, c)
      | Some _ =>
          match mapM values_of PartitionInputList with
          | None => (Raise ParamValidationError, c)
          | Some keys =>
              (Ok tt,
               set_partitions
                 <[(DatabaseName, TableName) :=
                     foldl (create_partition (clock c))
                       (table_parts c (DatabaseName, TableName))
                       (zip keys PartitionInputList)]> c)
          end
      end).

(** ** The Glue sink *)

(** A dynamic frame: its typed columns and its rows. *)
Record DynamicFrame := {
  frame_columns : list (string * string);
  frame_rows : list (gmap string string)
}.

(** The sink [getSink] returns, as [setFormat] and [setCatalogInfo]
    configure it. *)
Record Sink := {
  connection_type : string;
  path : string;
  enableUpdateCatalog : bool;
  partitionKeys : list string;
  format : string;
  catalogDatabase : string;
  catalogTableName : string
}.

Definition getSink (connection_type path : string) (enableUpdateCatalog : bool)
    (partitionKeys : list string) : Sink :=
  {| connection_type := connection_type; path := path;
     enableUpdateCatalog := enableUpdateCatalog; partitionKeys := partitionKeys;
     format := ""; catalogDatabase := ""; catalogTableName := "" |}.

Definition setFormat (format : string) (s : Sink) : Sink :=
  {| connection_type := connection_type s; path := path s;
     enableUpdateCatalog := enableUpdateCatalog s; partitionKeys := partitionKeys s;
     format := format; catalogDatabase := catalogDatabase s;
     catalogTableName := catalogTableName s |}.

Definition setCatalogInfo (catalogDatabase catalogTableName : string) (s : Sink) : Sink :=
  {| connection_type := connection_type s; path := path s;
     enableUpdateCatalog := enableUpdateCatalog s; partitionKeys := partitionKeys s;
     format := format s; catalogDatabase := catalogDatabase;
     catalogTableName := catalogTableName |}.

(** The Glue context is the job's handle on the data processor: what
    writing a frame through a sink does to the catalog, and whether it
    raises. *)
Record GlueContext := {
  writeFrame : Sink → DynamicFrame → catalog → option exn * catalog
}.

(** A sink that keeps to the table it is configured for: whether it
    succeeds or fails, every other table and its partitions stay as they
    were. *)
Definition sink_local (glue_context : GlueContext) : Prop :=
  ∀ s dyf c k,
    k ≠ (catalogDatabase s, catalogTableName s) →
    tables (writeFrame glue_context s dyf c).2 !! k = tables c !! k ∧
    partitions (writeFrame glue_context s dyf c).2 !! k = partitions c !! k.

(** ** The job: [lib/overwrite_glue.py] *)

Definition get_catalog_table (db_name table_name : string)
  : M (option get_table_response) :=
  try_except
    (r <- get_table db_name table_name ;; ret (Some r))
    (ret None).

Definition delete_partitions (database table : string) (batch : nat) : M unit :=
  for_page_in database table None (λ page,
    let partitions := page in
    indices <- lift (Py.range0 (length partitions) batch) ;;
    for_each indices (λ i,
      to_delete <- lift (map_result
                    (λ kv : string * dict,
                       rbind (getitem kv.2 kv.1) (λ x, Ok {[ kv.1 := x ]}))
                    (zip (replicate batch "Values")
                         (Py.slice i (i + batch) partitions))) ;;
      batch_delete_partition database table to_delete)).

Definition clean_partition (part : dict) : dict :=
  filter (λ kv : string * value,
            kv.1 ∉ ["DatabaseName"; "TableName"; "CreationTime"]) part.

Definition copy_partitions (source_database source_table
    target_database target_table : string) : M unit :=
  for_page_in source_database source_table (Some 100) (λ page,
    let partitions := page in
    let clean_partitions := clean_partition <$> partitions in
    batch_create_partition target_database target_table clean_partitions).

Definition get_output_path (output_database output_table : string) : M string :=
  response <- get_database output_database ;;
  v <- lift (getitem (Database response) "LocationUri") ;;
  match v with
  | VStr database_location_uri =>
      let database_location_uri :=
        if Py.endswith "/" database_location_uri
        then Py.str_drop_last database_location_uri
        else database_location_uri in
      ret (database_location_uri +:+ "/" +:+ output_table)
  | _ => raise AttributeError
  end.

Definition write_parquet (glue_context : GlueContext) (dyf : DynamicFrame)
    (output_path : string) (partition_keys : list string)
    (output_database output_table : string) : M unit := λ w,
  let sink := getSink "s3" output_path true partition_keys in
  let sink := setFormat "glueparquet" sink in
  let sink := setCatalogInfo output_database output_table sink in
  let (o, c') := writeFrame glue_context sink dyf (cat w) in
  (match o with
   | None => Ok tt
   | Some e => Raise e
   end,
   World c' (faults w)
     (calls w ++ [(WriteFrame output_path partition_keys output_database output_table, o)])).

(** [datetime.now()] is an input of the run. *)
Record datetime := {
  year : nat; month : nat; day : nat; hour : nat; minute : nat
}.

Definition zero_pad (width : nat) (n : nat) : string :=
  let s := Py.str (Z.of_nat n) in
  string_of_list_ascii (replicate (width - String.length s) "0"%char) +:+ s.

(** [now.strftime('%Y%m%d%H%M')] *)
Definition strftime_YmdHM (now : datetime) : string :=
  zero_pad 4 (year now) +:+ zero_pad 2 (month now) +:+ zero_pad 2 (day now)
    +:+ zero_pad 2 (hour now) +:+ zero_pad 2 (minute now).

(** The keys of a fetched table that the job leaves out of the definition
    it submits. *)
Definition stripped_table_keys : list string :=
  ["CreatedBy"; "CreateTime"; "UpdateTime"; "DatabaseName";
   "IsRegisteredWithLakeFormation"].

(** [d[k1][k2] = v] *)
Definition setitem2 (d : dict) (k1 k2 : string) (v : value) : result dict :=
  rbind (getitem d k1) (λ inner,
    match inner with
    | VDict sd => Ok (<[k1 := VDict (<[k2 := v]> sd)]> d)
    | _ => Raise TypeError
    end).

(** Lines 108 to 112 of the source: the definition submitted for the
    target, from the staging table's fetched one. *)
Definition make_table_input (version_tmp_table_result : dict)
    (output_table next_location : string) : result dict :=
  let table_input :=
    filter (λ kv : string * value, kv.1 ∉ stripped_table_keys)
      version_tmp_table_result in
  let table_input := <["Name" := VStr output_table]> table_input in
  setitem2 table_input "StorageDescriptor" "Location" (VStr next_location).

Definition version_tmp_name (output_table : string) (now : datetime) : string :=
  let version_tmp_suffix := "_version_tmp_" +:+ strftime_YmdHM now in
  output_table +:+ version_tmp_suffix.

Definition write_versioned_parquet (now : datetime) (glue_context : GlueContext)
    (dyf : DynamicFrame) (output_path : string) (partition_keys : list string)
    (output_database output_table : string) : M unit :=
  existing_target_table <- get_catalog_table output_database output_table ;;
  match existing_target_table with
  | None =>
      let output_path := output_path +:+ "/version_0" in
      write_parquet glue_context dyf output_path partition_keys
        output_database output_table
  | Some existing_target_table =>
      let version_tmp_table := version_tmp_name output_table now in
      next_location <- lift (calculate_next_location existing_target_table) ;;
      write_parquet glue_context dyf next_location partition_keys
        output_database version_tmp_table ;;;
      fetched <- get_catalog_table output_database version_tmp_table ;;
      version_tmp_table_result <-
        match fetched with
        | Some r => ret (Table r)
        | None => raise TypeError
        end ;;
      table_input <- lift (make_table_input version_tmp_table_result
                             output_table next_location) ;;
      delete_partitions output_database output_table 25 ;;;
      copy_partitions output_database version_tmp_table
        output_database output_table ;;;
      update_table output_database table_input ;;;
      delete_table output_database version_tmp_table
  end.

(** ** Predicates of the statements *)

(** Every character of a string passes a test. *)
Fixpoint all_chars (P : ascii → bool) (s : string) : bool :=
  match s with
  | EmptyString => true
  | String c s' => P c && all_chars P s'
  end.

Definition not_slash (c : ascii) : bool := negb (Ascii.eqb c "/").

(** [s.isascii()]: the strings on which Python's characters are the
    characters of [string], and [int()] reads the digits and white space
    of [Py.int] only. *)
Definition isascii (s : string) : bool :=
  all_chars (λ c, nat_of_ascii c <? 128) s.

(** The characters of a printed integer. *)
Definition numeric_char (c : ascii) : bool :=
  Ascii.eqb c "-" || bool_decide (is_Some (Py.digit_of c)).

(** A generation segment: [version_] followed by a printed integer. *)
Definition version_segment (n : Z) : string := "version_" +:+ Py.str n.

(** What a computation guarantees from a world: [Q] holds of its result and
    of the world it leaves. *)
Definition spec {A} (m : M A) (w : world) (Q : result A → world → Prop) : Prop :=
  Q (m w).1 (m w).2.

(** The log entries of the requests on partitions. *)
Definition partition_entry (e : call * option exn) : Prop :=
  match e.1 with
  | GetPartitions _ _ _ | BatchDeletePartition _ _ _ | BatchCreatePartition _ _ _ => True
  | _ => False
  end.

(** A partition record as the job submits it: without the identity of the
    table it was listed under and without its creation time. *)
Definition rehomed (p : dict) : Prop :=
  p !! "DatabaseName" = None ∧ p !! "TableName" = None ∧ p !! "CreationTime" = None.

(** The log entries [copy_partitions] makes: listings, and creations under
    the target of records that are [rehomed]. *)
Definition copy_entry (target_database target_table : string)
    (e : call * option exn) : Prop :=
  match e.1 with
  | GetPartitions _ _ _ => True
  | BatchCreatePartition db tbl inputs =>
      db = target_database ∧ tbl = target_table ∧ Forall rehomed inputs
  | _ => False
  end.

(** The log entries [delete_partitions] makes: listings, and deletions of
    at most [batch] partitions of the table. *)
Definition delete_entry (database table : string) (batch : nat)
    (e : call * option exn) : Prop :=
  match e.1 with
  | GetPartitions _ _ _ => True
  | BatchDeletePartition db tbl to_delete =>
      db = database ∧ tbl = table ∧ length to_delete ≤ batch
  | _ => False
  end.

(** Between two worlds only the partitions under [k] changed, and the log
    grew by entries that pass [P]. *)
Definition only_partitions (P : call * option exn → Prop) (k : string * string)
    (w w' : world) : Prop :=
  tables (cat w') = tables (cat w) ∧
  databases (cat w') = databases (cat w) ∧
  clock (cat w') = clock (cat w) ∧
  default_page (cat w') = default_page (cat w) ∧
  (∀ k', k' ≠ k → partitions (cat w') !! k' = partitions (cat w) !! k') ∧
  ∃ l, calls w' = calls w ++ l ∧ Forall P l.

(** The log entries that are neither the flip nor the cleanup. *)
Definition quiet (e : call * option exn) : Prop :=
  match e.1 with
  | UpdateTable _ _ | DeleteTable _ _ => False
  | _ => True
  end.

(** The definition [make_table_input] builds when the staging definition
    has the storage descriptor [sd]. *)
Definition flipped_definition (staging sd : dict)
    (output_table next_location : string) : dict :=
  <["StorageDescriptor" := VDict (<["Location" := VStr next_location]> sd)]>
    (<["Name" := VStr output_table]>
       (filter (λ kv : string * value, kv.1 ∉ stripped_table_keys) staging)).

(** The failure injected into the next request, if any. *)
Definition injected (w : world) : option exn :=
  match faults w with
  | Some e :: _ => Some e
  | _ => None
  end.

(** How a [get_table] request made from [w] ends, and what
    [get_catalog_table] makes of it. *)
Definition lookup_outcome (db name : string) (w : world) : option exn :=
  match injected w with
  | Some e => Some e
  | None =>
      match tables (cat w) !! (db, name) with
      | Some _ => None
      | None => Some EntityNotFound
      end
  end.

Definition lookup_answer (db name : string) (w : world) : option get_table_response :=
  match injected w with
  | Some _ => None
  | None =>
      (λ stored, GetTableResponse (table_record db name stored))
        <$> tables (cat w) !! (db, name)
  end.

(** The world after a request that left the catalog as it was. *)
Definition after_call (w : world) (c : call) (o : option exn) : world :=
  World (cat w) (drop 1 (faults w)) (calls w ++ [(c, o)]).

(** The sink [write_parquet] configures. *)
Definition job_sink (output_path : string) (partition_keys : list string)
    (output_database output_table : string) : Sink :=
  setCatalogInfo output_database output_table
    (setFormat "glueparquet" (getSink "s3" output_path true partition_keys)).

(** The job's reconciliation of the partitions of the target with those of
    the staging table: lines 114 and 115 of the source. *)
Definition reconcile (output_database version_tmp_table output_table : string)
  : M unit :=
  delete_partitions output_database output_table 25 ;;;
  copy_partitions output_database version_tmp_table output_database output_table.

(** The exits of the overwrite branch of [write_versioned_parquet], from
    the world [w1] left by the lookup of the target: the step that raised,
    or the end. *)
Inductive overwrite_exit (glue_context : GlueContext) (dyf : DynamicFrame)
    (partition_keys : list string) (db tgt tmp : string)
    (existing : get_table_response) (w1 : world)
  : result unit → world → Prop :=
  | exit_location e :
      calculate_next_location existing = Raise e →
      overwrite_exit glue_context dyf partition_keys db tgt tmp existing w1
        (Raise e) w1
  | exit_write next e w2 :
      calculate_next_location existing = Ok next →
      write_parquet glue_context dyf next partition_keys db tmp w1 = (Raise e, w2) →
      overwrite_exit glue_context dyf partition_keys db tgt tmp existing w1
        (Raise e) w2
  | exit_staging_lookup next w2 w3 :
      calculate_next_location existing = Ok next →
      write_parquet glue_context dyf next partition_keys db tmp w1 = (Ok tt, w2) →
      get_catalog_table db tmp w2 = (Ok None, w3) →
      overwrite_exit glue_context dyf partition_keys db tgt tmp existing w1
        (Raise TypeError) w3
  | exit_table_input next w2 w3 staging e :
      calculate_next_location existing = Ok next →
      write_parquet glue_context dyf next partition_keys db tmp w1 = (Ok tt, w2) →
      get_catalog_table db tmp w2 = (Ok (Some staging), w3) →
      make_table_input (Table staging) tgt next = Raise e →
      overwrite_exit glue_context dyf partition_keys db tgt tmp existing w1
        (Raise e) w3
  | exit_reconcile next w2 w3 staging table_input e w4 :
      calculate_next_location existing = Ok next →
      write_parquet glue_context dyf next partition_keys db tmp w1 = (Ok tt, w2) →
      get_catalog_table db tmp w2 = (Ok (Some staging), w3) →
      make_table_input (Table staging) tgt next = Ok table_input →
      reconcile db tmp tgt w3 = (Raise e, w4) →
      overwrite_exit glue_context dyf partition_keys db tgt tmp existing w1
        (Raise e) w4
  | exit_flip next w2 w3 staging table_input w4 e w5 :
      calculate_next_location existing = Ok next →
      write_parquet glue_context dyf next partition_keys db tmp w1 = (Ok tt, w2) →
      get_catalog_table db tmp w2 = (Ok (Some staging), w3) →
      make_table_input (Table staging) tgt next = Ok table_input →
      reconcile db tmp tgt w3 = (Ok tt, w4) →
      update_table db table_input w4 = (Raise e, w5) →
      overwrite_exit glue_context dyf partition_keys db tgt tmp existing w1
        (Raise e) w5
  | exit_cleanup next w2 w3 staging table_input w4 w5 e w6 :
      calculate_next_location existing = Ok next →
      write_parquet glue_context dyf next partition_keys db tmp w1 = (Ok tt, w2) →
      get_catalog_table db tmp w2 = (Ok (Some staging), w3) →
      make_table_input (Table staging) tgt next = Ok table_input →
      reconcile db tmp tgt w3 = (Ok tt, w4) →
      update_table db table_input w4 = (Ok tt, w5) →
      delete_table db tmp w5 = (Raise e, w6) →
      overwrite_exit glue_context dyf partition_keys db tgt tmp existing w1
        (Raise e) w6
  | exit_done next w2 w3 staging table_input w4 w5 w6 :
      calculate_next_location existing = Ok next →
      write_parquet glue_context dyf next partition_keys db tmp w1 = (Ok tt, w2) →
      get_catalog_table db tmp w2 = (Ok (Some staging), w3) →
      make_table_input (Table staging) tgt next = Ok table_input →
      reconcile db tmp tgt w3 = (Ok tt, w4) →
      update_table db table_input w4 = (Ok tt, w5) →
      delete_table db tmp w5 = (Ok tt, w6) →
      overwrite_exit glue_context dyf partition_keys db tgt tmp existing w1
        (Ok tt) w6.

(** ** An example data processor and example catalogs *)

(** A sink that registers the table under the name and at the path it is
    given, with one partition for each row, and that refuses a frame
    without columns, leaving the catalog as it was. *)
Definition example_table (s : Sink) (dyf : DynamicFrame) : dict :=
  {[ "StorageDescriptor" :=
       VDict {[ "Location" := VStr (path s);
                "Columns" :=
                  VList ((λ c : string * string,
                            VDict {[ "Name" := VStr c.1; "Type" := VStr c.2 ]})
                           <$> frame_columns dyf) ]};
     "PartitionKeys" := VList (VStr <$> partitionKeys s);
     "TableType" := VStr "EXTERNAL_TABLE";
     "CreateTime" := VInt 0;
     "CreatedBy" := VStr "job" ]}.

Definition example_partition (s : Sink) (row : gmap string string)
  : list string * dict :=
  let vs := (λ k, default "" (row !! k)) <$> partitionKeys s in
  (vs, {[ "StorageDescriptor" :=
            VDict {[ "Location" := VStr (path s +:+ "/" +:+ Py.join "/" vs) ]} ]}).

Definition example_context : GlueContext :=
  {| writeFrame s dyf c :=
       match frame_columns dyf with
       | [] => (Some (SinkError "empty frame"), c)
       | _ =>
           let k := (catalogDatabase s, catalogTableName s) in
           (None,
            set_partitions
              <[k := list_to_map (example_partition s <$> frame_rows dyf)]>
              (set_tables <[k := example_table s dyf]> c))
       end |}.

Definition example_frame : DynamicFrame :=
  {| frame_columns := [("id", "bigint"); ("amount", "double"); ("day", "string")];
     frame_rows :=
       [ {[ "id" := "1"; "amount" := "10"; "day" := "mon" ]};
         {[ "id" := "2"; "amount" := "20"; "day" := "tue" ]};
         {[ "id" := "3"; "amount" := "30"; "day" := "wed" ]} ] |}.

Definition empty_frame : DynamicFrame :=
  {| frame_columns := []; frame_rows := [] |}.

Definition example_now : datetime :=
  {| year := 2021; month := 3; day := 9; hour := 7; minute := 5 |}.

(** A catalog with the database only: the target is still to be written. *)
Definition fresh_catalog : catalog :=
  {| databases := {[ "db" := {[ "LocationUri" := VStr "s3://bucket/db/" ]} ]};
     tables := ∅;
     partitions := ∅;
     clock := 100;
     default_page := 50 |}.

(** A catalog whose target is at generation 3 with two partitions. *)
Definition live_catalog : catalog :=
  {| databases := {[ "db" := {[ "LocationUri" := VStr "s3://bucket/db/" ]} ]};
     tables :=
       {[ ("db", "sales") :=
            {[ "StorageDescriptor" :=
                 VDict {[ "Location" := VStr "s3://bucket/db/sales/version_3/";
                          "Columns" := VList [] ]};
               "CreateTime" := VInt 1 ]} ]};
     partitions :=
       {[ ("db", "sales") :=
            {[ ["fri"] := {[ "CreationTime" := VInt 1 ]};
               ["sat"] := {[ "CreationTime" := VInt 1 ]} ]} ]};
     clock := 100;
     default_page := 50 |}.

Definition start (c : catalog) (fs : list (option exn)) : world :=
  {| cat := c; faults := fs; calls := [] |}.

(** The overwrite of the example target by the example frame, with every
    request served. *)
Definition example_overwrite : result unit * world :=
  write_versioned_parquet example_now example_context example_frame
    "s3://bucket/db/sales" ["day"] "db" "sales" (start live_catalog []).

Definition example_staging_descriptor : dict :=
  {[ "Location" := VStr "s3://bucket/db/sales/version_4/";
     "Columns" :=
       VList ((λ c : string * string,
                 VDict {[ "Name" := VStr c.1; "Type" := VStr c.2 ]})
                <$> frame_columns example_frame) ]}.

Definition example_table_input : dict :=
  flipped_definition
    (table_record "db" (version_tmp_name "sales" example_now)
       (example_table
          (job_sink "s3://bucket/db/sales/version_4/" ["day"] "db"
             (version_tmp_name "sales" example_now))
          example_frame))
    example_staging_descriptor "sales" "s3://bucket/db/sales/version_4/".

(** The same overwrite when the eighth request, the deletion of the staging
    table, meets a failure of the service. *)
Definition example_cleanup_failure : result unit * world :=
  write_versioned_parquet example_now example_context example_frame
    "s3://bucket/db/sales" ["day"] "db" "sales"
    (start live_catalog
       (replicate 7 None ++ [Some (ClientError "InternalServiceException")])).

(** The overwrite of the example target by a frame the sink refuses. *)
Definition example_failed_write : result unit * world :=
  write_versioned_parquet example_now example_context empty_frame
    "s3://bucket/db/sales" ["day"] "db" "sales" (start live_catalog []).

(** The run on the example target when its lookup is throttled. *)
Definition example_throttled : result unit * world :=
  write_versioned_parquet example_now example_context example_frame
    "s3://bucket/db/sales" ["day"] "db" "sales"
    (start live_catalog [Some (ClientError "ThrottlingException")]).



(** The example catalog once the sink has registered the staging table. *)
Definition staged_catalog : catalog :=
  (writeFrame example_context
     (job_sink "s3://bucket/db/sales/version_4/" ["day"] "db" "sales_tmp")
     example_frame live_catalog).2.

(** A frame of [n] rows, one partition each. *)
Definition numbered_frame (n : nat) : DynamicFrame :=
  {| frame_columns := [("day", "string")];
     frame_rows := (λ i, {[ "day" := Py.str (Z.of_nat i) ]}) <$> seq 0 n |}.

(** A catalog with 140 partitions under the target and 140 other ones
    under the staging table. *)
Definition large_catalog : catalog :=
  (writeFrame example_context
     (job_sink "s3://bucket/db/sales/version_4/" ["day"] "db" "sales_tmp")
     (numbered_frame 140)
     (writeFrame example_context
        (job_sink "s3://bucket/db/sales/version_3/" ["day"] "db" "sales")
        {| frame_columns := [("day", "string")];
           frame_rows := (λ i, {[ "day" := "old" +:+ Py.str (Z.of_nat i) ]})
                           <$> seq 0 140 |}
        fresh_catalog).2).2.

(** The requests of a log that delete or create partitions, with the
    number of partitions each names. *)
Definition batch_sizes (l : list (call * option exn)) : list (bool * nat) :=
  omap (λ e : call * option exn,
          match e.1 with
          | BatchDeletePartition _ _ to_delete => Some (false, length to_delete)
          | BatchCreatePartition _ _ inputs => Some (true, length inputs)
          | _ => None
          end) l.

(** ** The entry point *)

(** Lines 153 to 155 of the source: the partition keys of the job, from
    its resolved arguments. *)
Definition resolve_partition_keys (args : gmap string string) : list string :=
  match args !! "partition_keys" with
  | Some v =>
      if String.eqb v "" then []
      else Py.str_strip <$> Py.split "," v
  | None => []
  end.

(** [args[k]] *)
Definition args_getitem (args : gmap string string) (k : string) : result string :=
  match args !! k with
  | Some v => Ok v
  | None => Raise (KeyError k)
  end.

(** What [main] does with its resolved arguments and with the catalog:
    lines 148 to 155, the job name read at line 163, the output path of
    line 165 and the write of lines 174 and 175.  The frame read and
    sampled at lines 169 and 170 is the parameter [dyf]; the Spark session
    and the job's [init] and [commit] are left out. *)
Definition main (now : datetime) (glue_context : GlueContext) (dyf : DynamicFrame)
    (args : gmap string string) : M unit :=
  output_database <- lift (args_getitem args "output_database") ;;
  source_database <- lift (args_getitem args "source_database") ;;
  source_table <- lift (args_getitem args "source_table") ;;
  output_table <- lift (args_getitem args "output_table") ;;
  region <- lift (args_getitem args "region") ;;
  let partition_keys := resolve_partition_keys args in
  job_name <- lift (args_getitem args "JOB_NAME") ;;
  output_path <- get_output_path output_database output_table ;;
  write_versioned_parquet now glue_context dyf output_path partition_keys
    output_database output_table.

(** The table a lookup answers for a location. *)
Definition table_at (location : string) : get_table_response :=
  GetTableResponse
    {[ "StorageDescriptor" := VDict {[ "Location" := VStr location ]} ]}.

(** The location after [k] overwrites, each one computed from the location
    the one before installed. *)
Fixpoint advance (k : nat) (location : string) : result string :=
  match k with
  | O => Ok location
  | S k' => rbind (calculate_next_location (table_at location)) (advance k')
  end.

(** The arguments of the example job. *)
Definition example_args : gmap string string :=
  {[ "JOB_NAME" := "overwrite"; "output_database" := "db";
     "source_database" := "db"; "source_table" := "source";
     "output_table" := "sales"; "region" := "eu-west-1";
     "partition_keys" := "type, year ,quarter" ]}.

(** A catalog whose target and staging table have no partition. *)
Definition bare_catalog : catalog :=
  {| databases := {[ "db" := {[ "LocationUri" := VStr "s3://bucket/db/" ]} ]};
     tables :=
       {[ ("db", "sales") :=
            {[ "StorageDescriptor" :=
                 VDict {[ "Location" := VStr "s3://bucket/db/sales/version_3/" ]} ]};
          ("db", "sales_tmp") :=
            {[ "StorageDescriptor" :=
                 VDict {[ "Location" := VStr "s3://bucket/db/sales/version_4/" ]} ]} ]};
     partitions := ∅;
     clock := 100;
     default_page := 50 |}.

(** What the service stores for a record created at time [now]. *)
Definition stamped (now : Z) (input : dict) : dict :=
  <["CreationTime" := VInt now]> input.

(** The partitions of a target during a copy from [src] of [c0], where the
    target had the partitions [before]: the ones it had, untouched, and
    copies of partitions listed under the source, each one the source's
    record without its identity and with the service's creation time. *)
Definition faithful_copies (c0 : catalog) (source_database source_table : string)
    (before parts : gmap (list string) dict) : Prop :=
  before ⊆ parts ∧
  ∀ vs stored, parts !! vs = Some stored →
    before !! vs = Some stored ∨
    (before !! vs = None ∧
     ∃ attrs, table_parts c0 (source_database, source_table) !! vs = Some attrs ∧
       stored = stamped (clock c0)
                  (clean_partition
                     (partition_record source_database source_table (vs, attrs)))).

(** The example overwrite when the fourth request, the first deletion of
    partitions, meets a failure of the service. *)
Definition example_reconcile_failure : result unit * world :=
  write_versioned_parquet example_now example_context example_frame
    "s3://bucket/db/sales" ["day"] "db" "sales"
    (start live_catalog
       [None; None; None; Some (ClientError "InternalServiceException")]).

(** ** The stack: [glue_overwrite_table_sample_cdk_stack.py] *)

(** The properties [create_partitions] gives to a [CfnPartition]
    construct. *)
Record CfnPartition := {
  construct_id : string;
  partition_catalog_id : string;
  partition_database_name : string;
  partition_table_name : string;
  partition_values : list string;
  partition_parameters : list (string * string);
  partition_input_format : string;
  partition_location : string;
  partition_output_format : string;
  partition_serde_parameters : list (string * string);
  partition_serialization_library : string
}.

(** The constructs [create_partitions] asks the stack for, in the order of
    its three loops.  The stack refuses an identifier it already has, which
    ends the loops: the list is what the stack holds when the identifiers
    differ. *)
Definition create_partitions (account database_name table_name : string)
    (types years quarters : list string) : list CfnPartition :=
  type ← types;
  year ← years;
  quarter ← quarters;
  [ {| construct_id := type +:+ "_" +:+ year +:+ "_" +:+ quarter +:+ "_partition";
       partition_catalog_id := account;
       partition_database_name := database_name;
       partition_table_name := table_name;
       partition_values := [type; year; quarter];
       partition_parameters :=
         [("classification", "parquet"); ("compressionType", "none")];
       partition_input_format :=
         "org.apache.hadoop.hive.ql.io.parquet.MapredParquetInputFormat";
       partition_location :=
         "s3://ookla-open-data/parquet/performance/type=" +:+ type
           +:+ "/year=" +:+ year +:+ "/quarter=" +:+ quarter;
       partition_output_format :=
         "org.apache.hadoop.hive.ql.io.parquet.MapredParquetOutputFormat";
       partition_serde_parameters := [("serialization.format", "1")];
       partition_serialization_library :=
         "org.apache.hadoop.hive.ql.io.parquet.serde.ParquetHiveSerDe" |} ].

(** ** The location published for a table *)

(** The location a table has in the catalog. *)
Definition location_of (c : catalog) (k : string * string) : option string :=
  match tables c !! k with
  | Some stored =>
      match stored !! "StorageDescriptor" with
      | Some (VDict sd) =>
          match sd !! "Location" with
          | Some (VStr location) => Some location
          | _ => None
          end
      | _ => None
      end
  | None => None
  end.

(** A path read as a directory: with a separator at its end. *)
Definition as_directory (path : string) : string :=
  if Py.endswith "/" path then path else path +:+ "/".


Definition at_directory (s : Sink) : Sink :=
  {| connection_type := connection_type s; path := as_directory (path s);
     enableUpdateCatalog := enableUpdateCatalog s; partitionKeys := partitionKeys s;
     format := format s; catalogDatabase := catalogDatabase s;
     catalogTableName := catalogTableName s |}.

(** The example data processor, registering the table at the directory. *)
Definition directory_context : GlueContext :=
  {| writeFrame s dyf c :=
       match frame_columns dyf with
       | [] => (Some (SinkError "empty frame"), c)
       | _ =>
           let k := (catalogDatabase s, catalogTableName s) in
           (None,
            set_partitions
              <[k := list_to_map (example_partition s <$> frame_rows dyf)]>
              (set_tables <[k := example_table (at_directory s) dyf]> c))
       end |}.

(** The first write of the target through that data processor, and the run
    that follows it. *)
Definition directory_first_write : result unit * world :=
  (output_path <- get_output_path "db" "sales" ;;
   write_versioned_parquet example_now directory_context example_frame
     output_path ["day"] "db" "sales") (start fresh_catalog []).

Definition directory_second_write : result unit * world :=
  (output_path <- get_output_path "db" "sales" ;;
   write_versioned_parquet example_now directory_context example_frame
     output_path ["day"] "db" "sales") (start (cat directory_first_write.2) []).

(** Membership and non-membership in a list of literals. *)
Ltac in_literals := solve [repeat constructor].
Ltac not_in_literals :=
  solve [repeat (apply not_elem_of_cons; split; [discriminate|]);
         apply not_elem_of_nil].

(** ** Python strings: facts *)

Lemma all_chars_app P a b :
  all_chars P (a +:+ b) = all_chars P a && all_chars P b.
Proof.
  induction a as [|c a IH]; simpl; [done|].
  rewrite IH. by rewrite andb_assoc.
Qed.

Lemma all_chars_impl (P Q : ascii → bool) s :
  (∀ c, P c = true → Q c = true) → all_chars P s = true → all_chars Q s = true.
Proof.
  intros HPQ. induction s as [|c s IH]; simpl; [done|].
  intros [Hc Hs]%andb_prop. rewrite (HPQ _ Hc), IH; done.
Qed.

Lemma split_not_nil sep s : Py.split sep s ≠ [].
Proof.
  destruct s as [|c s]; simpl; [done|].
  destruct (Ascii.eqb c sep); [done|].
  by destruct (Py.split sep s).
Qed.

Lemma split_segments sep s :
  Forall (λ seg, all_chars (λ c, negb (Ascii.eqb c sep)) seg = true) (Py.split sep s).
Proof.
  induction s as [|c s IH]; simpl.
  - by constructor.
  - destruct (Ascii.eqb c sep) eqn:E.
    + by constructor.
    + destruct (Py.split sep s) as [|h t]; simpl.
      * constructor; [|done]. simpl. by rewrite E.
      * inversion IH; subst. constructor; [|done]. simpl. by rewrite E.
Qed.

Lemma split_app_segment sep (seg rest : string) :
  all_chars (λ c, negb (Ascii.eqb c sep)) seg = true →
  Py.split sep (seg +:+ String sep rest) = seg :: Py.split sep rest.
Proof.
  induction seg as [|c seg IH]; simpl.
  - intros _. by rewrite Ascii.eqb_refl.
  - intros [Hc Hs]%andb_prop. apply negb_true_iff in Hc. rewrite Hc.
    by rewrite IH.
Qed.

Lemma split_single sep (seg : string) :
  all_chars (λ c, negb (Ascii.eqb c sep)) seg = true →
  Py.split sep seg = [seg].
Proof.
  induction seg as [|c seg IH]; simpl; [done|].
  intros [Hc Hs]%andb_prop. apply negb_true_iff in Hc. rewrite Hc.
  by rewrite IH.
Qed.

(** Splitting what [join] glued gives the segments back. *)
Lemma split_join sep (l : list string) :
  l ≠ [] →
  Forall (λ seg, all_chars (λ c, negb (Ascii.eqb c sep)) seg = true) l →
  Py.split sep (Py.join (String sep EmptyString) l) = l.
Proof.
  induction l as [|x l IH]; [done|]. intros _ Hall.
  inversion Hall as [|? ? Hx Hl]; subst.
  destruct l as [|y l].
  - simpl. by apply split_single.
  - change (Py.join (String sep "") (x :: y :: l))
      with (x +:+ String sep (Py.join (String sep "") (y :: l))).
    rewrite split_app_segment by done. by rewrite IH.
Qed.

(** Gluing what [split] cut gives the string back. *)
Lemma join_split sep s :
  Py.join (String sep EmptyString) (Py.split sep s) = s.
Proof.
  induction s as [|c s IH]; simpl; [done|].
  destruct (Ascii.eqb c sep) eqn:E.
  - apply Ascii.eqb_eq in E as ->.
    pose proof (split_not_nil sep s).
    destruct (Py.split sep s) as [|h t] eqn:Hs; [done|].
    simpl in *. by rewrite IH.
  - pose proof (split_not_nil sep s).
    destruct (Py.split sep s) as [|h t] eqn:Hs; [done|].
    destruct t; simpl in *; by rewrite <- IH.
Qed.

Lemma uint_chars d : all_chars numeric_char (NilEmpty.string_of_uint d) = true.
Proof. induction d; simpl; done. Qed.

Lemma str_chars n : all_chars numeric_char (Py.str n) = true.
Proof.
  unfold Py.str. destruct n as [|p|p]; simpl; [done| |].
  - destruct (Pos.to_uint p) eqn:E; try done; simpl; apply uint_chars.
  - destruct (Pos.to_uint p) eqn:E; try done; simpl; apply uint_chars.
Qed.

Lemma numeric_not_space c : numeric_char c = true → negb (Py.is_space c) = true.
Proof.
  destruct c as [[] [] [] [] [] [] [] []]; vm_compute; congruence.
Qed.

Lemma numeric_not_slash c : numeric_char c = true → not_slash c = true.
Proof.
  destruct c as [[] [] [] [] [] [] [] []]; vm_compute; congruence.
Qed.

Lemma numeric_not_v c : numeric_char c = true → Ascii.eqb "v" c = false.
Proof.
  destruct c as [[] [] [] [] [] [] [] []]; vm_compute; congruence.
Qed.

Lemma lstrip_no_space s :
  all_chars (λ c, negb (Py.is_space c)) s = true → Py.lstrip s = s.
Proof.
  destruct s as [|c s]; simpl; [done|].
  intros [Hc _]%andb_prop. apply negb_true_iff in Hc. by rewrite Hc.
Qed.

Lemma rstrip_no_space s :
  all_chars (λ c, negb (Py.is_space c)) s = true → Py.rstrip s = s.
Proof.
  induction s as [|c s IH]; simpl; [done|].
  intros [Hc Hs]%andb_prop. apply negb_true_iff in Hc.
  rewrite IH, Hc by done. by destruct s.
Qed.

Lemma strip_no_space s :
  all_chars (λ c, negb (Py.is_space c)) s = true → Py.strip s = s.
Proof.
  intros H. unfold Py.strip. rewrite lstrip_no_space by done.
  by apply rstrip_no_space.
Qed.

(** A string without a [v] has no occurrence of [version_] to replace. *)
Lemma replace_no_v new s :
  all_chars (λ c, negb (Ascii.eqb "v" c)) s = true →
  Py.replace_from "version_" new 0 s = s.
Proof.
  induction s as [|c s IH]; simpl; [done|].
  intros [Hc Hs]%andb_prop. apply negb_true_iff in Hc.
  rewrite Hc. simpl. by rewrite IH.
Qed.

Lemma replace_version_segment n :
  Py.replace "version_" "" (version_segment n) = Py.str n.
Proof.
  unfold Py.replace, version_segment. simpl.
  apply replace_no_v.
  eapply all_chars_impl; [|apply str_chars].
  intros c Hc. by rewrite numeric_not_v.
Qed.

Lemma parse_uint_acc d acc :
  Py.parse_digits (Z.pos acc) true (NilEmpty.string_of_uint d)
  = Some (Z.pos (Pos.of_uint_acc d acc)).
Proof.
  revert acc. induction d as [|d IH|d IH|d IH|d IH|d IH|d IH|d IH|d IH|d IH|d IH];
    intros acc; simpl; [done|..];
    rewrite <- IH; f_equal; lia.
Qed.

Lemma parse_uint d :
  Py.parse_digits 0 true (NilEmpty.string_of_uint d)
  = Some (Z.of_N (Pos.of_uint d)).
Proof.
  induction d as [|d IH|d IH|d IH|d IH|d IH|d IH|d IH|d IH|d IH|d IH];
    simpl; [done|done|..]; apply parse_uint_acc.
Qed.

Lemma parse_uint_start d :
  d ≠ Decimal.Nil →
  Py.parse_digits 0 false (NilEmpty.string_of_uint d)
  = Some (Z.of_N (Pos.of_uint d)).
Proof.
  intros Hd. destruct d; [done|..]; simpl;
    first [apply parse_uint | apply parse_uint_acc].
Qed.

Lemma to_uint_not_nil p : Pos.to_uint p ≠ Decimal.Nil.
Proof.
  intros E. pose proof (DecimalPos.Unsigned.of_to p) as H.
  rewrite E in H. simpl in H. done.
Qed.

Lemma uint_unsigned d :
  Py.startswith "+" (NilEmpty.string_of_uint d) = false ∧
  Py.startswith "-" (NilEmpty.string_of_uint d) = false.
Proof. by destruct d. Qed.

Lemma str_nonneg p :
  Py.str (Z.pos p) = NilEmpty.string_of_uint (Pos.to_uint p).
Proof.
  unfold Py.str. simpl. pose proof (to_uint_not_nil p).
  by destruct (Pos.to_uint p).
Qed.

Lemma str_neg p :
  Py.str (Z.neg p) = String "-" (NilEmpty.string_of_uint (Pos.to_uint p)).
Proof.
  unfold Py.str. simpl. pose proof (to_uint_not_nil p).
  by destruct (Pos.to_uint p).
Qed.

(** [int] reads back what [str] printed. *)
Lemma int_str n : Py.int (Py.str n) = Ok n.
Proof.
  unfold Py.int. rewrite strip_no_space.
  2:{ eapply all_chars_impl; [|apply str_chars]. apply numeric_not_space. }
  destruct n as [|p|p]; [done| |].
  - rewrite str_nonneg.
    destruct (uint_unsigned (Pos.to_uint p)) as [-> ->].
    rewrite parse_uint_start by apply to_uint_not_nil.
    by rewrite DecimalPos.Unsigned.of_to.
  - rewrite str_neg. cbn [Py.startswith Py.tail]. simpl Ascii.eqb. cbn [andb].
    rewrite parse_uint_start by apply to_uint_not_nil.
    by rewrite DecimalPos.Unsigned.of_to.
Qed.

Lemma length_split_app {A} (pre : list A) (x y : A) :
  length (pre ++ [x; y]) - 2 = length pre.
Proof. rewrite length_app. simpl. lia. Qed.

Lemma string_app_cons x (a b : string) : String x a +:+ b = String x (a +:+ b).
Proof. reflexivity. Qed.

Lemma string_app_assoc (a b c : string) : (a +:+ b) +:+ c = a +:+ b +:+ c.
Proof.
  induction a as [|x a IH]; [done|]. rewrite !string_app_cons. by f_equal.
Qed.

Lemma string_app_nil_r (a : string) : a +:+ "" = a.
Proof.
  induction a as [|x a IH]; [done|]. rewrite string_app_cons. by f_equal.
Qed.

Lemma string_length_app (a b : string) :
  String.length (a +:+ b) = String.length a + String.length b.
Proof.
  induction a as [|x a IH]; [done|]. rewrite string_app_cons. simpl.
  by f_equal.
Qed.

Lemma index_m2_app {A} (pre : list A) (x y : A) :
  Py.index_m2 (pre ++ [x; y]) = Ok x.
Proof.
  unfold Py.index_m2. rewrite length_split_app.
  rewrite lookup_app_r by lia. rewrite Nat.sub_diag.
  rewrite length_app. cbn [lookup list_lookup length].
  destruct (2 <=? length pre + 2) eqn:E; [done|].
  apply Nat.leb_gt in E. lia.
Qed.

Lemma drop_last_app {A} (pre : list A) (x y : A) :
  Py.drop_last 2 (pre ++ [x; y]) = pre.
Proof.
  unfold Py.drop_last. rewrite length_split_app.
  by rewrite take_app_length.
Qed.

Lemma endswith_app p s : Py.endswith p (s +:+ p) = true.
Proof.
  induction s as [|c s IH]; simpl.
  - destruct p; simpl; [done|]. by rewrite Ascii.eqb_refl, String.eqb_refl.
  - rewrite IH. by rewrite orb_true_r.
Qed.

Lemma join_cons sep (a : string) (l : list string) :
  l ≠ [] → Py.join sep (a :: l) = a +:+ sep +:+ Py.join sep l.
Proof. by destruct l. Qed.

Lemma join_app_last sep (pre : list string) (x : string) :
  Py.join sep (pre ++ [x; ""]) = Py.join sep (pre ++ [x]) +:+ sep.
Proof.
  induction pre as [|a pre IH].
  - cbn [app Py.join]. by rewrite string_app_nil_r.
  - rewrite <- !app_comm_cons.
    rewrite !join_cons by (by destruct pre).
    rewrite IH. by rewrite !string_app_assoc.
Qed.

Lemma version_segment_no_slash n :
  all_chars (λ c, negb (Ascii.eqb c "/")) (version_segment n) = true.
Proof.
  unfold version_segment. rewrite all_chars_app. apply andb_true_intro.
  split; [done|].
  eapply all_chars_impl; [|apply str_chars]. apply numeric_not_slash.
Qed.

(** ** Location versioning: the computed next generation *)

(** What [calculate_next_location] answers for a location cut in segments
    [pre ++ [seg; last]], when [seg] without its [version_] reads as [n]. *)
Lemma calculate_next_location_segments existing sd location pre seg last n :
  Table existing !! "StorageDescriptor" = Some (VDict sd) →
  sd !! "Location" = Some (VStr location) →
  Py.split "/" location = pre ++ [seg; last] →
  Py.int (Py.replace "version_" "" seg) = Ok n →
  calculate_next_location existing
  = Ok (Py.join "/" (pre ++ [version_segment (n + 1); ""])).
Proof.
  intros Hsd Hloc Hsplit Hint. unfold calculate_next_location, getitem.
  rewrite Hsd. simpl. unfold getitem. rewrite Hloc. simpl.
  rewrite Hsplit, index_m2_app. simpl. rewrite Hint. simpl.
  by rewrite drop_last_app.
Qed.

(** C1. For a target whose location, split on [/], is [pre ++ [version_<n>;
    last]], the next location is computed, its segments are [pre ++
    [version_<n+1>; ""]]: the ones before the generation are the input's,
    the generation is one more, and it ends in the separator. *)
Theorem calculate_next_location_increments
    (existing : get_table_response) (sd : dict) (location : string)
    (pre : list string) (n : Z) (last : string) :
  Table existing !! "StorageDescriptor" = Some (VDict sd) →
  sd !! "Location" = Some (VStr location) →
  Py.split "/" location = pre ++ [version_segment n; last] →
  ∃ next,
    calculate_next_location existing = Ok next ∧
    Py.split "/" next = pre ++ [version_segment (n + 1); ""] ∧
    next = Py.join "/" (pre ++ [version_segment (n + 1)]) +:+ "/" ∧
    Py.endswith "/" next = true.
Proof.
  intros Hsd Hloc Hsplit.
  exists (Py.join "/" (pre ++ [version_segment (n + 1); ""])).
  split; [|split; [|split]].
  - eapply calculate_next_location_segments; [done..|].
    rewrite replace_version_segment. apply int_str.
  - apply split_join; [by destruct pre|].
    pose proof (split_segments "/" location) as Hall.
    rewrite Hsplit in Hall. apply Forall_app in Hall as [Hpre _].
    apply Forall_app. split; [done|].
    repeat constructor. apply version_segment_no_slash.
  - apply join_app_last.
  - rewrite join_app_last. apply endswith_app.
Qed.

Lemma calculate_next_location_increments_witness :
  ∃ next,
    calculate_next_location
      (GetTableResponse
         {[ "StorageDescriptor" :=
              VDict {[ "Location" := VStr "s3://bucket/db/sales/version_3/" ]} ]})
    = Ok next ∧
    Py.split "/" next = ["s3:"; ""; "bucket"; "db"; "sales"] ++ [version_segment (3 + 1); ""] ∧
    next = Py.join "/" (["s3:"; ""; "bucket"; "db"; "sales"] ++ [version_segment (3 + 1)]) +:+ "/" ∧
    Py.endswith "/" next = true.
Proof.
  apply (calculate_next_location_increments _
           {[ "Location" := VStr "s3://bucket/db/sales/version_3/" ]}
           "s3://bucket/db/sales/version_3/" _ 3 "");
    reflexivity.
Defined.

(** ** Reasoning on computations *)

Lemma spec_elim {A} (m : M A) w Q r w' :
  m w = (r, w') → spec m w Q → Q r w'.
Proof. unfold spec. by intros ->. Qed.

Lemma spec_mono {A} (m : M A) w (Q Q' : result A → world → Prop) :
  (∀ r w', Q r w' → Q' r w') → spec m w Q → spec m w Q'.
Proof. unfold spec. auto. Qed.

Lemma spec_ret {A} (a : A) w (Q : result A → world → Prop) :
  Q (Ok a) w → spec (ret a) w Q.
Proof. done. Qed.

Lemma spec_lift {A} (r : result A) w (Q : result A → world → Prop) :
  Q r w → spec (lift r) w Q.
Proof. done. Qed.

Lemma spec_bind {A B} (m : M A) (f : A → M B) w (Q : result B → world → Prop) :
  spec m w (λ r w1,
    match r with
    | Ok a => spec (f a) w1 Q
    | Raise e => Q (Raise e) w1
    end) →
  spec (bind m f) w Q.
Proof.
  unfold spec, bind. by destruct (m w) as [[a|e] w1].
Qed.

(** A loop keeps an invariant [I] of the elements passed so far, or leaves
    by an exception with [E]. *)
Lemma spec_for_each {A} (I : list A → world → Prop) (E : exn → world → Prop)
    (body : A → M unit) (l done : list A) w :
  (∀ d x rest w1, done ++ l = d ++ x :: rest → I d w1 →
     spec (body x) w1 (λ r w2,
       match r with
       | Ok _ => I (d ++ [x]) w2
       | Raise e => E e w2
       end)) →
  I done w →
  spec (for_each l body) w (λ r w',
    match r with
    | Ok _ => I (done ++ l) w'
    | Raise e => E e w'
    end).
Proof.
  revert done w. induction l as [|x l IH]; intros done w Hbody HI.
  - simpl. apply spec_ret. by rewrite app_nil_r.
  - simpl. apply spec_bind.
    eapply spec_mono; [|by apply (Hbody done x l)].
    intros [[]|e] w1; [|done]. intros HI1.
    replace (done ++ x :: l) with ((done ++ [x]) ++ l)
      by (by rewrite <- app_assoc).
    apply IH; [|done].
    intros d y rest w2 Heq. apply (Hbody d y rest).
    by rewrite <- Heq, <- app_assoc.
Qed.

(** A request either meets an injected failure, which leaves the catalog,
    or is served. *)
Lemma spec_client_call {A} (c : call) (op : catalog → result A * catalog) w
    (Q : result A → world → Prop) :
  (∀ e rest, faults w = Some e :: rest →
     Q (Raise e) (World (cat w) rest (calls w ++ [(c, Some e)]))) →
  ((∀ e rest, faults w ≠ Some e :: rest) →
     Q (op (cat w)).1
       (World (op (cat w)).2 (drop 1 (faults w))
          (calls w ++ [(c, outcome (op (cat w)).1)]))) →
  spec (client_call c op) w Q.
Proof.
  unfold spec, client_call.
  destruct (faults w) as [|[e|] rest] eqn:Hf; intros Hfault Hserved.
  - destruct (op (cat w)) as [r c']. by apply Hserved.
  - by apply Hfault.
  - destruct (op (cat w)) as [r c']. by apply Hserved.
Qed.

Lemma only_partitions_refl P k w : only_partitions P k w w.
Proof.
  repeat split; try done. exists []. by rewrite app_nil_r.
Qed.

Lemma only_partitions_trans P k w1 w2 w3 :
  only_partitions P k w1 w2 → only_partitions P k w2 w3 →
  only_partitions P k w1 w3.
Proof.
  intros (Ht & Hd & Hc & Hp & Hf & l & Hl & HP)
         (Ht' & Hd' & Hc' & Hp' & Hf' & l' & Hl' & HP').
  repeat split; try congruence.
  - intros k' Hk. rewrite Hf', Hf; done.
  - exists (l ++ l'). split; [by rewrite Hl', Hl, app_assoc|].
    by apply Forall_app.
Qed.

Lemma only_partitions_mono (P P' : call * option exn → Prop) k w w' :
  (∀ e, P e → P' e) → only_partitions P k w w' → only_partitions P' k w w'.
Proof.
  intros HPP (Ht & Hd & Hc & Hp & Hf & l & Hl & HP).
  repeat split; try done. exists l. split; [done|].
  eapply Forall_impl; eauto.
Qed.

(** A step that leaves the tables, changes at most the partitions under
    [k], and logs one entry. *)
Lemma only_partitions_step P k w c' fs e :
  tables c' = tables (cat w) →
  databases c' = databases (cat w) →
  clock c' = clock (cat w) →
  default_page c' = default_page (cat w) →
  (∀ k', k' ≠ k → partitions c' !! k' = partitions (cat w) !! k') →
  P e →
  only_partitions P k w (World c' fs (calls w ++ [e])).
Proof.
  intros. repeat split; try done. exists [e]. split; [done|].
  by constructor.
Qed.

(** ** Batches and pages *)

Lemma take_app_take_drop {A} (a b : nat) (l : list A) :
  take a l ++ take b (drop a l) = take (a + b) l.
Proof.
  revert l. induction a as [|a IH]; intros l; [done|].
  destruct l as [|x l]; simpl; [by rewrite take_nil|].
  by rewrite IH.
Qed.

Lemma concat_slices {A} (n m : nat) (l : list A) :
  concat ((λ i, Py.slice i (i + n) l) <$> ((λ k, k * n) <$> seq 0 m))
  = take (m * n) l.
Proof.
  induction m as [|m IH]; [done|].
  rewrite seq_S, !fmap_app, concat_app, IH. simpl.
  rewrite app_nil_r. unfold Py.slice.
  replace (m * n + n - m * n) with n by lia.
  rewrite take_app_take_drop. f_equal. lia.
Qed.

Lemma range0_pos (stop step : nat) :
  0 < step → Py.range0 stop step = Ok (Py.multiples stop step).
Proof. destruct step; [lia|done]. Qed.

Lemma range0_covers (stop step : nat) :
  0 < step → stop ≤ (stop + (step - 1)) `div` step * step.
Proof.
  intros Hstep.
  pose proof (Nat.div_mod (stop + (step - 1)) step ltac:(lia)) as Hdm.
  pose proof (Nat.mod_upper_bound (stop + (step - 1)) step ltac:(lia)).
  nia.
Qed.

(** The batches of a list, put end to end, are the list. *)
Lemma concat_chunks {A} (n : nat) (l : list A) :
  0 < n → concat (chunks n l) = l.
Proof.
  intros Hn. unfold chunks, Py.multiples. rewrite concat_slices.
  apply take_ge. by apply range0_covers.
Qed.

Lemma slice_length {A} (i n : nat) (l : list A) :
  length (Py.slice i (i + n) l) ≤ n.
Proof. unfold Py.slice. rewrite length_take. lia. Qed.

Lemma chunks_length {A} (n : nat) (l : list A) :
  Forall (λ p, length p ≤ n) (chunks n l).
Proof.
  unfold chunks. apply Forall_fmap, Forall_forall. intros i _. simpl.
  apply slice_length.
Qed.

Lemma concat_pages_of (n : nat) (l : list dict) :
  0 < n → concat (pages_of n l) = l.
Proof.
  intros Hn. destruct l as [|x l]; [done|]. by apply concat_chunks.
Qed.

Lemma pages_of_length (n : nat) (l : list dict) :
  Forall (λ p, length p ≤ n) (pages_of n l).
Proof.
  destruct l as [|x l].
  - repeat constructor. simpl. lia.
  - apply chunks_length.
Qed.

Lemma slice_subseteq {A} (i j : nat) (l : list A) : Py.slice i j l ⊆ l.
Proof.
  unfold Py.slice. etrans; [apply subseteq_take|apply subseteq_drop].
Qed.

Lemma pages_of_subseteq (n : nat) (l : list dict) :
  Forall (λ p, p ⊆ l) (pages_of n l).
Proof.
  destruct l as [|x l].
  - repeat constructor. done.
  - unfold pages_of, chunks. apply Forall_fmap, Forall_forall. intros i _.
    apply slice_subseteq.
Qed.

Lemma page_length_pos c page : 0 < page_length c page.
Proof. unfold page_length. destruct page as [[|n]|]; lia. Qed.

(** The loop over the pages of a listing: [J] is kept of the records
    passed, from the first request to the last page. *)
Lemma spec_for_page_in db tbl page (body : list dict → M unit) w
    (J : list dict → world → Prop) (E : exn → world → Prop) :
  (∀ e w1, cat w1 = cat w →
     calls w1 = calls w ++ [(GetPartitions db tbl page, Some e)] →
     (∃ rest, faults w = Some e :: rest ∧ faults w1 = rest) ∨
       (tables (cat w) !! (db, tbl) = None ∧ e = EntityNotFound ∧
        faults w1 = drop 1 (faults w)) →
     E e w1) →
  (∀ w1, cat w1 = cat w →
     calls w1 = calls w ++ [(GetPartitions db tbl page, None)] →
     faults w1 = drop 1 (faults w) →
     is_Some (tables (cat w) !! (db, tbl)) →
     J [] w1) →
  (∀ done p w2, J done w2 → length p ≤ page_length (cat w) page →
     p ⊆ listing (cat w) db tbl →
     spec (body p) w2 (λ r w3,
       match r with
       | Ok _ => J (done ++ p) w3
       | Raise e => E e w3
       end)) →
  (∀ done w2, J done w2 →
     spec (get_partitions_next db tbl page) w2 (λ r w3,
       match r with
       | Ok _ => J done w3
       | Raise e => E e w3
       end)) →
  spec (for_page_in db tbl page body) w (λ r w',
    match r with
    | Ok _ => J (listing (cat w) db tbl) w'
    | Raise e => E e w'
    end).
Proof.
  intros Hfail Hfirst Hbody Hnext. unfold for_page_in.
  apply spec_bind. unfold get_partitions_first. apply spec_client_call.
  { intros e rest Hf. apply Hfail; [done..|]. left. by exists rest. }
  intros Hnofault.
  destruct (tables (cat w) !! (db, tbl)) as [t|] eqn:Ht; simpl.
  2:{ apply Hfail; [done..|]. right. done. }
  pose proof (concat_pages_of (page_length (cat w) page) (listing (cat w) db tbl)
                (page_length_pos _ _)) as Hcat.
  pose proof (pages_of_length (page_length (cat w) page) (listing (cat w) db tbl))
    as Hlen.
  pose proof (pages_of_subseteq (page_length (cat w) page) (listing (cat w) db tbl))
    as Hsub.
  destruct (pages_of (page_length (cat w) page) (listing (cat w) db tbl))
    as [|p rest]; simpl in Hcat.
  { apply spec_ret. rewrite <- Hcat. by apply Hfirst. }
  inversion Hlen as [|? ? Hp Hrest]; subst.
  inversion Hsub as [|? ? Hps Hrests]; subst.
  apply spec_bind.
  eapply spec_mono; [|apply (Hbody [] p); [by apply Hfirst|done|done]].
  intros [[]|e] w2; [|done]. simpl. intros HJ.
  rewrite <- Hcat.
  pose (I := λ (d : list (list dict)) w', J (p ++ concat d) w').
  eapply spec_mono;
    [|apply (spec_for_each I E _ rest [] w2)].
  - intros [[]|e] w3; [|done]. by unfold I.
  - intros d q rest' w3 Heq HI. apply spec_bind.
    eapply spec_mono; [|by apply (Hnext (p ++ concat d))].
    intros [[]|e] w4; [|done]. intros HJ4.
    eapply spec_mono; [|apply (Hbody (p ++ concat d) q); [done| |]].
    + intros [[]|e] w5; [|done]. unfold I.
      by rewrite concat_app, app_assoc; simpl; rewrite app_nil_r.
    + simpl in Heq. rewrite Heq in Hrest.
      apply Forall_app in Hrest as [_ Hq]. by inversion Hq.
    + simpl in Heq. rewrite Heq in Hrests.
      apply Forall_app in Hrests as [_ Hq]. by inversion Hq.
  - unfold I. simpl. by rewrite app_nil_r.
Qed.

(** ** The partitions of a table *)

Lemma table_parts_set c k m :
  table_parts (set_partitions <[k := m]> c) k = m.
Proof. unfold table_parts. simpl. by rewrite lookup_insert_eq. Qed.

Lemma mapM_as_str (vs : list string) : mapM as_str (VStr <$> vs) = Some vs.
Proof. by apply mapM_fmap_Some. Qed.

Lemma values_of_partition_record db tbl vs attrs :
  values_of (partition_record db tbl (vs, attrs)) = Some vs.
Proof.
  unfold values_of, partition_record. simpl.
  rewrite lookup_insert_eq. apply mapM_as_str.
Qed.

Lemma values_of_clean_partition p :
  values_of (clean_partition p) = values_of p.
Proof.
  unfold values_of, clean_partition.
  destruct (p !! "Values") as [v|] eqn:E.
  - erewrite (proj2 (map_lookup_filter_Some _ _ _ _)); [done|].
    split; [done|]. simpl. not_in_literals.
  - by rewrite map_lookup_filter_None_2 by (by left).
Qed.

Lemma clean_partition_rehomed p : rehomed (clean_partition p).
Proof.
  unfold rehomed, clean_partition.
  repeat split; apply map_lookup_filter_None_2; right; intros v _ H;
    simpl in H; apply H; in_literals.
Qed.

Lemma mapM_fmap_eq {A B} (f : A → option B) (l : list A) (k : list B) :
  mapM f l = Some k → f <$> l = Some <$> k.
Proof.
  intros H%mapM_Some. induction H as [|x y l k Hxy _ IH]; [done|].
  by rewrite !fmap_cons, Hxy, IH.
Qed.

Lemma elem_of_Some_fmap {B} (y : B) (k : list B) :
  Some y ∈ Some <$> k ↔ y ∈ k.
Proof.
  rewrite list_elem_of_fmap. split.
  - by intros (z & [= ->] & Hz).
  - intros Hy. by exists y.
Qed.

Lemma lookup_foldr_delete_cases (m : gmap (list string) dict) ks i :
  foldr delete m ks !! i = if decide (i ∈ ks) then None else m !! i.
Proof.
  case_decide.
  - by apply lookup_foldr_delete.
  - by apply lookup_foldr_delete_not_elem_of.
Qed.

(** The request [delete_partitions] builds from a slice of a page names
    the values of the records of the slice. *)
Lemma to_delete_spec (batch : nat) (sl to_delete : list dict) :
  map_result
    (λ kv : string * dict, rbind (getitem kv.2 kv.1) (λ x, Ok {[ kv.1 := x ]}))
    (zip (replicate batch "Values") sl) = Ok to_delete →
  length to_delete ≤ batch ∧
  (length sl ≤ batch → mapM values_of to_delete = mapM values_of sl).
Proof.
  revert batch to_delete. induction sl as [|r sl IH]; intros batch to_delete.
  - destruct batch; simpl; intros [= <-]; simpl; split; (lia || done).
  - destruct batch as [|b]; simpl.
    { intros [= <-]. simpl. split; [lia|]. lia. }
    unfold getitem at 1. destruct (r !! "Values") as [x|] eqn:Hx; simpl; [|done].
    destruct (map_result _ (zip (replicate b "Values") sl)) as [ys|e] eqn:Hys;
      simpl; [|done].
    intros [= <-]. destruct (IH b ys Hys) as [Hlen Heq].
    split; [simpl; lia|]. intros Hle.
    cbn [mapM]. rewrite Heq by lia.
    replace (values_of {["Values" := x]}) with (values_of r); [done|].
    unfold values_of. by rewrite Hx, lookup_singleton_eq.
Qed.

(** [delete_partitions] touches only the partitions of its table, by
    listings and by deletions of at most [batch] partitions, and when it
    returns the table has no partition left. *)
Lemma delete_partitions_spec database table batch w :
  0 < batch →
  spec (delete_partitions database table batch) w (λ r w',
    only_partitions (delete_entry database table batch) (database, table) w w' ∧
    (r = Ok tt → table_parts (cat w') (database, table) = ∅)).
Proof.
  intros Hbatch.
  set (k := (database, table)).
  set (P := delete_entry database table batch).
  set (parts0 := table_parts (cat w) k).
  pose (J := λ (done : list dict) (w' : world),
    only_partitions P k w w' ∧
    ∀ vs, table_parts (cat w') k !! vs
          = if decide (Some vs ∈ values_of <$> done) then None else parts0 !! vs).
  pose (E := λ (_ : exn) (w' : world), only_partitions P k w w').
  assert (Hstep : ∀ page e w1 w2,
            only_partitions P k w w1 → cat w2 = cat w1 →
            calls w2 = calls w1 ++ [(GetPartitions database table page, e)] →
            only_partitions P k w w2).
  { intros page e w1 w2 H1 Hc Hl. eapply only_partitions_trans; [done|].
    destruct w2 as [c2 f2 l2]. simpl in *. subst.
    apply only_partitions_step; done. }
  unfold delete_partitions.
  eapply spec_mono; [|apply (spec_for_page_in _ _ _ _ w J E)].
  - intros [[]|e] w'; [|by intros H; split].
    intros [Hop HJ]. split; [done|]. intros _.
    apply map_empty. intros vs. rewrite HJ.
    case_decide as Hin; [done|].
    destruct (parts0 !! vs) as [a|] eqn:Ha; [|done].
    exfalso. apply Hin. unfold listing. rewrite <- list_fmap_compose.
    apply list_elem_of_fmap. exists (vs, a). split.
    + simpl. by rewrite values_of_partition_record.
    + by apply elem_of_map_to_list.
  - intros e w1 Hc Hl _. unfold E.
    eapply Hstep; [apply only_partitions_refl|done..].
  - intros w1 Hc Hl _ _. split.
    + eapply Hstep; [apply only_partitions_refl|done..].
    + intros vs. rewrite Hc. rewrite decide_False; [done|].
      rewrite fmap_nil. apply not_elem_of_nil.
  - intros done p w2 HJ _ _.
    pose (I := λ (idx : list nat) (w' : world),
      J (done ++ concat ((λ i, Py.slice i (i + batch) p) <$> idx)) w').
    apply spec_bind, spec_lift. rewrite (range0_pos _ _ Hbatch).
    eapply spec_mono;
      [|apply (spec_for_each I E _ (Py.multiples (length p) batch) [] w2)].
    + intros [[]|e] w3; [|done]. unfold I. simpl.
      fold (chunks batch p). by rewrite concat_chunks.
    + intros d i rest w3 _ [Hop Htrack]. apply spec_bind, spec_lift.
      destruct (map_result _ _) as [to_delete|e] eqn:Hmr; [|done].
      apply to_delete_spec in Hmr as [Hlen Hkeys].
      specialize (Hkeys (slice_length _ _ _)).
      unfold batch_delete_partition. apply spec_client_call.
      { intros e rest' _. unfold E.
        eapply only_partitions_trans; [done|].
        apply only_partitions_step; done. }
      intros _.
      destruct (25 <? length to_delete); simpl.
      { eapply only_partitions_trans; [done|].
        apply only_partitions_step; done. }
      destruct (tables (cat w3) !! (database, table)); simpl.
      2:{ eapply only_partitions_trans; [done|].
          apply only_partitions_step; done. }
      destruct (mapM values_of to_delete) as [keys|] eqn:Hk; simpl.
      2:{ eapply only_partitions_trans; [done|].
          apply only_partitions_step; done. }
      split.
      * eapply only_partitions_trans; [done|].
        apply only_partitions_step; try done.
        intros k' Hk'. simpl. by rewrite lookup_insert_ne.
      * intros vs. simpl. fold k. rewrite table_parts_set.
        rewrite lookup_foldr_delete_cases, Htrack.
        rewrite !fmap_app, concat_app. simpl. rewrite app_nil_r.
        symmetry in Hkeys. apply mapM_fmap_eq in Hkeys.
        rewrite !fmap_app, Hkeys.
        repeat case_decide; try done; exfalso;
          repeat match goal with
                 | H : context [_ ∈ _ ++ _] |- _ => rewrite elem_of_app in H
                 | H : context [Some _ ∈ Some <$> _] |- _ =>
                     rewrite elem_of_Some_fmap in H
                 end; tauto.
    + unfold I. simpl. by rewrite app_nil_r.
  - intros done w2 [Hop Htrack]. unfold get_partitions_next.
    apply spec_client_call.
    + intros e rest _. unfold E. eapply Hstep; [done|done..].
    + intros _. simpl. split; [by eapply Hstep|done].
Qed.

Lemma dom_create_partitions (now : Z) (kvs : list (list string * dict))
    (parts : gmap (list string) dict) (vs : list string) :
  vs ∈ dom (foldl (create_partition now) parts kvs)
  ↔ vs ∈ dom parts ∨ vs ∈ kvs.*1.
Proof.
  revert parts. induction kvs as [|[k a] kvs IH]; intros parts.
  - simpl. rewrite elem_of_nil. tauto.
  - cbn [foldl]. rewrite IH. rewrite fmap_cons, elem_of_cons.
    unfold create_partition. simpl.
    destruct (parts !! k) as [b|] eqn:Hk.
    + split; [tauto|]. intros [H|[->|H]]; auto.
      left. apply elem_of_dom. by exists b.
    + rewrite dom_insert_L, elem_of_union, elem_of_singleton. tauto.
Qed.

Lemma elem_of_listing_values c db tbl vs :
  Some vs ∈ values_of <$> listing c db tbl ↔ vs ∈ dom (table_parts c (db, tbl)).
Proof.
  unfold listing. rewrite <- list_fmap_compose, list_elem_of_fmap. split.
  - intros ([vs' a] & Hv & Hin). simpl in Hv.
    rewrite values_of_partition_record in Hv. injection Hv as ->.
    apply elem_of_map_to_list in Hin. apply elem_of_dom. by exists a.
  - intros [a Ha]%elem_of_dom. exists (vs, a). split.
    + simpl. by rewrite values_of_partition_record.
    + by apply elem_of_map_to_list.
Qed.

(** [copy_partitions] touches only the partitions of the target, by
    listings and by creations of records without their former identity,
    and when it returns the target has the values it had and the values
    listed under the source. *)
Lemma copy_partitions_spec source_database source_table
    target_database target_table w :
  spec (copy_partitions source_database source_table
          target_database target_table) w (λ r w',
    only_partitions (copy_entry target_database target_table)
      (target_database, target_table) w w' ∧
    (r = Ok tt →
     dom (table_parts (cat w') (target_database, target_table))
     = dom (table_parts (cat w) (target_database, target_table))
       ∪ dom (table_parts (cat w) (source_database, source_table)))).
Proof.
  set (k := (target_database, target_table)).
  set (P := copy_entry target_database target_table).
  pose (J := λ (done : list dict) (w' : world),
    only_partitions P k w w' ∧
    ∀ vs, vs ∈ dom (table_parts (cat w') k)
          ↔ vs ∈ dom (table_parts (cat w) k) ∨ Some vs ∈ values_of <$> done).
  pose (E := λ (_ : exn) (w' : world), only_partitions P k w w').
  assert (Hstep : ∀ page e w1 w2,
            only_partitions P k w w1 → cat w2 = cat w1 →
            calls w2 = calls w1
                       ++ [(GetPartitions source_database source_table page, e)] →
            only_partitions P k w w2).
  { intros page e w1 w2 H1 Hc Hl. eapply only_partitions_trans; [done|].
    destruct w2 as [c2 f2 l2]. simpl in *. subst.
    apply only_partitions_step; done. }
  unfold copy_partitions.
  eapply spec_mono; [|apply (spec_for_page_in _ _ _ _ w J E)].
  - intros [[]|e] w'; [|by intros H; split].
    intros [Hop HJ]. split; [done|]. intros _.
    apply set_eq. intros vs. rewrite HJ, elem_of_union.
    by rewrite elem_of_listing_values.
  - intros e w1 Hc Hl _. unfold E.
    eapply Hstep; [apply only_partitions_refl|done..].
  - intros w1 Hc Hl _ _. split.
    + eapply Hstep; [apply only_partitions_refl|done..].
    + intros vs. rewrite Hc. rewrite fmap_nil, elem_of_nil. tauto.
  - intros done p w2 [Hop Htrack] _ _.
    unfold batch_create_partition. apply spec_client_call.
    { intros e rest _. unfold E.
      eapply only_partitions_trans; [done|].
      apply only_partitions_step; try done.
      repeat split. apply Forall_fmap, Forall_forall. intros x _.
      apply clean_partition_rehomed. }
    intros _.
    assert (HP : P (BatchCreatePartition target_database target_table
                      (clean_partition <$> p), None)
                 ∧ ∀ e, P (BatchCreatePartition target_database target_table
                             (clean_partition <$> p), Some e)).
    { split; [|intros e]; repeat split;
        apply Forall_fmap, Forall_forall; intros x _;
        apply clean_partition_rehomed. }
    destruct HP as [HPok HPerr].
    destruct (100 <? length (clean_partition <$> p)); simpl.
    { eapply only_partitions_trans; [done|].
      apply only_partitions_step; done. }
    destruct (tables (cat w2) !! (target_database, target_table)); simpl.
    2:{ eapply only_partitions_trans; [done|].
        apply only_partitions_step; done. }
    destruct (mapM values_of (clean_partition <$> p)) as [keys|] eqn:Hk; simpl.
    2:{ eapply only_partitions_trans; [done|].
        apply only_partitions_step; done. }
    split.
    + eapply only_partitions_trans; [done|].
      apply only_partitions_step; try done.
      intros k' Hk'. simpl. by rewrite lookup_insert_ne.
    + intros vs. simpl. fold k. rewrite table_parts_set.
      rewrite dom_create_partitions, Htrack.
      rewrite fst_zip by (by rewrite (length_mapM _ _ _ Hk)).
      apply mapM_fmap_eq in Hk. rewrite <- list_fmap_compose in Hk.
      rewrite fmap_app.
      assert (values_of <$> p = Some <$> keys) as ->.
      { rewrite <- Hk. apply list_fmap_ext. intros i x _. simpl.
        by rewrite values_of_clean_partition. }
      rewrite elem_of_app, elem_of_Some_fmap. tauto.
  - intros done w2 [Hop Htrack]. unfold get_partitions_next.
    apply spec_client_call.
    + intros e rest _. unfold E. eapply Hstep; [done|done..].
    + intros _. simpl. split; [by eapply Hstep|done].
Qed.

(** ** The lookup of a table *)

Lemma get_catalog_table_eq db name w :
  get_catalog_table db name w
  = (Ok (lookup_answer db name w),
     after_call w (GetTable db name) (lookup_outcome db name w)).
Proof.
  unfold get_catalog_table, try_except, get_table, bind, client_call,
    lookup_answer, lookup_outcome, injected, after_call, ret.
  destruct (faults w) as [|[e|] rest]; simpl;
    try destruct (tables (cat w) !! (db, name)); done.
Qed.

(** C7, as the code has it. [get_catalog_table] never raises and never
    changes the catalog: it answers the table when the request is served
    and the table is there, and [None] when the request raises, be it
    because the table is absent or because of any other failure of the
    request. *)
Theorem get_catalog_table_swallows_every_error (db name : string) (w : world) :
  (get_catalog_table db name w).1
  = Ok (match faults w with
        | Some _ :: _ => None
        | _ =>
            (λ stored, GetTableResponse (table_record db name stored))
              <$> tables (cat w) !! (db, name)
        end) ∧
  cat (get_catalog_table db name w).2 = cat w.
Proof.
  rewrite get_catalog_table_eq. split; [|done]. simpl.
  unfold lookup_answer, injected. by destruct (faults w) as [|[e|] rest].
Qed.

Lemma write_parquet_eq glue_context dyf output_path partition_keys db name w :
  write_parquet glue_context dyf output_path partition_keys db name w
  = (match (writeFrame glue_context
              (job_sink output_path partition_keys db name) dyf (cat w)).1 with
     | None => Ok tt
     | Some e => Raise e
     end,
     World (writeFrame glue_context
              (job_sink output_path partition_keys db name) dyf (cat w)).2
       (faults w)
       (calls w ++ [(WriteFrame output_path partition_keys db name,
                     (writeFrame glue_context
                        (job_sink output_path partition_keys db name) dyf
                        (cat w)).1)])).
Proof.
  unfold write_parquet, job_sink. by destruct (writeFrame _ _ _ _).
Qed.

(** ** The definition submitted by the flip *)

Lemma not_stripped_name : "Name" ∉ stripped_table_keys.
Proof. unfold stripped_table_keys. not_in_literals. Qed.

Lemma not_stripped_storage : "StorageDescriptor" ∉ stripped_table_keys.
Proof. unfold stripped_table_keys. not_in_literals. Qed.

Lemma make_table_input_eq staging sd output_table next_location :
  staging !! "StorageDescriptor" = Some (VDict sd) →
  make_table_input staging output_table next_location
  = Ok (flipped_definition staging sd output_table next_location).
Proof.
  intros Hsd. unfold make_table_input, setitem2, getitem.
  rewrite lookup_insert_ne by done.
  assert (filter (λ kv : string * value, kv.1 ∉ stripped_table_keys) staging
            !! "StorageDescriptor" = Some (VDict sd)) as ->; [|done].
  apply map_lookup_filter_Some. split; [done|]. apply not_stripped_storage.
Qed.

Lemma make_table_input_inv staging output_table next_location table_input :
  make_table_input staging output_table next_location = Ok table_input →
  ∃ sd, staging !! "StorageDescriptor" = Some (VDict sd) ∧
        table_input = flipped_definition staging sd output_table next_location.
Proof.
  unfold make_table_input, setitem2, getitem.
  rewrite lookup_insert_ne by done.
  destruct (filter _ staging !! "StorageDescriptor") as [v|] eqn:Hv; [|done].
  apply map_lookup_filter_Some in Hv as [Hv _].
  destruct v as [| | | |sd]; simpl; try done.
  intros [= <-]. by exists sd.
Qed.

Lemma flipped_definition_lookup staging sd output_table next_location :
  (∀ k, k ∈ stripped_table_keys →
     flipped_definition staging sd output_table next_location !! k = None) ∧
  flipped_definition staging sd output_table next_location !! "Name"
    = Some (VStr output_table) ∧
  flipped_definition staging sd output_table next_location !! "StorageDescriptor"
    = Some (VDict (<["Location" := VStr next_location]> sd)) ∧
  (∀ k, k ∉ stripped_table_keys → k ≠ "Name" → k ≠ "StorageDescriptor" →
     flipped_definition staging sd output_table next_location !! k
     = staging !! k).
Proof.
  unfold flipped_definition. split; [|split; [|split]].
  - intros k Hk.
    rewrite !lookup_insert_ne.
    + apply map_lookup_filter_None_2. right. intros v _. simpl. tauto.
    + intros <-. by apply not_stripped_name.
    + intros <-. by apply not_stripped_storage.
  - rewrite lookup_insert_ne by done. by rewrite lookup_insert_eq.
  - by rewrite lookup_insert_eq.
  - intros k Hk Hname Hstorage.
    rewrite !lookup_insert_ne by done.
    destruct (staging !! k) as [v|] eqn:Hv.
    + by apply map_lookup_filter_Some.
    + apply map_lookup_filter_None_2. by left.
Qed.

Lemma elem_of_stripped_table_keys (k : string) :
  k ∈ ({[ "CreatedBy"; "CreateTime"; "UpdateTime"; "DatabaseName";
          "IsRegisteredWithLakeFormation" ]} : gset string)
  ↔ k ∈ stripped_table_keys.
Proof.
  unfold stripped_table_keys.
  rewrite !elem_of_union, !elem_of_singleton, !elem_of_cons, elem_of_nil.
  tauto.
Qed.

(** C10. The definition submitted for the target is the fetched staging
    definition without [CreatedBy], [CreateTime], [UpdateTime],
    [DatabaseName] and [IsRegisteredWithLakeFormation], with [Name] set to
    the target's name and the [Location] of its [StorageDescriptor] set to
    the next location; every other field, and every other field of the
    storage descriptor, is the staging table's.  The fields of the
    submitted definition are those of the staging one but the five, and
    [Name]. *)
Theorem make_table_input_frame (staging : dict) (sd : dict)
    (output_table next_location : string) :
  staging !! "StorageDescriptor" = Some (VDict sd) →
  ∃ table_input,
    make_table_input staging output_table next_location = Ok table_input ∧
    table_input !! "CreatedBy" = None ∧
    table_input !! "CreateTime" = None ∧
    table_input !! "UpdateTime" = None ∧
    table_input !! "DatabaseName" = None ∧
    table_input !! "IsRegisteredWithLakeFormation" = None ∧
    table_input !! "Name" = Some (VStr output_table) ∧
    table_input !! "StorageDescriptor"
      = Some (VDict (<["Location" := VStr next_location]> sd)) ∧
    (∀ k, k ≠ "Location" →
       (<["Location" := VStr next_location]> sd) !! k = sd !! k) ∧
    (∀ k, k ∉ ["CreatedBy"; "CreateTime"; "UpdateTime"; "DatabaseName";
               "IsRegisteredWithLakeFormation"; "Name"; "StorageDescriptor"] →
       table_input !! k = staging !! k) ∧
    dom table_input
    = (dom staging
         ∖ {[ "CreatedBy"; "CreateTime"; "UpdateTime"; "DatabaseName";
              "IsRegisteredWithLakeFormation" ]})
        ∪ {[ "Name" ]}.
Proof.
  intros Hsd.
  exists (flipped_definition staging sd output_table next_location).
  destruct (flipped_definition_lookup staging sd output_table next_location)
    as (Hstripped & Hname & Hstorage & Hrest).
  split; [by apply make_table_input_eq|].
  do 5 (split; [apply Hstripped; unfold stripped_table_keys; in_literals|]).
  split; [done|]. split; [done|].
  split; [intros k Hk; by rewrite lookup_insert_ne|].
  split.
  - intros k Hk. apply Hrest.
    + intros Hin. apply Hk. unfold stripped_table_keys in Hin.
      rewrite !elem_of_cons in Hin. rewrite !elem_of_cons. tauto.
    + intros ->. apply Hk. in_literals.
    + intros ->. apply Hk. in_literals.
  - apply set_eq. intros k.
    rewrite elem_of_union, elem_of_difference, elem_of_stripped_table_keys,
      elem_of_singleton, !elem_of_dom.
    destruct (decide (k = "Name")) as [->|Hn].
    { rewrite Hname. split; [by right|by eexists]. }
    destruct (decide (k = "StorageDescriptor")) as [->|Hs].
    { rewrite Hstorage, Hsd. split; [|by eexists].
      intros _. left. split; [by eexists|]. apply not_stripped_storage. }
    destruct (decide (k ∈ stripped_table_keys)) as [Hin|Hout].
    + rewrite (Hstripped k Hin). split; [by intros []|].
      by intros [[_ Hk]|Hk].
    + rewrite (Hrest k Hout Hn Hs). split; [|by intros [[]|]].
      intros Hsome. by left.
Qed.

Lemma make_table_input_frame_witness :
  ∃ table_input,
    make_table_input
      {[ "Name" := VStr "sales_version_tmp_202103090705";
         "DatabaseName" := VStr "db";
         "CreatedBy" := VStr "arn:aws:sts::123456789012:assumed-role/job";
         "CreateTime" := VInt 7;
         "UpdateTime" := VInt 7;
         "IsRegisteredWithLakeFormation" := VBool false;
         "CatalogId" := VStr "123456789012";
         "TableType" := VStr "EXTERNAL_TABLE";
         "PartitionKeys" := VList [VDict {[ "Name" := VStr "day" ]}];
         "StorageDescriptor" :=
           VDict {[ "Location" := VStr "s3://bucket/db/sales/version_4/";
                    "Columns" := VList [] ]} ]}
      "sales" "s3://bucket/db/sales/version_4/" = Ok table_input ∧
    table_input !! "CreatedBy" = None ∧
    table_input !! "CreateTime" = None ∧
    table_input !! "UpdateTime" = None ∧
    table_input !! "DatabaseName" = None ∧
    table_input !! "IsRegisteredWithLakeFormation" = None ∧
    table_input !! "Name" = Some (VStr "sales") ∧
    table_input !! "StorageDescriptor"
      = Some (VDict (<["Location" := VStr "s3://bucket/db/sales/version_4/"]>
                       {[ "Location" := VStr "s3://bucket/db/sales/version_4/";
                          "Columns" := VList [] ]})) ∧
    (∀ k, k ≠ "Location" →
       (<["Location" := VStr "s3://bucket/db/sales/version_4/"]>
          ({[ "Location" := VStr "s3://bucket/db/sales/version_4/";
              "Columns" := VList [] ]} : dict)) !! k
       = ({[ "Location" := VStr "s3://bucket/db/sales/version_4/";
             "Columns" := VList [] ]} : dict) !! k) ∧
    (∀ k, k ∉ ["CreatedBy"; "CreateTime"; "UpdateTime"; "DatabaseName";
               "IsRegisteredWithLakeFormation"; "Name"; "StorageDescriptor"] →
       table_input !! k
       = ({[ "Name" := VStr "sales_version_tmp_202103090705";
         "DatabaseName" := VStr "db";
         "CreatedBy" := VStr "arn:aws:sts::123456789012:assumed-role/job";
         "CreateTime" := VInt 7;
         "UpdateTime" := VInt 7;
         "IsRegisteredWithLakeFormation" := VBool false;
         "CatalogId" := VStr "123456789012";
         "TableType" := VStr "EXTERNAL_TABLE";
         "PartitionKeys" := VList [VDict {[ "Name" := VStr "day" ]}];
         "StorageDescriptor" :=
           VDict {[ "Location" := VStr "s3://bucket/db/sales/version_4/";
                    "Columns" := VList [] ]} ]} : dict) !! k) ∧
    dom table_input
    = (dom ({[ "Name" := VStr "sales_version_tmp_202103090705";
         "DatabaseName" := VStr "db";
         "CreatedBy" := VStr "arn:aws:sts::123456789012:assumed-role/job";
         "CreateTime" := VInt 7;
         "UpdateTime" := VInt 7;
         "IsRegisteredWithLakeFormation" := VBool false;
         "CatalogId" := VStr "123456789012";
         "TableType" := VStr "EXTERNAL_TABLE";
         "PartitionKeys" := VList [VDict {[ "Name" := VStr "day" ]}];
         "StorageDescriptor" :=
           VDict {[ "Location" := VStr "s3://bucket/db/sales/version_4/";
                    "Columns" := VList [] ]} ]} : dict)
         ∖ {[ "CreatedBy"; "CreateTime"; "UpdateTime"; "DatabaseName";
              "IsRegisteredWithLakeFormation" ]})
        ∪ {[ "Name" ]}.
Proof.
  apply (make_table_input_frame _
           {[ "Location" := VStr "s3://bucket/db/sales/version_4/";
              "Columns" := VList [] ]} "sales" "s3://bucket/db/sales/version_4/").
  reflexivity.
Defined.

(** ** The branches of [write_versioned_parquet] *)

Lemma version_tmp_name_fresh output_table now :
  version_tmp_name output_table now ≠ output_table.
Proof.
  unfold version_tmp_name. intros Heq.
  apply (f_equal String.length) in Heq.
  rewrite !string_length_app in Heq. simpl in Heq. lia.
Qed.

Lemma lookup_answer_found db name w existing :
  lookup_answer db name w = Some existing →
  lookup_outcome db name w = None ∧
  ∃ stored, tables (cat w) !! (db, name) = Some stored ∧
            existing = GetTableResponse (table_record db name stored).
Proof.
  unfold lookup_answer, lookup_outcome. destruct (injected w); [done|].
  destruct (tables (cat w) !! (db, name)) as [stored|]; [|done].
  intros [= <-]. split; [done|]. by exists stored.
Qed.

Lemma lookup_answer_absent db name w :
  tables (cat w) !! (db, name) = None → lookup_answer db name w = None.
Proof.
  unfold lookup_answer. intros ->. by destruct (injected w).
Qed.

Lemma example_context_local : sink_local example_context.
Proof.
  intros s dyf c k Hk. unfold example_context. simpl.
  destruct (frame_columns dyf); simpl; [done|].
  by rewrite !lookup_insert_ne.
Qed.

(** C5. When the target is absent from the catalog, the run makes two
    requests only: the lookup, and one write through the sink at
    [<output_path>/version_0] under the target's own name.  There is no
    request on partitions, and with a sink that keeps to its table no other
    table is created or changed. *)
Theorem first_write_registers_target (now : datetime) (glue_context : GlueContext)
    (dyf : DynamicFrame) (output_path : string) (partition_keys : list string)
    (db tgt : string) (w : world) :
  sink_local glue_context →
  tables (cat w) !! (db, tgt) = None →
  ∃ o w',
    write_versioned_parquet now glue_context dyf output_path partition_keys
      db tgt w
    = (match o with None => Ok tt | Some e => Raise e end, w') ∧
    calls w' = calls w ++
      [(GetTable db tgt, lookup_outcome db tgt w);
       (WriteFrame (output_path +:+ "/version_0") partition_keys db tgt, o)] ∧
    (o, cat w')
    = writeFrame glue_context
        (job_sink (output_path +:+ "/version_0") partition_keys db tgt) dyf (cat w) ∧
    (∀ e, e ∈ drop (length (calls w)) (calls w') → ¬ partition_entry e) ∧
    (∀ k, k ≠ (db, tgt) →
       tables (cat w') !! k = tables (cat w) !! k ∧
       partitions (cat w') !! k = partitions (cat w) !! k).
Proof.
  intros Hlocal Habsent.
  unfold write_versioned_parquet, bind.
  rewrite get_catalog_table_eq, (lookup_answer_absent _ _ _ Habsent).
  rewrite write_parquet_eq. cbn [cat faults calls after_call].
  eexists _, _. split; [reflexivity|].
  split; [by rewrite <- app_assoc|].
  split; [by destruct (writeFrame _ _ _ _)|].
  split.
  - intros e. cbn [calls]. rewrite <- app_assoc, drop_app_length.
    intros [->|[->|[]%elem_of_nil]%elem_of_cons]%elem_of_cons; by intros [].
  - intros k Hk. cbn [cat]. by apply Hlocal.
Qed.

Lemma first_write_registers_target_witness :
  ∃ o w',
    write_versioned_parquet example_now example_context example_frame
      "s3://bucket/db/sales" ["day"] "db" "sales" (start fresh_catalog [])
    = (match o with None => Ok tt | Some e => Raise e end, w') ∧
    calls w' = calls (start fresh_catalog []) ++
      [(GetTable "db" "sales", lookup_outcome "db" "sales" (start fresh_catalog []));
       (WriteFrame ("s3://bucket/db/sales" +:+ "/version_0") ["day"] "db" "sales", o)] ∧
    (o, cat w')
    = writeFrame example_context
        (job_sink ("s3://bucket/db/sales" +:+ "/version_0") ["day"] "db" "sales")
        example_frame (cat (start fresh_catalog [])) ∧
    (∀ e, e ∈ drop (length (calls (start fresh_catalog []))) (calls w') →
          ¬ partition_entry e) ∧
    (∀ k, k ≠ ("db", "sales") →
       tables (cat w') !! k = tables (cat (start fresh_catalog [])) !! k ∧
       partitions (cat w') !! k = partitions (cat (start fresh_catalog [])) !! k).
Proof.
  apply (first_write_registers_target example_now example_context example_frame
           "s3://bucket/db/sales" ["day"] "db" "sales" (start fresh_catalog [])).
  - apply example_context_local.
  - reflexivity.
Defined.

(** C4. In the overwrite branch, when the write through the sink raises,
    the run raises the same exception after two requests, the lookup and
    the write under the staging name: the job has sent nothing that changes
    the catalog, and with a sink that keeps to its table the target's
    definition and its partitions are what they were. *)
Theorem failed_write_leaves_target (now : datetime) (glue_context : GlueContext)
    (dyf : DynamicFrame) (output_path : string) (partition_keys : list string)
    (db tgt : string) (w : world) (existing : get_table_response)
    (next : string) (e : exn) (c1 : catalog) :
  sink_local glue_context →
  lookup_answer db tgt w = Some existing →
  calculate_next_location existing = Ok next →
  writeFrame glue_context
    (job_sink next partition_keys db (version_tmp_name tgt now)) dyf (cat w)
  = (Some e, c1) →
  ∃ w',
    write_versioned_parquet now glue_context dyf output_path partition_keys
      db tgt w = (Raise e, w') ∧
    calls w' = calls w ++
      [(GetTable db tgt, None);
       (WriteFrame next partition_keys db (version_tmp_name tgt now), Some e)] ∧
    cat w' = c1 ∧
    tables (cat w') !! (db, tgt) = tables (cat w) !! (db, tgt) ∧
    table_parts (cat w') (db, tgt) = table_parts (cat w) (db, tgt) ∧
    lookup_answer db tgt (start (cat w') []) = Some existing.
Proof.
  intros Hlocal Hfound Hnext Hsink.
  destruct (lookup_answer_found _ _ _ _ Hfound) as (Hout & stored & Hstored & ->).
  assert (Hfresh : (db, tgt) ≠ (catalogDatabase
                      (job_sink next partition_keys db (version_tmp_name tgt now)),
                    catalogTableName
                      (job_sink next partition_keys db (version_tmp_name tgt now)))).
  { simpl. intros [= Heq]. by apply (version_tmp_name_fresh tgt now). }
  destruct (Hlocal (job_sink next partition_keys db (version_tmp_name tgt now))
              dyf (cat w) (db, tgt) Hfresh) as [Ht Hp].
  rewrite Hsink in Ht, Hp. simpl in Ht, Hp.
  unfold write_versioned_parquet, bind.
  rewrite get_catalog_table_eq, Hfound, Hout. unfold lift. rewrite Hnext.
  rewrite write_parquet_eq. cbn [cat faults calls after_call].
  rewrite Hsink. simpl.
  eexists. split; [reflexivity|]. simpl.
  split; [by rewrite <- app_assoc|].
  split; [done|]. split; [done|].
  split; [unfold table_parts; by rewrite Hp|].
  unfold lookup_answer, injected. simpl. by rewrite Ht, Hstored.
Qed.

Lemma failed_write_leaves_target_witness :
  ∃ w',
    write_versioned_parquet example_now example_context empty_frame
      "s3://bucket/db/sales" ["day"] "db" "sales" (start live_catalog [])
    = (Raise (SinkError "empty frame"), w') ∧
    calls w' = calls (start live_catalog []) ++
      [(GetTable "db" "sales", None);
       (WriteFrame "s3://bucket/db/sales/version_4/" ["day"] "db"
          (version_tmp_name "sales" example_now),
        Some (SinkError "empty frame"))] ∧
    cat w' = live_catalog ∧
    tables (cat w') !! ("db", "sales")
    = tables (cat (start live_catalog [])) !! ("db", "sales") ∧
    table_parts (cat w') ("db", "sales")
    = table_parts (cat (start live_catalog [])) ("db", "sales") ∧
    lookup_answer "db" "sales" (start (cat w') [])
    = Some (GetTableResponse
              (table_record "db" "sales"
                 {[ "StorageDescriptor" :=
                      VDict {[ "Location" := VStr "s3://bucket/db/sales/version_3/";
                               "Columns" := VList [] ]};
                    "CreateTime" := VInt 1 ]})).
Proof.
  apply (failed_write_leaves_target example_now example_context empty_frame
           "s3://bucket/db/sales" ["day"] "db" "sales" (start live_catalog [])).
  - apply example_context_local.
  - reflexivity.
  - vm_compute. reflexivity.
  - reflexivity.
Defined.

(** [int] raises nothing but [ValueError]. *)
Lemma int_raises s e : Py.int s = Raise e → e = ValueError.
Proof.
  unfold Py.int.
  repeat match goal with
         | |- context [if ?b then _ else _] => destruct b
         | |- context [match ?o with Some _ => _ | None => _ end] => destruct o
         end; congruence.
Qed.

(** C6, as the code has it. For an existing target whose location, a
    string of ASCII characters, has fewer than two segments, the next
    location raises [IndexError]; when the segment before the last, with
    every [version_] taken out, is not an integer literal, it raises
    [ValueError].  Either exception ends the run right after the lookup:
    nothing is written and the catalog is as it was. *)
Theorem malformed_location_aborts (now : datetime) (glue_context : GlueContext)
    (dyf : DynamicFrame) (output_path : string) (partition_keys : list string)
    (db tgt : string) (w : world) (existing : get_table_response)
    (sd : dict) (location : string) :
  lookup_answer db tgt w = Some existing →
  Table existing !! "StorageDescriptor" = Some (VDict sd) →
  sd !! "Location" = Some (VStr location) →
  isascii location = true →
  length (Py.split "/" location) < 2 ∨
    (∃ pre seg last,
       Py.split "/" location = pre ++ [seg; last] ∧
       Py.int (Py.replace "version_" "" seg) = Raise ValueError) →
  ∃ e,
    (e = IndexError ∧ length (Py.split "/" location) < 2 ∨
     e = ValueError ∧ 2 ≤ length (Py.split "/" location)) ∧
    calculate_next_location existing = Raise e ∧
    write_versioned_parquet now glue_context dyf output_path partition_keys
      db tgt w
    = (Raise e, after_call w (GetTable db tgt) None).
Proof.
  intros Hfound Hsd Hloc _ Hbad.
  destruct (lookup_answer_found _ _ _ _ Hfound) as (Hout & _).
  assert (Hcalc : ∃ e,
            (e = IndexError ∧ length (Py.split "/" location) < 2 ∨
             e = ValueError ∧ 2 ≤ length (Py.split "/" location)) ∧
            calculate_next_location existing = Raise e).
  { unfold calculate_next_location, getitem. rewrite Hsd. simpl.
    unfold getitem. rewrite Hloc. simpl.
    destruct Hbad as [Hshort|(pre & seg & last & Hsplit & Hint)].
    - exists IndexError. split; [by left|].
      unfold Py.index_m2.
      destruct (Py.split "/" location !! (length (Py.split "/" location) - 2));
        [|done].
      destruct (2 <=? length (Py.split "/" location)) eqn:E; [|done].
      apply Nat.leb_le in E. lia.
    - exists ValueError. split.
      + right. split; [done|]. rewrite Hsplit, length_app. simpl. lia.
      + rewrite Hsplit, index_m2_app. simpl. by rewrite Hint. }
  destruct Hcalc as (e & Hkind & Hcalc). exists e.
  split; [done|]. split; [done|].
  unfold write_versioned_parquet, bind.
  rewrite get_catalog_table_eq, Hfound, Hout. unfold lift. by rewrite Hcalc.
Qed.

Lemma malformed_location_aborts_witness :
  ∃ e,
    (e = IndexError ∧ length (Py.split "/" "s3://bucket/db/sales/latest/") < 2 ∨
     e = ValueError ∧ 2 ≤ length (Py.split "/" "s3://bucket/db/sales/latest/")) ∧
    calculate_next_location
      (GetTableResponse
         (table_record "db" "sales"
            {[ "StorageDescriptor" :=
                 VDict {[ "Location" := VStr "s3://bucket/db/sales/latest/" ]} ]}))
    = Raise e ∧
    write_versioned_parquet example_now example_context example_frame
      "s3://bucket/db/sales" ["day"] "db" "sales"
      (start {| databases := ∅;
                tables :=
                  {[ ("db", "sales") :=
                       {[ "StorageDescriptor" :=
                            VDict {[ "Location" := VStr "s3://bucket/db/sales/latest/" ]} ]} ]};
                partitions := ∅; clock := 0; default_page := 1 |} [])
    = (Raise e,
       after_call
         (start {| databases := ∅;
                   tables :=
                     {[ ("db", "sales") :=
                          {[ "StorageDescriptor" :=
                               VDict {[ "Location" := VStr "s3://bucket/db/sales/latest/" ]} ]} ]};
                   partitions := ∅; clock := 0; default_page := 1 |} [])
         (GetTable "db" "sales") None).
Proof.
  apply (malformed_location_aborts example_now example_context example_frame
           "s3://bucket/db/sales" ["day"] "db" "sales" _ _
           {[ "Location" := VStr "s3://bucket/db/sales/latest/" ]}
           "s3://bucket/db/sales/latest/").
  - reflexivity.
  - reflexivity.
  - reflexivity.
  - reflexivity.
  - right. exists ["s3:"; ""; "bucket"; "db"; "sales"], "latest", "".
    split; reflexivity.
Defined.

(** The location [s3://bucket/db/sales/7/] has no generation segment, and
    the next location is computed all the same: the claim C6 as stated
    fails there. *)
Lemma unversioned_segment_accepted :
  Py.index_m2 (Py.split "/" "s3://bucket/db/sales/7/") = Ok "7" ∧
  Py.startswith "version_" "7" = false ∧
  calculate_next_location
    (GetTableResponse
       {[ "StorageDescriptor" :=
            VDict {[ "Location" := VStr "s3://bucket/db/sales/7/" ]} ]})
  = Ok "s3://bucket/db/sales/version_8/".
Proof. vm_compute. repeat split; reflexivity. Qed.

(** Every run of the overwrite branch leaves by one of its exits. *)
Lemma overwrite_exits now glue_context dyf output_path partition_keys
    db tgt w existing r w' :
  lookup_answer db tgt w = Some existing →
  write_versioned_parquet now glue_context dyf output_path partition_keys
    db tgt w = (r, w') →
  overwrite_exit glue_context dyf partition_keys db tgt
    (version_tmp_name tgt now) existing
    (after_call w (GetTable db tgt) None) r w'.
Proof.
  intros Hfound.
  destruct (lookup_answer_found _ _ _ _ Hfound) as (Hout & _).
  unfold write_versioned_parquet.
  unfold bind at 1. rewrite get_catalog_table_eq, Hfound, Hout.
  set (w1 := after_call w (GetTable db tgt) None).
  set (tmp := version_tmp_name tgt now).
  unfold bind at 1. unfold lift at 1.
  destruct (calculate_next_location existing) as [next|e] eqn:Hnext.
  2:{ intros [= <- <-]. by apply exit_location. }
  unfold bind at 1.
  destruct (write_parquet glue_context dyf next partition_keys db tmp w1)
    as [[[]|e] w2] eqn:Hwrite.
  2:{ intros [= <- <-]. by eapply exit_write. }
  unfold bind at 1.
  destruct (get_catalog_table db tmp w2) as [fetched w3] eqn:Hfetch.
  assert (∃ a, fetched = Ok a) as [[staging|] ->].
  { rewrite get_catalog_table_eq in Hfetch. injection Hfetch as <- _. eauto. }
  2:{ unfold bind, raise. intros [= <- <-]. by eapply exit_staging_lookup. }
  unfold bind at 1. unfold ret at 1.
  unfold bind at 1. unfold lift at 1.
  destruct (make_table_input (Table staging) tgt next) as [table_input|e]
    eqn:Hinput.
  2:{ intros [= <- <-]. by eapply exit_table_input. }
  unfold bind at 1.
  destruct (delete_partitions db tgt 25 w3) as [[[]|e] wd] eqn:Hdel.
  2:{ intros [= <- <-]. eapply exit_reconcile; [done..|].
      unfold reconcile, bind. by rewrite Hdel. }
  unfold bind at 1.
  destruct (copy_partitions db tmp db tgt wd) as [[[]|e] w4] eqn:Hcopy.
  2:{ intros [= <- <-]. eapply exit_reconcile; [done..|].
      unfold reconcile, bind. by rewrite Hdel, Hcopy. }
  assert (Hrec : reconcile db tmp tgt w3 = (Ok tt, w4)).
  { unfold reconcile, bind. by rewrite Hdel, Hcopy. }
  unfold bind at 1.
  destruct (update_table db table_input w4) as [[[]|e] w5] eqn:Hupd.
  2:{ intros [= <- <-]. by eapply exit_flip. }
  destruct (delete_table db tmp w5) as [[[]|e] w6] eqn:Hdrop;
    intros [= <- <-].
  - by eapply exit_done.
  - by eapply exit_cleanup.
Qed.

(** ** The steps of the overwrite branch, one by one *)

Lemma write_parquet_calls glue_context dyf output_path partition_keys db name w r w' :
  write_parquet glue_context dyf output_path partition_keys db name w = (r, w') →
  calls w' = calls w ++ [(WriteFrame output_path partition_keys db name, outcome r)] ∧
  faults w' = faults w.
Proof.
  rewrite write_parquet_eq. intros [= <- <-]. simpl.
  by destruct (writeFrame _ _ _ _).1.
Qed.

Lemma get_catalog_table_fetch db name w answer w' :
  get_catalog_table db name w = (Ok answer, w') →
  cat w' = cat w ∧
  calls w' = calls w ++ [(GetTable db name, lookup_outcome db name w)] ∧
  answer = lookup_answer db name w.
Proof.
  rewrite get_catalog_table_eq. by intros [= <- <-].
Qed.

(** The reconciliation leaves the tables and every other table's
    partitions, and logs requests on partitions only. *)
Lemma reconcile_only_partitions db tmp tgt w r w' :
  reconcile db tmp tgt w = (r, w') →
  only_partitions partition_entry (db, tgt) w w'.
Proof.
  unfold reconcile, bind.
  pose proof (delete_partitions_spec db tgt 25 w ltac:(lia)) as Hd.
  unfold spec in Hd.
  destruct (delete_partitions db tgt 25 w) as [[[]|e] wd]; simpl in Hd.
  - pose proof (copy_partitions_spec db tmp db tgt wd) as Hc.
    unfold spec in Hc.
    destruct (copy_partitions db tmp db tgt wd) as [r' w4]; simpl in Hc.
    intros [= <- <-].
    eapply only_partitions_trans.
    + eapply only_partitions_mono; [|apply Hd].
      intros [c o]. unfold delete_entry, partition_entry. simpl.
      by destruct c.
    + eapply only_partitions_mono; [|apply Hc].
      intros [c o]. unfold copy_entry, partition_entry. simpl.
      by destruct c.
  - intros [= <- <-].
    eapply only_partitions_mono; [|apply Hd].
    intros [c o]. unfold delete_entry, partition_entry. simpl.
    by destruct c.
Qed.

(** A served [update_table] installs the submitted definition under the
    table it names; a failed one leaves the catalog. *)
Lemma update_table_flip db table_input w r w' :
  update_table db table_input w = (r, w') →
  calls w' = calls w ++ [(UpdateTable db table_input, outcome r)] ∧
  match r with
  | Ok _ =>
      ∃ name,
        table_input !! "Name" = Some (VStr name) ∧
        tables (cat w')
        = <[(db, name) := <["UpdateTime" := VInt (clock (cat w))]> table_input]>
            (tables (cat w)) ∧
        partitions (cat w') = partitions (cat w)
  | Raise _ => cat w' = cat w
  end.
Proof.
  unfold update_table, client_call.
  destruct (faults w) as [|[e|] rest].
  2:{ by intros [= <- <-]. }
  all: destruct (table_input !! "Name") as [[name| | | |]|];
    try (by intros [= <- <-]);
    destruct (tables (cat w) !! (db, name));
    intros [= <- <-]; simpl; try done; split; try done; by exists name.
Qed.

(** [delete_table] concerns one table only. *)
Lemma delete_table_drop db name w r w' :
  delete_table db name w = (r, w') →
  calls w' = calls w ++ [(DeleteTable db name, outcome r)] ∧
  (∀ k, k ≠ (db, name) →
     tables (cat w') !! k = tables (cat w) !! k ∧
     partitions (cat w') !! k = partitions (cat w) !! k) ∧
  match r with
  | Ok _ => tables (cat w') !! (db, name) = None
  | Raise _ => cat w' = cat w
  end.
Proof.
  unfold delete_table, client_call.
  destruct (faults w) as [|[e|] rest].
  2:{ by intros [= <- <-]. }
  all: destruct (tables (cat w) !! (db, name));
    intros [= <- <-]; simpl; repeat split; try done;
    try (by rewrite lookup_delete_ne);
    by rewrite lookup_delete_eq.
Qed.

Lemma write_parquet_catalog glue_context dyf output_path partition_keys db name w r w' :
  write_parquet glue_context dyf output_path partition_keys db name w = (r, w') →
  cat w' = (writeFrame glue_context
              (job_sink output_path partition_keys db name) dyf (cat w)).2.
Proof. rewrite write_parquet_eq. by intros [= <- <-]. Qed.

Lemma partition_entry_quiet e : partition_entry e → quiet e.
Proof. destruct e as [[] o]; done. Qed.

(** The log of an exit: entries that are neither flip nor cleanup, then
    nothing, or a failed flip, or a served flip followed by the cleanup,
    whose outcome is the run's. *)
Lemma overwrite_exit_shape glue_context dyf partition_keys db tgt tmp
    existing w1 r w' :
  tmp ≠ tgt →
  overwrite_exit glue_context dyf partition_keys db tgt tmp existing w1 r w' →
  ∃ before flip,
    calls w' = calls w1 ++ before ++ flip ∧
    Forall quiet before ∧
    ((flip = [] ∧ r ≠ Ok tt) ∨
     (∃ table_input e, flip = [(UpdateTable db table_input, Some e)] ∧ r = Raise e) ∨
     (∃ table_input o next stored,
        flip = [(UpdateTable db table_input, None); (DeleteTable db tmp, o)] ∧
        r = match o with None => Ok tt | Some e => Raise e end ∧
        calculate_next_location existing = Ok next ∧
        tables (writeFrame glue_context
                  (job_sink next partition_keys db tmp) dyf (cat w1)).2
          !! (db, tmp) = Some stored ∧
        make_table_input (table_record db tmp stored) tgt next = Ok table_input ∧
        ∃ stamp,
          tables (cat w') !! (db, tgt)
          = Some (<["UpdateTime" := VInt stamp]> table_input))).
Proof.
  intros Hfresh Hexit.
  destruct Hexit as
    [ e Hnext
    | next e w2 Hnext Hwrite
    | next w2 w3 Hnext Hwrite Hfetch
    | next w2 w3 staging e Hnext Hwrite Hfetch Hinput
    | next w2 w3 staging table_input e w4 Hnext Hwrite Hfetch Hinput Hrec
    | next w2 w3 staging table_input w4 e w5 Hnext Hwrite Hfetch Hinput Hrec Hupd
    | next w2 w3 staging table_input w4 w5 e w6
        Hnext Hwrite Hfetch Hinput Hrec Hupd Hdrop
    | next w2 w3 staging table_input w4 w5 w6
        Hnext Hwrite Hfetch Hinput Hrec Hupd Hdrop ].
  - exists [], []. rewrite !app_nil_r. repeat split; [constructor|by left].
  - apply write_parquet_calls in Hwrite as [Hw2 _].
    eexists [_], []. rewrite app_nil_r. split; [done|].
    split; [by repeat constructor|by left].
  - apply write_parquet_calls in Hwrite as [Hw2 _].
    apply get_catalog_table_fetch in Hfetch as (_ & Hw3 & _).
    eexists [_; _], []. rewrite app_nil_r.
    split; [by rewrite Hw3, Hw2, <- app_assoc|].
    split; [by repeat constructor|by left].
  - apply write_parquet_calls in Hwrite as [Hw2 _].
    apply get_catalog_table_fetch in Hfetch as (_ & Hw3 & _).
    eexists [_; _], []. rewrite app_nil_r.
    split; [by rewrite Hw3, Hw2, <- app_assoc|].
    split; [by repeat constructor|by left].
  - apply write_parquet_calls in Hwrite as [Hw2 _].
    apply get_catalog_table_fetch in Hfetch as (_ & Hw3 & _).
    apply reconcile_only_partitions in Hrec as (_ & _ & _ & _ & _ & lp & Hw4 & Hlp).
    eexists ([_; _] ++ lp), []. rewrite app_nil_r.
    split; [by rewrite Hw4, Hw3, Hw2, <- !app_assoc|].
    split; [|by left].
    apply Forall_app. split; [by repeat constructor|].
    eapply Forall_impl; [done|]. apply partition_entry_quiet.
  - apply write_parquet_calls in Hwrite as [Hw2 _].
    apply get_catalog_table_fetch in Hfetch as (_ & Hw3 & _).
    apply reconcile_only_partitions in Hrec as (_ & _ & _ & _ & _ & lp & Hw4 & Hlp).
    apply update_table_flip in Hupd as [Hw5 _].
    eexists ([_; _] ++ lp), [_].
    split; [by rewrite Hw5, Hw4, Hw3, Hw2, <- !app_assoc|].
    split.
    { apply Forall_app. split; [by repeat constructor|].
      eapply Forall_impl; [done|]. apply partition_entry_quiet. }
    right. left. by eexists _, _.
  - pose proof (write_parquet_catalog _ _ _ _ _ _ _ _ _ Hwrite) as Hc2.
    apply write_parquet_calls in Hwrite as [Hw2 _].
    apply get_catalog_table_fetch in Hfetch as (Hc3 & Hw3 & Hanswer).
    apply reconcile_only_partitions in Hrec as (Ht4 & _ & _ & _ & _ & lp & Hw4 & Hlp).
    apply update_table_flip in Hupd as [Hw5 (name & Hname & Ht5 & _)].
    apply delete_table_drop in Hdrop as (Hw6 & _ & Hc6).
    symmetry in Hanswer.
    apply lookup_answer_found in Hanswer as (_ & stored & Hstored & ->).
    eexists ([_; _] ++ lp), [_; _].
    split; [by rewrite Hw6, Hw5, Hw4, Hw3, Hw2, <- !app_assoc|].
    split.
    { apply Forall_app. split; [by repeat constructor|].
      eapply Forall_impl; [done|]. apply partition_entry_quiet. }
    right. right. exists table_input, (Some e), next, stored.
    split; [done|]. split; [done|]. split; [done|].
    split; [by rewrite <- Hc2|]. split; [done|].
    exists (clock (cat w4)). rewrite Hc6, Ht5.
    cbn [Table] in Hinput.
    destruct (make_table_input_inv _ _ _ _ Hinput) as (sd & _ & ->).
    destruct (flipped_definition_lookup (table_record db tmp stored) sd tgt next)
      as (_ & Hn & _).
    rewrite Hn in Hname. injection Hname as <-.
    by rewrite lookup_insert_eq.
  - pose proof (write_parquet_catalog _ _ _ _ _ _ _ _ _ Hwrite) as Hc2.
    apply write_parquet_calls in Hwrite as [Hw2 _].
    apply get_catalog_table_fetch in Hfetch as (Hc3 & Hw3 & Hanswer).
    apply reconcile_only_partitions in Hrec as (Ht4 & _ & _ & _ & _ & lp & Hw4 & Hlp).
    apply update_table_flip in Hupd as [Hw5 (name & Hname & Ht5 & _)].
    apply delete_table_drop in Hdrop as (Hw6 & Hother & _).
    symmetry in Hanswer.
    apply lookup_answer_found in Hanswer as (_ & stored & Hstored & ->).
    eexists ([_; _] ++ lp), [_; _].
    split; [by rewrite Hw6, Hw5, Hw4, Hw3, Hw2, <- !app_assoc|].
    split.
    { apply Forall_app. split; [by repeat constructor|].
      eapply Forall_impl; [done|]. apply partition_entry_quiet. }
    right. right. exists table_input, None, next, stored.
    split; [done|]. split; [done|]. split; [done|].
    split; [by rewrite <- Hc2|]. split; [done|].
    exists (clock (cat w4)).
    destruct (Hother (db, tgt)) as [-> _]; [congruence|]. rewrite Ht5.
    cbn [Table] in Hinput.
    destruct (make_table_input_inv _ _ _ _ Hinput) as (sd & _ & ->).
    destruct (flipped_definition_lookup (table_record db tmp stored) sd tgt next)
      as (_ & Hn & _).
    rewrite Hn in Hname. injection Hname as <-.
    by rewrite lookup_insert_eq.
Qed.

Lemma after_lookup_calls w db tgt before flip (w' : world) :
  calls w' = calls (after_call w (GetTable db tgt) None) ++ before ++ flip →
  drop (length (calls w)) (calls w')
  = (GetTable db tgt, None) :: before ++ flip.
Proof.
  intros ->. simpl. by rewrite <- app_assoc, drop_app_length.
Qed.

(** ** The flip *)

(** C2. When the flip of an overwrite has been served, the definition it
    submitted is the one built from the staging table as the data processor
    registered it, and the target's entry in the catalog is that definition:
    its location is the computed next location, the rest of its storage
    descriptor (the columns among it) and its other fields, but for the
    stripped ones and the name, are the staging table's. *)
Theorem flip_installs_next_generation (now : datetime) (glue_context : GlueContext)
    (dyf : DynamicFrame) (output_path : string) (partition_keys : list string)
    (db tgt : string) (w : world) (existing : get_table_response)
    (r : result unit) (w' : world) (table_input : dict) :
  lookup_answer db tgt w = Some existing →
  write_versioned_parquet now glue_context dyf output_path partition_keys
    db tgt w = (r, w') →
  (UpdateTable db table_input, None) ∈ drop (length (calls w)) (calls w') →
  ∃ next stored sd installed,
    calculate_next_location existing = Ok next ∧
    tables (writeFrame glue_context
              (job_sink next partition_keys db (version_tmp_name tgt now))
              dyf (cat w)).2 !! (db, version_tmp_name tgt now) = Some stored ∧
    stored !! "StorageDescriptor" = Some (VDict sd) ∧
    make_table_input (table_record db (version_tmp_name tgt now) stored) tgt next
    = Ok table_input ∧
    tables (cat w') !! (db, tgt) = Some installed ∧
    installed !! "Name" = Some (VStr tgt) ∧
    installed !! "StorageDescriptor"
    = Some (VDict (<["Location" := VStr next]> sd)) ∧
    (∀ k, k ≠ "Location" → (<["Location" := VStr next]> sd) !! k = sd !! k) ∧
    (∀ k, k ∉ stripped_table_keys → k ≠ "Name" → k ≠ "StorageDescriptor" →
       installed !! k = stored !! k).
Proof.
  intros Hfound Hrun Hflip.
  pose proof (overwrite_exits _ _ _ _ _ _ _ _ _ _ _ Hfound Hrun) as Hexit.
  apply overwrite_exit_shape in Hexit
    as (before & flip & Hcalls & Hquiet & Hshape);
    [|apply version_tmp_name_fresh].
  rewrite (after_lookup_calls _ _ _ _ _ _ Hcalls) in Hflip.
  apply elem_of_cons in Hflip as [[=]|Hflip].
  apply elem_of_app in Hflip as [Hin|Hin].
  { rewrite Forall_forall in Hquiet. by destruct (Hquiet _ Hin). }
  destruct Hshape as [[-> _]|[(ti & e & -> & _)|Hserved]].
  { by apply elem_of_nil in Hin. }
  { apply elem_of_cons in Hin as [[=]|[]%elem_of_nil]. }
  destruct Hserved
    as (ti & o & next & stored & -> & _ & Hnext & Hstored & Hinput & stamp & Htgt).
  apply elem_of_cons in Hin as [[= ->]|Hin].
  2:{ apply elem_of_cons in Hin as [[=]|[]%elem_of_nil]. }
  destruct (make_table_input_inv _ _ _ _ Hinput) as (sd & Hsd & Heq).
  destruct (flipped_definition_lookup
              (table_record db (version_tmp_name tgt now) stored) sd tgt next)
    as (_ & Hname & Hstorage & Hrest).
  unfold table_record in Hsd. rewrite !lookup_insert_ne in Hsd by done.
  exists next, stored, sd, (<["UpdateTime" := VInt stamp]> ti).
  split; [done|]. split; [done|]. split; [done|]. split; [done|].
  split; [done|]. subst ti.
  split; [by rewrite lookup_insert_ne|].
  split; [by rewrite lookup_insert_ne|].
  split; [intros k Hk; by rewrite lookup_insert_ne|].
  intros k Hk Hn Hs.
  rewrite lookup_insert_ne.
  2:{ intros <-. apply Hk. unfold stripped_table_keys. in_literals. }
  rewrite Hrest by done. unfold table_record.
  rewrite !lookup_insert_ne; [done| |done].
  intros <-. apply Hk. unfold stripped_table_keys. in_literals.
Qed.

Lemma flip_installs_next_generation_witness :
  ∃ next stored sd installed,
    calculate_next_location
      (GetTableResponse
         (table_record "db" "sales"
            {[ "StorageDescriptor" :=
                 VDict {[ "Location" := VStr "s3://bucket/db/sales/version_3/";
                          "Columns" := VList [] ]};
               "CreateTime" := VInt 1 ]})) = Ok next ∧
    tables (writeFrame example_context
              (job_sink next ["day"] "db" (version_tmp_name "sales" example_now))
              example_frame (cat (start live_catalog []))).2
      !! ("db", version_tmp_name "sales" example_now) = Some stored ∧
    stored !! "StorageDescriptor" = Some (VDict sd) ∧
    make_table_input
      (table_record "db" (version_tmp_name "sales" example_now) stored)
      "sales" next = Ok example_table_input ∧
    tables (cat example_overwrite.2) !! ("db", "sales") = Some installed ∧
    installed !! "Name" = Some (VStr "sales") ∧
    installed !! "StorageDescriptor"
    = Some (VDict (<["Location" := VStr next]> sd)) ∧
    (∀ k, k ≠ "Location" → (<["Location" := VStr next]> sd) !! k = sd !! k) ∧
    (∀ k, k ∉ stripped_table_keys → k ≠ "Name" → k ≠ "StorageDescriptor" →
       installed !! k = stored !! k).
Proof.
  apply (flip_installs_next_generation example_now example_context example_frame
           "s3://bucket/db/sales" ["day"] "db" "sales" (start live_catalog [])
           _ example_overwrite.1 example_overwrite.2 example_table_input).
  - reflexivity.
  - apply surjective_pairing.
  - apply (list_elem_of_lookup_2 _ 7). vm_compute. reflexivity.
Defined.

(** ** The cleanup *)

(** C9, as the code has it. In the overwrite branch the staging table's
    deletion is requested exactly when the flip has been served, never on
    an attempt that failed before or at the flip; the run returns exactly
    when that deletion is served, and when the deletion raises the run
    raises its exception. *)
Theorem cleanup_follows_flip (now : datetime) (glue_context : GlueContext)
    (dyf : DynamicFrame) (output_path : string) (partition_keys : list string)
    (db tgt : string) (w : world) (existing : get_table_response)
    (r : result unit) (w' : world) :
  lookup_answer db tgt w = Some existing →
  write_versioned_parquet now glue_context dyf output_path partition_keys
    db tgt w = (r, w') →
  (∀ d name o,
     (DeleteTable d name, o) ∈ drop (length (calls w)) (calls w') →
     d = db ∧ name = version_tmp_name tgt now ∧
     (∃ table_input,
        (UpdateTable db table_input, None) ∈ drop (length (calls w)) (calls w')) ∧
     r = match o with None => Ok tt | Some e => Raise e end) ∧
  ((∃ table_input,
      (UpdateTable db table_input, None) ∈ drop (length (calls w)) (calls w')) →
   ∃ o, (DeleteTable db (version_tmp_name tgt now), o)
        ∈ drop (length (calls w)) (calls w')) ∧
  (r = Ok tt ↔
   (DeleteTable db (version_tmp_name tgt now), None)
   ∈ drop (length (calls w)) (calls w')).
Proof.
  intros Hfound Hrun.
  pose proof (overwrite_exits _ _ _ _ _ _ _ _ _ _ _ Hfound Hrun) as Hexit.
  apply overwrite_exit_shape in Hexit
    as (before & flip & Hcalls & Hquiet & Hshape);
    [|apply version_tmp_name_fresh].
  rewrite (after_lookup_calls _ _ _ _ _ _ Hcalls).
  rewrite Forall_forall in Hquiet.
  assert (Hdel : ∀ d name o, (DeleteTable d name, o) ∉ before).
  { intros d name o Hin. by destruct (Hquiet _ Hin). }
  assert (Hupd : ∀ ti o, (UpdateTable db ti, o) ∉ before).
  { intros ti o Hin. by destruct (Hquiet _ Hin). }
  destruct Hshape as [[-> Hr]|[(ti & e & -> & ->)|Hserved]].
  - rewrite app_nil_r. split; [|split].
    + intros d name o [[=]|Hin]%elem_of_cons. by apply Hdel in Hin.
    + intros [ti [[=]|Hin]%elem_of_cons]. by apply Hupd in Hin.
    + split; [done|]. intros [[=]|Hin]%elem_of_cons. by apply Hdel in Hin.
  - split; [|split].
    + intros d name o [[=]|[Hin|Hin]%elem_of_app]%elem_of_cons.
      * by apply Hdel in Hin.
      * by apply elem_of_cons in Hin as [[=]|[]%elem_of_nil].
    + intros [ti' [[=]|[Hin|Hin]%elem_of_app]%elem_of_cons].
      * by apply Hupd in Hin.
      * by apply elem_of_cons in Hin as [[=]|[]%elem_of_nil].
    + split; [done|].
      intros [[=]|[Hin|Hin]%elem_of_app]%elem_of_cons.
      * by apply Hdel in Hin.
      * by apply elem_of_cons in Hin as [[=]|[]%elem_of_nil].
  - destruct Hserved as (ti & o & next & stored & -> & -> & _).
    assert (Hflip : (UpdateTable db ti, None)
                    ∈ (GetTable db tgt, None)
                      :: before
                         ++ [(UpdateTable db ti, None);
                             (DeleteTable db (version_tmp_name tgt now), o)]).
    { apply elem_of_cons. right. apply elem_of_app. right. in_literals. }
    assert (Hdrop : (DeleteTable db (version_tmp_name tgt now), o)
                    ∈ (GetTable db tgt, None)
                      :: before
                         ++ [(UpdateTable db ti, None);
                             (DeleteTable db (version_tmp_name tgt now), o)]).
    { apply elem_of_cons. right. apply elem_of_app. right. in_literals. }
    split; [|split].
    + intros d name o' [[=]|[Hin|Hin]%elem_of_app]%elem_of_cons.
      * by apply Hdel in Hin.
      * apply elem_of_cons in Hin as [[=]|Hin].
        apply elem_of_cons in Hin as [[= -> -> ->]|[]%elem_of_nil].
        repeat split; try done. by exists ti.
    + intros _. by exists o.
    + split.
      * destruct o; [done|]. by intros _.
      * intros [[=]|[Hin|Hin]%elem_of_app]%elem_of_cons.
        -- by apply Hdel in Hin.
        -- apply elem_of_cons in Hin as [[=]|Hin].
           by apply elem_of_cons in Hin as [[= <-]|[]%elem_of_nil].
Qed.

Lemma cleanup_follows_flip_witness :
  (∀ d name o,
     (DeleteTable d name, o)
     ∈ drop (length (calls (start live_catalog
                (replicate 7 None ++ [Some (ClientError "InternalServiceException")]))))
          (calls example_cleanup_failure.2) →
     d = "db" ∧ name = version_tmp_name "sales" example_now ∧
     (∃ table_input,
        (UpdateTable "db" table_input, None)
        ∈ drop (length (calls (start live_catalog
                   (replicate 7 None ++ [Some (ClientError "InternalServiceException")]))))
             (calls example_cleanup_failure.2)) ∧
     example_cleanup_failure.1 = match o with None => Ok tt | Some e => Raise e end) ∧
  ((∃ table_input,
      (UpdateTable "db" table_input, None)
      ∈ drop (length (calls (start live_catalog
                 (replicate 7 None ++ [Some (ClientError "InternalServiceException")]))))
           (calls example_cleanup_failure.2)) →
   ∃ o, (DeleteTable "db" (version_tmp_name "sales" example_now), o)
        ∈ drop (length (calls (start live_catalog
                   (replicate 7 None ++ [Some (ClientError "InternalServiceException")]))))
             (calls example_cleanup_failure.2)) ∧
  (example_cleanup_failure.1 = Ok tt ↔
   (DeleteTable "db" (version_tmp_name "sales" example_now), None)
   ∈ drop (length (calls (start live_catalog
              (replicate 7 None ++ [Some (ClientError "InternalServiceException")]))))
        (calls example_cleanup_failure.2)).
Proof.
  apply (cleanup_follows_flip example_now example_context example_frame
           "s3://bucket/db/sales" ["day"] "db" "sales"
           (start live_catalog
              (replicate 7 None ++ [Some (ClientError "InternalServiceException")]))
           (GetTableResponse
              (table_record "db" "sales"
                 {[ "StorageDescriptor" :=
                      VDict {[ "Location" := VStr "s3://bucket/db/sales/version_3/";
                               "Columns" := VList [] ]};
                    "CreateTime" := VInt 1 ]}))).
  - reflexivity.
  - apply surjective_pairing.
Defined.

(** The example overwrite whose cleanup fails: the flip has been served and
    the target is at generation 4, and the run raises.  And the overwrite
    whose write fails requests no deletion of the staging table.  The claim
    C9 as stated fails on both. *)
Lemma cleanup_failure_fails_the_run :
  (UpdateTable "db" example_table_input, None) ∈ calls example_cleanup_failure.2 ∧
  example_cleanup_failure.1 = Raise (ClientError "InternalServiceException") ∧
  example_failed_write.1 = Raise (SinkError "empty frame") ∧
  fst <$> calls example_failed_write.2
  = [GetTable "db" "sales";
     WriteFrame "s3://bucket/db/sales/version_4/" ["day"] "db"
       "sales_version_tmp_202103090705"].
Proof.
  split; [|split; [|split]].
  - apply (list_elem_of_lookup_2 _ 7). vm_compute. reflexivity.
  - vm_compute. reflexivity.
  - vm_compute. reflexivity.
  - vm_compute. reflexivity.
Qed.

(** The example target is in the catalog, its lookup is throttled, and
    [get_catalog_table] answers [None]: the run takes the first-write
    branch and writes at [version_0] under the target's name.  The claim C7
    as stated fails there. *)
Lemma throttled_lookup_taken_for_absence :
  is_Some (tables live_catalog !! ("db", "sales")) ∧
  (get_catalog_table "db" "sales"
     (start live_catalog [Some (ClientError "ThrottlingException")])).1 = Ok None ∧
  calls example_throttled.2
  = [(GetTable "db" "sales", Some (ClientError "ThrottlingException"));
     (WriteFrame "s3://bucket/db/sales/version_0" ["day"] "db" "sales", None)].
Proof.
  split; [|split].
  - eexists. reflexivity.
  - vm_compute. reflexivity.
  - vm_compute. reflexivity.
Qed.

(** ** The reconciliation of partitions *)

Lemma Forall_elem_of_entry (P : call * option exn → Prop) l e :
  Forall P l → e ∈ l → P e.
Proof. rewrite Forall_forall. auto. Qed.

(** C3. When the reconciliation returns, the values registered under the
    target are exactly the values that were registered under the staging
    table when it began, whatever their number; the staging table's
    partitions and every table are as they were; each deletion names at
    most 25 partitions of the target, and each record created under the
    target is without the database name, table name and creation time it
    was listed with. *)
Theorem reconcile_partition_sets (db src tgt : string) (w w' : world) :
  src ≠ tgt →
  reconcile db src tgt w = (Ok tt, w') →
  dom (table_parts (cat w') (db, tgt)) = dom (table_parts (cat w) (db, src)) ∧
  partitions (cat w') !! (db, src) = partitions (cat w) !! (db, src) ∧
  tables (cat w') = tables (cat w) ∧
  (∀ d t to_delete o,
     (BatchDeletePartition d t to_delete, o) ∈ drop (length (calls w)) (calls w') →
     d = db ∧ t = tgt ∧ length to_delete ≤ 25) ∧
  (∀ d t inputs o,
     (BatchCreatePartition d t inputs, o) ∈ drop (length (calls w)) (calls w') →
     d = db ∧ t = tgt ∧ Forall rehomed inputs).
Proof.
  intros Hne. unfold reconcile, bind.
  pose proof (delete_partitions_spec db tgt 25 w ltac:(lia)) as Hd.
  unfold spec in Hd.
  destruct (delete_partitions db tgt 25 w) as [[[]|e] wd]; simpl in Hd; [|done].
  pose proof (copy_partitions_spec db src db tgt wd) as Hc.
  unfold spec in Hc.
  destruct (copy_partitions db src db tgt wd) as [r w4]; simpl in Hc.
  intros [= -> ->].
  destruct Hd as [(Ht & _ & _ & _ & Hf & ld & Hld & HPd) Hempty].
  destruct Hc as [(Ht' & _ & _ & _ & Hf' & lc & Hlc & HPc) Hdom].
  specialize (Hempty eq_refl). specialize (Hdom eq_refl).
  assert (Hsrc : (db, src) ≠ (db, tgt)) by congruence.
  split; [|split; [|split; [|split]]].
  - rewrite Hdom, Hempty, dom_empty_L, union_empty_l_L.
    unfold table_parts. by rewrite Hf.
  - by rewrite Hf', Hf.
  - congruence.
  - intros d t to_delete o. rewrite Hlc, Hld, <- app_assoc, drop_app_length.
    intros [Hin|Hin]%elem_of_app.
    + by apply (Forall_elem_of_entry _ _ _ HPd) in Hin.
    + by apply (Forall_elem_of_entry _ _ _ HPc) in Hin.
  - intros d t inputs o. rewrite Hlc, Hld, <- app_assoc, drop_app_length.
    intros [Hin|Hin]%elem_of_app.
    + by apply (Forall_elem_of_entry _ _ _ HPd) in Hin.
    + by apply (Forall_elem_of_entry _ _ _ HPc) in Hin.
Qed.

Lemma reconcile_partition_sets_witness :
  dom (table_parts
         (cat (reconcile "db" "sales_tmp" "sales" (start staged_catalog [])).2)
         ("db", "sales"))
  = dom (table_parts (cat (start staged_catalog [])) ("db", "sales_tmp")) ∧
  partitions (cat (reconcile "db" "sales_tmp" "sales" (start staged_catalog [])).2)
    !! ("db", "sales_tmp")
  = partitions (cat (start staged_catalog [])) !! ("db", "sales_tmp") ∧
  tables (cat (reconcile "db" "sales_tmp" "sales" (start staged_catalog [])).2)
  = tables (cat (start staged_catalog [])) ∧
  (∀ d t to_delete o,
     (BatchDeletePartition d t to_delete, o)
     ∈ drop (length (calls (start staged_catalog [])))
          (calls (reconcile "db" "sales_tmp" "sales" (start staged_catalog [])).2) →
     d = "db" ∧ t = "sales" ∧ length to_delete ≤ 25) ∧
  (∀ d t inputs o,
     (BatchCreatePartition d t inputs, o)
     ∈ drop (length (calls (start staged_catalog [])))
          (calls (reconcile "db" "sales_tmp" "sales" (start staged_catalog [])).2) →
     d = "db" ∧ t = "sales" ∧ Forall rehomed inputs).
Proof.
  apply (reconcile_partition_sets "db" "sales_tmp" "sales"
           (start staged_catalog [])).
  - discriminate.
  - rewrite (surjective_pairing (reconcile _ _ _ _)). f_equal.
Defined.

(** Three partitions under the staging table against two under the target:
    one deletion, one creation, and the staging table's three values. *)
Example reconcile_three :
  (reconcile "db" "sales_tmp" "sales" (start staged_catalog [])).1 = Ok tt ∧
  batch_sizes (calls (reconcile "db" "sales_tmp" "sales" (start staged_catalog [])).2)
  = [(false, 2); (true, 3)] ∧
  elements (dom (table_parts
                   (cat (reconcile "db" "sales_tmp" "sales"
                           (start staged_catalog [])).2) ("db", "sales")))
  ≡ₚ [["mon"]; ["tue"]; ["wed"]].
Proof.
  split; [|split]; [vm_compute; reflexivity..|].
  vm_compute. apply Permutation_refl || (repeat constructor).
Qed.

(** 140 partitions on both sides: six deletions of at most 25 over the
    three pages of the target, two creations of at most 100, and 140
    partitions under the target at the end. *)
Example reconcile_one_hundred_forty :
  (reconcile "db" "sales_tmp" "sales" (start large_catalog [])).1 = Ok tt ∧
  batch_sizes (calls (reconcile "db" "sales_tmp" "sales" (start large_catalog [])).2)
  = [(false, 25); (false, 25); (false, 25); (false, 25); (false, 25); (false, 15);
     (true, 100); (true, 40)] ∧
  size (table_parts
          (cat (reconcile "db" "sales_tmp" "sales" (start large_catalog [])).2)
          ("db", "sales")) = 140.
Proof. vm_compute. repeat split; reflexivity. Qed.

(** ** The location of the first write *)

Lemma split_app_sep sep (a b : string) :
  Py.split sep (a +:+ String sep b) = Py.split sep a ++ Py.split sep b.
Proof.
  induction a as [|c a IH].
  - simpl. by rewrite Ascii.eqb_refl.
  - rewrite string_app_cons. cbn [Py.split]. rewrite IH.
    destruct (Ascii.eqb c sep); [done|].
    pose proof (split_not_nil sep a).
    by destruct (Py.split sep a).
Qed.

(** The path of the first write, [<output_path>/version_0], has its
    generation for last segment: the segment before the last is the last
    one of [output_path]. *)
Lemma split_first_write_path (output_path : string) :
  Py.split "/" (output_path +:+ "/version_0")
  = Py.split "/" output_path ++ ["version_0"].
Proof.
  change "/version_0" with (String "/" "version_0").
  by rewrite split_app_sep.
Qed.


(** ** The reconciliation returns when every request is served *)

Lemma listing_values c db tbl (r : dict) :
  r ∈ listing c db tbl → is_Some (values_of r) ∧ is_Some (r !! "Values").
Proof.
  unfold listing. intros ([vs a] & -> & _)%list_elem_of_fmap. split.
  - rewrite values_of_partition_record. by eexists.
  - unfold partition_record. rewrite lookup_insert_eq. by eexists.
Qed.

Lemma to_delete_returns (batch : nat) (sl : list dict) :
  Forall (λ r : dict, is_Some (r !! "Values")) sl →
  ∃ to_delete : list dict,
    map_result
      (λ kv : string * dict, rbind (getitem kv.2 kv.1) (λ x, Ok {[ kv.1 := x ]}))
      (zip (replicate batch "Values") sl) = Ok to_delete.
Proof.
  revert batch. induction sl as [|r sl IH]; intros batch Hall.
  - destruct batch; by eexists.
  - destruct batch as [|b]; [by eexists|].
    inversion Hall as [|? ? [x Hx] Hrest]; subst.
    destruct (IH b Hrest) as [ys Hys].
    exists ({[ "Values" := x ]} :: ys). simpl.
    unfold getitem at 1. rewrite Hx. simpl. by rewrite Hys.
Qed.

Lemma delete_partitions_returns database table batch w :
  0 < batch → batch ≤ 25 →
  faults w = [] →
  is_Some (tables (cat w) !! (database, table)) →
  spec (delete_partitions database table batch) w (λ r w',
    r = Ok tt ∧ faults w' = []).
Proof.
  intros Hpos Hmax Hfaults Htable.
  pose (J := λ (_ : list dict) (w' : world),
    faults w' = [] ∧ tables (cat w') = tables (cat w)).
  pose (E := λ (_ : exn) (_ : world), False).
  unfold delete_partitions.
  eapply spec_mono; [|apply (spec_for_page_in _ _ _ _ w J E)].
  - intros [[]|e] w'; [|done]. by intros [Hf _].
  - intros e w1 _ _ [(rest & Hf & _)|(Hnone & _)].
    + by rewrite Hfaults in Hf.
    + rewrite Hnone in Htable. by destruct Htable.
  - intros w1 Hc _ Hf _. split; [by rewrite Hf, Hfaults|by rewrite Hc].
  - intros done p w2 HJ _ Hsub.
    pose (I := λ (_ : list nat) (w' : world), J done w').
    apply spec_bind, spec_lift. rewrite (range0_pos _ _ Hpos).
    eapply spec_mono;
      [|apply (spec_for_each I E _ (Py.multiples (length p) batch) [] w2)].
    + by intros [[]|e] w3.
    + intros d i rest w3 _ [Hf Ht]. apply spec_bind, spec_lift.
      assert (Hvalues : Forall (λ r : dict, is_Some (values_of r) ∧
                                            is_Some (r !! "Values"))
                          (Py.slice i (i + batch) p)).
      { apply Forall_forall. intros r Hr. apply (listing_values (cat w) database table).
        apply Hsub. by apply (slice_subseteq i (i + batch) p). }
      destruct (to_delete_returns batch (Py.slice i (i + batch) p))
        as [to_delete Hmr].
      { eapply Forall_impl; [done|]. by intros r [_ Hr]. }
      rewrite Hmr.
      apply to_delete_spec in Hmr as [Hlen Hkeys].
      specialize (Hkeys (slice_length _ _ _)).
      unfold batch_delete_partition. apply spec_client_call.
      { intros e rest' Hf'. by rewrite Hf in Hf'. }
      intros _.
      destruct (25 <? length to_delete) eqn:Hlimit.
      { apply Nat.ltb_lt in Hlimit. lia. }
      rewrite Ht. destruct Htable as [t ->].
      destruct (mapM_is_Some_2 values_of (Py.slice i (i + batch) p))
        as [keys Hk].
      { eapply Forall_impl; [done|]. by intros r [Hr _]. }
      rewrite Hkeys, Hk. simpl. split; [by rewrite Hf|done].
    + done.
  - intros done w2 [Hf Ht]. unfold get_partitions_next.
    apply spec_client_call.
    + intros e rest Hf'. by rewrite Hf in Hf'.
    + intros _. simpl. split; [by rewrite Hf|done].
Qed.

Lemma copy_partitions_returns source_database source_table
    target_database target_table w :
  faults w = [] →
  is_Some (tables (cat w) !! (source_database, source_table)) →
  is_Some (tables (cat w) !! (target_database, target_table)) →
  spec (copy_partitions source_database source_table
          target_database target_table) w (λ r w',
    r = Ok tt ∧ faults w' = []).
Proof.
  intros Hfaults Hsource Htarget.
  pose (J := λ (_ : list dict) (w' : world),
    faults w' = [] ∧ tables (cat w') = tables (cat w)).
  pose (E := λ (_ : exn) (_ : world), False).
  unfold copy_partitions.
  eapply spec_mono; [|apply (spec_for_page_in _ _ _ _ w J E)].
  - intros [[]|e] w'; [|done]. by intros [Hf _].
  - intros e w1 _ _ [(rest & Hf & _)|(Hnone & _)].
    + by rewrite Hfaults in Hf.
    + rewrite Hnone in Hsource. by destruct Hsource.
  - intros w1 Hc _ Hf _. split; [by rewrite Hf, Hfaults|by rewrite Hc].
  - intros done p w2 [Hf Ht] Hlen Hsub.
    unfold batch_create_partition. apply spec_client_call.
    { intros e rest Hf'. by rewrite Hf in Hf'. }
    intros _.
    destruct (100 <? length (clean_partition <$> p)) eqn:Hlimit.
    { apply Nat.ltb_lt in Hlimit. rewrite length_fmap in Hlimit.
      simpl in Hlen. lia. }
    rewrite Ht. destruct Htarget as [t ->].
    destruct (mapM_is_Some_2 values_of (clean_partition <$> p)) as [keys Hk].
    { apply Forall_fmap, Forall_forall. intros r Hr. simpl.
      rewrite values_of_clean_partition.
      by apply (listing_values (cat w) source_database source_table), Hsub. }
    rewrite Hk. simpl. split; [by rewrite Hf|done].
  - intros done w2 [Hf Ht]. unfold get_partitions_next.
    apply spec_client_call.
    + intros e rest Hf'. by rewrite Hf in Hf'.
    + intros _. simpl. split; [by rewrite Hf|done].
Qed.

(** With the staging table and the target in the catalog and every request
    served, the reconciliation returns, whatever the number of partitions
    on either side. *)
Lemma reconcile_returns db src tgt w :
  faults w = [] →
  is_Some (tables (cat w) !! (db, src)) →
  is_Some (tables (cat w) !! (db, tgt)) →
  (reconcile db src tgt w).1 = Ok tt.
Proof.
  intros Hfaults Hsrc Htgt. unfold reconcile, bind.
  pose proof (delete_partitions_returns db tgt 25 w
                ltac:(lia) ltac:(lia) Hfaults Htgt) as Hret.
  pose proof (delete_partitions_spec db tgt 25 w ltac:(lia)) as [Hframe _].
  unfold spec in Hret. destruct Hframe as (Ht & _).
  destruct (delete_partitions db tgt 25 w) as [r wd].
  simpl in Hret, Ht. destruct Hret as [-> Hf].
  pose proof (copy_partitions_returns db src db tgt wd Hf) as Hcopy.
  rewrite Ht in Hcopy. specialize (Hcopy Hsrc Htgt).
  unfold spec in Hcopy.
  destruct (copy_partitions db src db tgt wd) as [r' w']. by destruct Hcopy.
Qed.

(** ** The partition keys of the job *)








(** ** More on the next location *)

Lemma index_m2_inv {A} (l : list A) (x : A) :
  Py.index_m2 l = Ok x → ∃ pre last, l = pre ++ [x; last].
Proof.
  unfold Py.index_m2.
  destruct (l !! (length l - 2)) as [y|] eqn:Hy; [|done].
  destruct (2 <=? length l) eqn:Hlen; [|done]. intros [= ->].
  apply Nat.leb_le in Hlen.
  pose proof (take_drop_middle l _ x Hy) as Hmid.
  assert (Hone : length (drop (S (length l - 2)) l) = 1)
    by (rewrite length_drop; lia).
  destruct (drop (S (length l - 2)) l) as [|last [|z rest]]; try done.
  exists (take (length l - 2) l), last. by rewrite Hmid.
Qed.

(** What a computed next location was computed from. *)
Lemma calculate_next_location_inv existing next :
  calculate_next_location existing = Ok next →
  ∃ sd location pre seg last n,
    Table existing !! "StorageDescriptor" = Some (VDict sd) ∧
    sd !! "Location" = Some (VStr location) ∧
    Py.split "/" location = pre ++ [seg; last] ∧
    Py.int (Py.replace "version_" "" seg) = Ok n ∧
    next = Py.join "/" (pre ++ [version_segment (n + 1); ""]).
Proof.
  unfold calculate_next_location, getitem.
  destruct (Table existing !! "StorageDescriptor") as [[| | | |sd]|] eqn:Hsd;
    simpl; try done.
  unfold getitem.
  destruct (sd !! "Location") as [[location| | | |]|] eqn:Hloc; simpl; try done.
  destruct (Py.index_m2 (Py.split "/" location)) as [seg|] eqn:Hidx;
    simpl; [|done].
  destruct (Py.int (Py.replace "version_" "" seg)) as [n|] eqn:Hint;
    simpl; [|done].
  intros [= <-].
  apply index_m2_inv in Hidx as (pre & last & Hsplit).
  exists sd, location, pre, seg, last, n.
  by rewrite Hsplit, drop_last_app.
Qed.

Lemma split_next_location location pre seg last m :
  Py.split "/" location = pre ++ [seg; last] →
  Py.split "/" (Py.join "/" (pre ++ [version_segment m; ""]))
  = pre ++ [version_segment m; ""].
Proof.
  intros Hsplit. apply split_join; [by destruct pre|].
  pose proof (split_segments "/" location) as Hall.
  rewrite Hsplit in Hall. apply Forall_app in Hall as [Hpre _].
  apply Forall_app. split; [done|].
  repeat constructor. apply version_segment_no_slash.
Qed.

Lemma int_version_segment m :
  Py.int (Py.replace "version_" "" (version_segment m)) = Ok m.
Proof. rewrite replace_version_segment. apply int_str. Qed.

(** X2. Whatever the computation accepted, [version_<n>] or a looser spelling
    of the generation, the location it returns is never the current one,
    its generation is spelled [version_<n+1>] before an empty last segment,
    and the computation accepts it in turn. *)
Theorem next_location_is_fresh_and_canonical (existing : get_table_response)
    (next : string) :
  calculate_next_location existing = Ok next →
  ∃ sd location pre m,
    Table existing !! "StorageDescriptor" = Some (VDict sd) ∧
    sd !! "Location" = Some (VStr location) ∧
    next ≠ location ∧
    Py.drop_last 2 (Py.split "/" location) = pre ∧
    Py.split "/" next = pre ++ [version_segment m; ""] ∧
    calculate_next_location (table_at next)
    = Ok (Py.join "/" (pre ++ [version_segment (m + 1); ""])).
Proof.
  intros Hnext.
  apply calculate_next_location_inv in Hnext
    as (sd & location & pre & seg & last & n & Hsd & Hloc & Hsplit & Hint & ->).
  pose proof (split_next_location _ _ _ _ (n + 1) Hsplit) as Hsplit'.
  exists sd, location, pre, (n + 1)%Z.
  split; [done|]. split; [done|]. split; [|split; [|split]].
  - intros Heq. rewrite Heq, Hsplit in Hsplit'.
    apply app_inv_head in Hsplit'. injection Hsplit' as -> _.
    rewrite int_version_segment in Hint. injection Hint. lia.
  - by rewrite Hsplit, drop_last_app.
  - done.
  - eapply calculate_next_location_segments; [reflexivity..|done|].
    apply int_version_segment.
Qed.

Lemma next_location_is_fresh_and_canonical_witness :
  ∃ sd location pre m,
    Table (table_at "s3://bucket/db/sales/version_007/part-0.parquet")
      !! "StorageDescriptor" = Some (VDict sd) ∧
    sd !! "Location" = Some (VStr location) ∧
    "s3://bucket/db/sales/version_8/" ≠ location ∧
    Py.drop_last 2 (Py.split "/" location) = pre ∧
    Py.split "/" "s3://bucket/db/sales/version_8/" = pre ++ [version_segment m; ""] ∧
    calculate_next_location (table_at "s3://bucket/db/sales/version_8/")
    = Ok (Py.join "/" (pre ++ [version_segment (m + 1); ""])).
Proof.
  apply (next_location_is_fresh_and_canonical
           (table_at "s3://bucket/db/sales/version_007/part-0.parquet")
           "s3://bucket/db/sales/version_8/").
  vm_compute. reflexivity.
Defined.

(** X3. After [k + 1] overwrites of a target at [version_<n>], each one
    starting from the location the one before installed, the location is
    the same path at [version_<n+k+1>]. *)
Theorem advance_generations (k : nat) (location : string) (pre : list string)
    (n : Z) (last : string) :
  Py.split "/" location = pre ++ [version_segment n; last] →
  advance (S k) location
  = Ok (Py.join "/" (pre ++ [version_segment (n + Z.of_nat (S k)); ""])).
Proof.
  revert location n last. induction k as [|k IH]; intros location n last Hsplit.
  - cbn [advance].
    erewrite calculate_next_location_segments;
      [|reflexivity|reflexivity|done|apply int_version_segment].
    simpl. do 3 f_equal.
  - change (advance (S (S k)) location)
      with (rbind (calculate_next_location (table_at location)) (advance (S k))).
    erewrite calculate_next_location_segments;
      [|reflexivity|reflexivity|done|apply int_version_segment].
    cbn [rbind].
    rewrite (IH _ (n + 1)%Z "").
    + do 5 f_equal. lia.
    + by eapply split_next_location.
Qed.

Lemma advance_generations_witness :
  advance (S 11) "s3://bucket/db/sales/version_0/"
  = Ok (Py.join "/" (["s3:"; ""; "bucket"; "db"; "sales"]
                       ++ [version_segment (0 + Z.of_nat (S 11)); ""])).
Proof.
  apply (advance_generations 11 "s3://bucket/db/sales/version_0/"
           ["s3:"; ""; "bucket"; "db"; "sales"] 0 "").
  reflexivity.
Defined.

(** ** The output path *)

Lemma substring_prefix (a b : string) :
  String.substring 0 (String.length a) (a +:+ b) = a.
Proof.
  induction a as [|c a IH].
  - by destruct b.
  - rewrite string_app_cons. simpl. by rewrite IH.
Qed.

Lemma str_drop_last_app a c :
  Py.str_drop_last (a +:+ String c EmptyString) = a.
Proof.
  unfold Py.str_drop_last. rewrite string_length_app. simpl.
  replace (String.length a + 1 - 1) with (String.length a) by lia.
  apply substring_prefix.
Qed.

Lemma get_database_served Name w d :
  injected w = None →
  databases (cat w) !! Name = Some d →
  get_database Name w
  = (Ok (GetDatabaseResponse (<["Name" := VStr Name]> d)),
     after_call w (GetDatabase Name) None).
Proof.
  unfold get_database, client_call, injected, after_call.
  intros Hinj Hd. rewrite Hd.
  by destruct (faults w) as [|[e|] rest].
Qed.

Lemma get_output_path_served output_database output_table w d uri :
  injected w = None →
  databases (cat w) !! output_database = Some d →
  Py.endswith "/" uri = false →
  d !! "LocationUri" = Some (VStr uri) ∨
    d !! "LocationUri" = Some (VStr (uri +:+ "/")) →
  get_output_path output_database output_table w
  = (Ok (uri +:+ "/" +:+ output_table),
     after_call w (GetDatabase output_database) None).
Proof.
  intros Hinj Hd Hend Huri.
  unfold get_output_path, bind.
  rewrite (get_database_served _ _ _ Hinj Hd). unfold lift, getitem.
  cbn [Database]. rewrite lookup_insert_ne by done.
  destruct Huri as [-> | ->]; unfold ret.
  - by rewrite Hend.
  - rewrite endswith_app. by rewrite str_drop_last_app.
Qed.

(** X4. A location URI with and without its trailing separator gives the same
    output path, the URI, a separator and the table's name; the request
    leaves the catalog as it was, and when the name has no separator it is
    the last segment of the path, after the segments of the URI. *)
Theorem get_output_path_joins (output_database output_table : string)
    (w : world) (d : dict) (uri : string) :
  injected w = None →
  databases (cat w) !! output_database = Some d →
  Py.endswith "/" uri = false →
  d !! "LocationUri" = Some (VStr uri) ∨
    d !! "LocationUri" = Some (VStr (uri +:+ "/")) →
  get_output_path output_database output_table w
  = (Ok (uri +:+ "/" +:+ output_table),
     after_call w (GetDatabase output_database) None) ∧
  (all_chars (λ c, negb (Ascii.eqb c "/")) output_table = true →
   Py.split "/" (uri +:+ "/" +:+ output_table)
   = Py.split "/" uri ++ [output_table]).
Proof.
  intros Hinj Hd Hend Huri. split.
  - by apply (get_output_path_served _ _ _ d).
  - intros Hname.
    change (uri +:+ "/" +:+ output_table)
      with (uri +:+ String "/" output_table).
    rewrite split_app_sep. by rewrite (split_single "/" output_table).
Qed.

Lemma get_output_path_joins_witness :
  get_output_path "db" "sales" (start fresh_catalog [])
  = (Ok ("s3://bucket/db" +:+ "/" +:+ "sales"),
     after_call (start fresh_catalog []) (GetDatabase "db") None) ∧
  (all_chars (λ c, negb (Ascii.eqb c "/")) "sales" = true →
   Py.split "/" ("s3://bucket/db" +:+ "/" +:+ "sales")
   = Py.split "/" "s3://bucket/db" ++ ["sales"]).
Proof.
  apply (get_output_path_joins "db" "sales" (start fresh_catalog [])
           {[ "LocationUri" := VStr "s3://bucket/db/" ]} "s3://bucket/db").
  - reflexivity.
  - reflexivity.
  - reflexivity.
  - right. reflexivity.
Defined.

(** X5. [get_output_path] raises, and leaves the catalog as it was, when the
    request fails, when the database is not in the catalog
    ([EntityNotFoundException]), when it has no location URI ([KeyError])
    and when the URI is not a string ([AttributeError]); only one trailing
    separator of the URI is dropped. *)
Theorem get_output_path_errors (output_database output_table : string) (w : world) :
  cat (get_output_path output_database output_table w).2 = cat w ∧
  (∀ e rest, faults w = Some e :: rest →
     (get_output_path output_database output_table w).1 = Raise e) ∧
  (injected w = None → databases (cat w) !! output_database = None →
     (get_output_path output_database output_table w).1 = Raise EntityNotFound) ∧
  (∀ d, injected w = None → databases (cat w) !! output_database = Some d →
     d !! "LocationUri" = None →
     (get_output_path output_database output_table w).1
     = Raise (KeyError "LocationUri")) ∧
  (∀ d v, injected w = None → databases (cat w) !! output_database = Some d →
     d !! "LocationUri" = Some v → as_str v = None →
     (get_output_path output_database output_table w).1 = Raise AttributeError) ∧
  (∀ d uri, injected w = None → databases (cat w) !! output_database = Some d →
     d !! "LocationUri" = Some (VStr (uri +:+ "//")) →
     (get_output_path output_database output_table w).1
     = Ok (uri +:+ "//" +:+ output_table)).
Proof.
  unfold get_output_path, bind, get_database, client_call, injected.
  split; [|split; [|split; [|split; [|split]]]].
  - destruct (faults w) as [|[e|] rest]; simpl; try done;
      destruct (databases (cat w) !! output_database) as [d|]; simpl; try done;
      unfold lift, getitem; rewrite lookup_insert_ne by done;
      destruct (d !! "LocationUri") as [[]|]; done.
  - by intros e rest ->.
  - intros Hinj ->. by destruct (faults w) as [|[e|] rest].
  - intros d Hinj -> Hnone.
    destruct (faults w) as [|[e|] rest]; try done;
      simpl; unfold lift, getitem; rewrite lookup_insert_ne by done;
      by rewrite Hnone.
  - intros d v Hinj -> Hv Hstr.
    destruct (faults w) as [|[e|] rest]; try done;
      simpl; unfold lift, getitem; rewrite lookup_insert_ne by done;
      rewrite Hv; by destruct v.
  - intros d uri Hinj -> Hv.
    assert (Hdrop : Py.str_drop_last (uri +:+ "//") = uri +:+ "/").
    { change (uri +:+ "//") with (uri +:+ "/" +:+ "/").
      rewrite <- string_app_assoc. apply str_drop_last_app. }
    assert (Hend : Py.endswith "/" (uri +:+ "//") = true).
    { change (uri +:+ "//") with (uri +:+ "/" +:+ "/").
      rewrite <- string_app_assoc. apply endswith_app. }
    destruct (faults w) as [|[e|] rest]; try done;
      simpl; unfold lift, getitem; rewrite lookup_insert_ne by done;
      rewrite Hv; unfold ret; rewrite Hend, Hdrop; simpl;
      by rewrite string_app_assoc.
Qed.

(** ** Listings without partitions *)

Lemma range0_nil step : 0 < step → Py.range0 0 step = Ok [].
Proof.
  destruct step as [|n]; [lia|]. intros _. unfold Py.range0, Py.multiples.
  replace (0 + (S n - 1)) with n by lia.
  by rewrite Nat.div_small by lia.
Qed.

Lemma listing_empty c db tbl :
  table_parts c (db, tbl) = ∅ → listing c db tbl = [].
Proof. unfold listing. intros ->. by rewrite map_to_list_empty. Qed.

(** X6. On a table without partitions [delete_partitions], with a positive
    batch size, makes the listing request and no other: no deletion is sent
    and the catalog is as it was; with a batch size of zero it raises
    [ValueError] after that request.  [copy_partitions] from such a table
    makes the listing request and then one creation request with an empty
    list, which leaves the target's partitions as they were. *)
Theorem empty_listing_requests (database table target_database target_table : string)
    (batch : nat) (w : world) :
  0 < batch →
  faults w = [] →
  is_Some (tables (cat w) !! (database, table)) →
  is_Some (tables (cat w) !! (target_database, target_table)) →
  table_parts (cat w) (database, table) = ∅ →
  delete_partitions database table batch w
  = (Ok tt, after_call w (GetPartitions database table None) None) ∧
  delete_partitions database table 0 w
  = (Raise ValueError, after_call w (GetPartitions database table None) None) ∧
  (copy_partitions database table target_database target_table w).1 = Ok tt ∧
  calls (copy_partitions database table target_database target_table w).2
  = calls w ++ [(GetPartitions database table (Some 100), None);
                (BatchCreatePartition target_database target_table [], None)] ∧
  (∀ k, table_parts
          (cat (copy_partitions database table target_database target_table w).2) k
        = table_parts (cat w) k).
Proof.
  intros Hbatch Hfaults [t Ht] [t' Ht'] Hempty.
  pose proof (listing_empty _ _ _ Hempty) as Hlisting.
  split; [|split; [|split; [|split]]].
  - unfold delete_partitions, for_page_in, bind, get_partitions_first,
      client_call, after_call.
    rewrite Hfaults, Ht, Hlisting. simpl. by rewrite range0_nil.
  - unfold delete_partitions, for_page_in, bind, get_partitions_first,
      client_call, after_call.
    by rewrite Hfaults, Ht, Hlisting.
  - unfold copy_partitions, for_page_in, bind, get_partitions_first,
      batch_create_partition, client_call.
    rewrite Hfaults, Ht, Hlisting. simpl. by rewrite Ht'.
  - unfold copy_partitions, for_page_in, bind, get_partitions_first,
      batch_create_partition, client_call.
    rewrite Hfaults, Ht, Hlisting. simpl. rewrite Ht'. simpl.
    by rewrite <- app_assoc.
  - intros k.
    unfold copy_partitions, for_page_in, bind, get_partitions_first,
      batch_create_partition, client_call.
    rewrite Hfaults, Ht, Hlisting. simpl. rewrite Ht'. simpl.
    destruct (decide (k = (target_database, target_table))) as [->|Hk].
    + by rewrite table_parts_set.
    + unfold table_parts. simpl. by rewrite lookup_insert_ne.
Qed.

Lemma empty_listing_requests_witness :
  delete_partitions "db" "sales_tmp" 25 (start bare_catalog [])
  = (Ok tt, after_call (start bare_catalog []) (GetPartitions "db" "sales_tmp" None) None) ∧
  delete_partitions "db" "sales_tmp" 0 (start bare_catalog [])
  = (Raise ValueError,
     after_call (start bare_catalog []) (GetPartitions "db" "sales_tmp" None) None) ∧
  (copy_partitions "db" "sales_tmp" "db" "sales" (start bare_catalog [])).1 = Ok tt ∧
  calls (copy_partitions "db" "sales_tmp" "db" "sales" (start bare_catalog [])).2
  = calls (start bare_catalog [])
    ++ [(GetPartitions "db" "sales_tmp" (Some 100), None);
        (BatchCreatePartition "db" "sales" [], None)] ∧
  (∀ k, table_parts
          (cat (copy_partitions "db" "sales_tmp" "db" "sales" (start bare_catalog [])).2) k
        = table_parts (cat (start bare_catalog [])) k).
Proof.
  apply (empty_listing_requests "db" "sales_tmp" "db" "sales" 25
           (start bare_catalog [])).
  - lia.
  - reflexivity.
  - eexists. reflexivity.
  - eexists. reflexivity.
  - reflexivity.
Defined.

(** ** What the two loops never do *)

Lemma foldr_delete_subseteq (m : gmap (list string) dict) ks :
  foldr delete m ks ⊆ m.
Proof.
  induction ks as [|k ks IH]; [done|]. simpl.
  etrans; [apply delete_subseteq|done].
Qed.

Lemma delete_partitions_shrinks_spec database table batch w :
  spec (delete_partitions database table batch) w (λ _ w',
    table_parts (cat w') (database, table) ⊆ table_parts (cat w) (database, table)).
Proof.
  pose (J := λ (_ : list dict) (w' : world),
    table_parts (cat w') (database, table)
    ⊆ table_parts (cat w) (database, table)).
  pose (E := λ (_ : exn) (w' : world),
    table_parts (cat w') (database, table)
    ⊆ table_parts (cat w) (database, table)).
  unfold delete_partitions.
  eapply spec_mono; [|apply (spec_for_page_in _ _ _ _ w J E)].
  - by intros [[]|e] w'.
  - intros e w1 Hc _ _. unfold E. by rewrite Hc.
  - intros w1 Hc _ _ _. unfold J. by rewrite Hc.
  - intros done p w2 HJ _ _.
    pose (I := λ (_ : list nat) (w' : world), J done w').
    apply spec_bind, spec_lift.
    destruct (Py.range0 (length p) batch) as [indices|e]; [|done].
    eapply spec_mono;
      [|apply (spec_for_each I E _ indices [] w2)].
    + by intros [[]|e] w3.
    + intros d i rest w3 _ HI. apply spec_bind, spec_lift.
      destruct (map_result _ _) as [to_delete|e]; [|done].
      unfold batch_delete_partition. apply spec_client_call; [done|].
      intros _.
      destruct (25 <? length to_delete); [done|].
      destruct (tables (cat w3) !! (database, table)); [|done].
      destruct (mapM values_of to_delete) as [keys|]; [|done].
      unfold I, J. simpl. rewrite table_parts_set.
      etrans; [apply foldr_delete_subseteq|done].
    + done.
  - intros done w2 HJ. unfold get_partitions_next.
    by apply spec_client_call.
Qed.

(** X7. However [delete_partitions] ends, by returning or by raising at any
    request, the partitions left under the table are partitions it had,
    with their records: none is added or changed, the tables are as they
    were, and so are the partitions of every other table. *)
Theorem delete_partitions_only_removes (database table : string) (batch : nat)
    (w : world) :
  0 < batch →
  table_parts (cat (delete_partitions database table batch w).2) (database, table)
  ⊆ table_parts (cat w) (database, table) ∧
  tables (cat (delete_partitions database table batch w).2) = tables (cat w) ∧
  ∀ k, k ≠ (database, table) →
    partitions (cat (delete_partitions database table batch w).2) !! k
    = partitions (cat w) !! k.
Proof.
  intros Hbatch.
  pose proof (delete_partitions_shrinks_spec database table batch w) as Hshrink.
  pose proof (delete_partitions_spec database table batch w Hbatch)
    as [(Ht & _ & _ & _ & Hf & _) _].
  done.
Qed.

Lemma delete_partitions_only_removes_witness :
  table_parts
    (cat (delete_partitions "db" "sales" 1
            (start live_catalog [None; None; Some (ClientError "ThrottlingException")])).2)
    ("db", "sales")
  ⊆ table_parts
      (cat (start live_catalog [None; None; Some (ClientError "ThrottlingException")]))
      ("db", "sales") ∧
  tables
    (cat (delete_partitions "db" "sales" 1
            (start live_catalog [None; None; Some (ClientError "ThrottlingException")])).2)
  = tables
      (cat (start live_catalog [None; None; Some (ClientError "ThrottlingException")])) ∧
  ∀ k, k ≠ ("db", "sales") →
    partitions
      (cat (delete_partitions "db" "sales" 1
              (start live_catalog
                 [None; None; Some (ClientError "ThrottlingException")])).2) !! k
    = partitions
        (cat (start live_catalog
                [None; None; Some (ClientError "ThrottlingException")])) !! k.
Proof.
  apply (delete_partitions_only_removes "db" "sales" 1
           (start live_catalog [None; None; Some (ClientError "ThrottlingException")])).
  lia.
Defined.

Lemma zip_values (inputs : list dict) (keys : list (list string)) k x :
  mapM values_of inputs = Some keys →
  (k, x) ∈ zip keys inputs → values_of x = Some k ∧ x ∈ inputs.
Proof.
  intros H%mapM_Some. revert k x.
  induction H as [|y key inputs keys Hy _ IH]; intros k x.
  - simpl. by intros []%elem_of_nil.
  - simpl. intros [[= -> ->]|Hin]%elem_of_cons.
    + split; [done|]. apply list_elem_of_here.
    + destruct (IH _ _ Hin) as [Hv Hx]. split; [done|].
      by apply list_elem_of_further.
Qed.

Lemma faithful_copies_refl c0 sdb stbl before :
  faithful_copies c0 sdb stbl before before.
Proof. split; [done|]. intros vs stored Hvs. by left. Qed.

Lemma create_partition_faithful c0 sdb stbl before parts (kv : list string * dict) :
  faithful_copies c0 sdb stbl before parts →
  (∃ attrs, table_parts c0 (sdb, stbl) !! kv.1 = Some attrs ∧
            kv.2 = clean_partition (partition_record sdb stbl (kv.1, attrs))) →
  faithful_copies c0 sdb stbl before (create_partition (clock c0) parts kv).
Proof.
  intros [Hsub Hcopies] (attrs & Hattrs & Hrecord). unfold create_partition.
  destruct (parts !! kv.1) as [old|] eqn:Hold; [done|]. split.
  - etrans; [done|]. by apply insert_subseteq.
  - intros vs stored.
    destruct (decide (vs = kv.1)) as [->|Hne].
    + rewrite lookup_insert_eq. intros [= <-]. right. split.
      * by eapply lookup_weaken_None.
      * exists attrs. by rewrite Hrecord.
    + rewrite lookup_insert_ne by done. apply Hcopies.
Qed.

Lemma create_partitions_faithful c0 sdb stbl before kvs parts :
  faithful_copies c0 sdb stbl before parts →
  Forall (λ kv : list string * dict,
            ∃ attrs, table_parts c0 (sdb, stbl) !! kv.1 = Some attrs ∧
                     kv.2 = clean_partition
                              (partition_record sdb stbl (kv.1, attrs))) kvs →
  faithful_copies c0 sdb stbl before (foldl (create_partition (clock c0)) parts kvs).
Proof.
  intros Hparts Hall. revert parts Hparts.
  induction Hall as [|kv kvs Hkv _ IH]; intros parts Hparts; [done|].
  simpl. apply IH. by apply create_partition_faithful.
Qed.

Lemma listing_record c db tbl (r : dict) vs :
  r ∈ listing c db tbl → values_of r = Some vs →
  ∃ attrs, table_parts c (db, tbl) !! vs = Some attrs ∧
           r = partition_record db tbl (vs, attrs).
Proof.
  unfold listing. intros ([vs' attrs] & -> & Hin)%list_elem_of_fmap.
  rewrite values_of_partition_record. intros [= ->].
  exists attrs. split; [|done]. by apply elem_of_map_to_list.
Qed.

Lemma copy_partitions_faithful_spec source_database source_table
    target_database target_table w :
  spec (copy_partitions source_database source_table
          target_database target_table) w (λ _ w',
    faithful_copies (cat w) source_database source_table
      (table_parts (cat w) (target_database, target_table))
      (table_parts (cat w') (target_database, target_table))).
Proof.
  set (k := (target_database, target_table)).
  pose (J := λ (_ : list dict) (w' : world),
    clock (cat w') = clock (cat w) ∧
    faithful_copies (cat w) source_database source_table
      (table_parts (cat w) k) (table_parts (cat w') k)).
  pose (E := λ (_ : exn) (w' : world),
    clock (cat w') = clock (cat w) ∧
    faithful_copies (cat w) source_database source_table
      (table_parts (cat w) k) (table_parts (cat w') k)).
  unfold copy_partitions.
  eapply spec_mono; [|apply (spec_for_page_in _ _ _ _ w J E)].
  - intros [[]|e] w'; by intros [_ H].
  - intros e w1 Hc _ _. unfold E. rewrite Hc. split; [done|].
    apply faithful_copies_refl.
  - intros w1 Hc _ _ _. unfold J. rewrite Hc. split; [done|].
    apply faithful_copies_refl.
  - intros done p w2 [Hclock HJ] _ Hsub.
    unfold batch_create_partition. apply spec_client_call; [done|].
    intros _.
    destruct (100 <? length (clean_partition <$> p)); [done|].
    destruct (tables (cat w2) !! (target_database, target_table)); [|done].
    destruct (mapM values_of (clean_partition <$> p)) as [keys|] eqn:Hk; [|done].
    unfold J. simpl. split; [done|]. fold k. rewrite table_parts_set, Hclock.
    apply create_partitions_faithful; [done|].
    apply Forall_forall. intros [key x] Hin.
    destruct (zip_values _ _ _ _ Hk Hin) as [Hv Hx].
    apply list_elem_of_fmap in Hx as (r & -> & Hr).
    rewrite values_of_clean_partition in Hv.
    destruct (listing_record _ _ _ _ _ (Hsub _ Hr) Hv) as (attrs & Hattrs & ->).
    by exists attrs.
  - intros done w2 HJ. unfold get_partitions_next.
    by apply spec_client_call.
Qed.

Lemma rehomed_record_lookup now db tbl vs attrs :
  stamped now (clean_partition (partition_record db tbl (vs, attrs))) !! "Values"
  = Some (VList (VStr <$> vs)) ∧
  stamped now (clean_partition (partition_record db tbl (vs, attrs))) !! "CreationTime"
  = Some (VInt now) ∧
  stamped now (clean_partition (partition_record db tbl (vs, attrs))) !! "DatabaseName"
  = None ∧
  stamped now (clean_partition (partition_record db tbl (vs, attrs))) !! "TableName"
  = None ∧
  ∀ key, key ∉ ["DatabaseName"; "TableName"; "CreationTime"; "Values"] →
    stamped now (clean_partition (partition_record db tbl (vs, attrs))) !! key
    = attrs !! key.
Proof.
  unfold stamped, clean_partition, partition_record. simpl.
  split; [|split; [|split; [|split]]].
  - rewrite lookup_insert_ne by done.
    apply map_lookup_filter_Some. split; [by rewrite lookup_insert_eq|].
    simpl. not_in_literals.
  - by rewrite lookup_insert_eq.
  - rewrite lookup_insert_ne by done.
    apply map_lookup_filter_None_2. right. intros v _ H. simpl in H.
    apply H. in_literals.
  - rewrite lookup_insert_ne by done.
    apply map_lookup_filter_None_2. right. intros v _ H. simpl in H.
    apply H. in_literals.
  - intros key Hkey.
    assert (key ≠ "DatabaseName" ∧ key ≠ "TableName" ∧ key ≠ "CreationTime"
            ∧ key ≠ "Values") as (H1 & H2 & H3 & H4).
    { repeat split; intros ->; apply Hkey; in_literals. }
    rewrite lookup_insert_ne by done.
    destruct (attrs !! key) as [v|] eqn:Hv.
    + apply map_lookup_filter_Some. split.
      * by rewrite !lookup_insert_ne.
      * simpl. repeat (apply not_elem_of_cons; split; [done|]).
        apply not_elem_of_nil.
    + apply map_lookup_filter_None_2. left. by rewrite !lookup_insert_ne.
Qed.

(** X8. However [copy_partitions] ends, every partition the target had is
    still there with its record, and every other partition under the target
    is the copy of a partition of the source: its values, and every field
    of the source's record but the database name, the table name and the
    creation time, which is the service's. *)
Theorem copy_partitions_keeps_and_copies (source_database source_table
    target_database target_table : string) (w : world) :
  table_parts (cat w) (target_database, target_table)
  ⊆ table_parts
      (cat (copy_partitions source_database source_table
              target_database target_table w).2)
      (target_database, target_table) ∧
  ∀ vs stored,
    table_parts
      (cat (copy_partitions source_database source_table
              target_database target_table w).2)
      (target_database, target_table) !! vs = Some stored →
    table_parts (cat w) (target_database, target_table) !! vs = Some stored ∨
    ∃ attrs,
      table_parts (cat w) (source_database, source_table) !! vs = Some attrs ∧
      stored !! "Values" = Some (VList (VStr <$> vs)) ∧
      stored !! "CreationTime" = Some (VInt (clock (cat w))) ∧
      stored !! "DatabaseName" = None ∧
      stored !! "TableName" = None ∧
      ∀ key, key ∉ ["DatabaseName"; "TableName"; "CreationTime"; "Values"] →
        stored !! key = attrs !! key.
Proof.
  pose proof (copy_partitions_faithful_spec source_database source_table
                target_database target_table w) as [Hsub Hcopies].
  split; [done|]. intros vs stored Hstored.
  destruct (Hcopies vs stored Hstored) as [Hold|(_ & attrs & Hattrs & ->)];
    [by left|].
  right. exists attrs. split; [done|]. apply rehomed_record_lookup.
Qed.

(** X9. When [copy_partitions] returns, every partition of the source whose
    values the target did not have is under the target, as that copy. *)
Theorem copy_partitions_copies_all (source_database source_table
    target_database target_table : string) (w : world)
    (vs : list string) (attrs : dict) :
  (copy_partitions source_database source_table
     target_database target_table w).1 = Ok tt →
  table_parts (cat w) (source_database, source_table) !! vs = Some attrs →
  table_parts (cat w) (target_database, target_table) !! vs = None →
  table_parts
    (cat (copy_partitions source_database source_table
            target_database target_table w).2)
    (target_database, target_table) !! vs
  = Some (stamped (clock (cat w))
            (clean_partition
               (partition_record source_database source_table (vs, attrs)))).
Proof.
  intros Hok Hsource Htarget.
  pose proof (copy_partitions_faithful_spec source_database source_table
                target_database target_table w) as [_ Hcopies].
  pose proof (copy_partitions_spec source_database source_table
                target_database target_table w) as [_ Hdom].
  specialize (Hdom Hok).
  assert (Hin : vs ∈ dom (table_parts
                            (cat (copy_partitions source_database source_table
                                    target_database target_table w).2)
                            (target_database, target_table))).
  { rewrite Hdom, elem_of_union. right. apply elem_of_dom. by exists attrs. }
  apply elem_of_dom in Hin as [stored Hstored].
  rewrite Hstored.
  destruct (Hcopies vs stored Hstored) as [Hold|(_ & attrs' & Hattrs & ->)].
  - congruence.
  - rewrite Hsource in Hattrs. by injection Hattrs as <-.
Qed.

Lemma copy_partitions_copies_all_witness :
  table_parts
    (cat (copy_partitions "db" "sales_tmp" "db" "sales" (start staged_catalog [])).2)
    ("db", "sales") !! ["mon"]
  = Some (stamped (clock (cat (start staged_catalog [])))
            (clean_partition
               (partition_record "db" "sales_tmp"
                  (["mon"],
                   {[ "StorageDescriptor" :=
                        VDict {[ "Location" :=
                                   VStr "s3://bucket/db/sales/version_4//mon" ]} ]})))).
Proof.
  apply (copy_partitions_copies_all "db" "sales_tmp" "db" "sales"
           (start staged_catalog []) ["mon"]).
  - vm_compute. reflexivity.
  - vm_compute. reflexivity.
  - vm_compute. reflexivity.
Defined.

(** ** The catalog at the exits of the overwrite branch *)

Lemma write_parquet_local glue_context dyf output_path partition_keys db name
    w r w' k :
  sink_local glue_context →
  write_parquet glue_context dyf output_path partition_keys db name w = (r, w') →
  k ≠ (db, name) →
  tables (cat w') !! k = tables (cat w) !! k ∧
  partitions (cat w') !! k = partitions (cat w) !! k.
Proof.
  intros Hlocal Hwrite Hk.
  rewrite (write_parquet_catalog _ _ _ _ _ _ _ _ _ Hwrite).
  by apply Hlocal.
Qed.

Lemma update_table_other db table_input w r w' k name :
  update_table db table_input w = (r, w') →
  table_input !! "Name" = Some (VStr name) →
  k ≠ (db, name) →
  tables (cat w') !! k = tables (cat w) !! k ∧
  partitions (cat w') = partitions (cat w).
Proof.
  intros Hupd Hname Hk.
  apply update_table_flip in Hupd as [_ Hupd].
  destruct r as [[]|e].
  - destruct Hupd as (name' & Hname' & -> & ->).
    rewrite Hname in Hname'. injection Hname' as <-.
    by rewrite lookup_insert_ne.
  - by rewrite Hupd.
Qed.

Lemma make_table_input_name staging tgt next table_input :
  make_table_input staging tgt next = Ok table_input →
  table_input !! "Name" = Some (VStr tgt).
Proof.
  intros (sd & _ & ->)%make_table_input_inv.
  by destruct (flipped_definition_lookup staging sd tgt next) as (_ & Hn & _).
Qed.

(** At an exit of the overwrite branch, either the flip has been served or
    the target's entry is the one it had. *)
Lemma overwrite_exit_unflipped glue_context dyf partition_keys db tgt tmp
    existing w1 r w' :
  sink_local glue_context →
  tmp ≠ tgt →
  overwrite_exit glue_context dyf partition_keys db tgt tmp existing w1 r w' →
  (tables (cat w') !! (db, tgt) = tables (cat w1) !! (db, tgt) ∧ r ≠ Ok tt) ∨
  ∃ table_input,
    (UpdateTable db table_input, None) ∈ drop (length (calls w1)) (calls w').
Proof.
  intros Hlocal Hfresh Hexit.
  assert (Hk : (db, tgt) ≠ (db, tmp)) by congruence.
  destruct Hexit as
    [ e Hnext
    | next e w2 Hnext Hwrite
    | next w2 w3 Hnext Hwrite Hfetch
    | next w2 w3 staging e Hnext Hwrite Hfetch Hinput
    | next w2 w3 staging table_input e w4 Hnext Hwrite Hfetch Hinput Hrec
    | next w2 w3 staging table_input w4 e w5 Hnext Hwrite Hfetch Hinput Hrec Hupd
    | next w2 w3 staging table_input w4 w5 e w6
        Hnext Hwrite Hfetch Hinput Hrec Hupd Hdrop
    | next w2 w3 staging table_input w4 w5 w6
        Hnext Hwrite Hfetch Hinput Hrec Hupd Hdrop ].
  - by left.
  - left. split; [|done].
    by destruct (write_parquet_local _ _ _ _ _ _ _ _ _ _ Hlocal Hwrite Hk).
  - left. split; [|done].
    destruct (write_parquet_local _ _ _ _ _ _ _ _ _ _ Hlocal Hwrite Hk) as [<- _].
    apply get_catalog_table_fetch in Hfetch as (-> & _). done.
  - left. split; [|done].
    destruct (write_parquet_local _ _ _ _ _ _ _ _ _ _ Hlocal Hwrite Hk) as [<- _].
    apply get_catalog_table_fetch in Hfetch as (-> & _). done.
  - left. split; [|done].
    destruct (write_parquet_local _ _ _ _ _ _ _ _ _ _ Hlocal Hwrite Hk) as [<- _].
    apply get_catalog_table_fetch in Hfetch as (<- & _).
    apply reconcile_only_partitions in Hrec as (-> & _). done.
  - left. split; [|done].
    destruct (write_parquet_local _ _ _ _ _ _ _ _ _ _ Hlocal Hwrite Hk) as [<- _].
    apply get_catalog_table_fetch in Hfetch as (<- & _).
    apply reconcile_only_partitions in Hrec as (<- & _).
    apply update_table_flip in Hupd as [_ ->]. done.
  - right. exists table_input.
    apply write_parquet_calls in Hwrite as [Hw2 _].
    apply get_catalog_table_fetch in Hfetch as (_ & Hw3 & _).
    apply reconcile_only_partitions in Hrec as (_ & _ & _ & _ & _ & lp & Hw4 & _).
    apply update_table_flip in Hupd as [Hw5 _].
    apply delete_table_drop in Hdrop as (Hw6 & _).
    rewrite Hw6, Hw5, Hw4, Hw3, Hw2, <- !app_assoc, drop_app_length.
    simpl. do 2 apply list_elem_of_further.
    apply elem_of_app. right. apply list_elem_of_here.
  - right. exists table_input.
    apply write_parquet_calls in Hwrite as [Hw2 _].
    apply get_catalog_table_fetch in Hfetch as (_ & Hw3 & _).
    apply reconcile_only_partitions in Hrec as (_ & _ & _ & _ & _ & lp & Hw4 & _).
    apply update_table_flip in Hupd as [Hw5 _].
    apply delete_table_drop in Hdrop as (Hw6 & _).
    rewrite Hw6, Hw5, Hw4, Hw3, Hw2, <- !app_assoc, drop_app_length.
    simpl. do 2 apply list_elem_of_further.
    apply elem_of_app. right. apply list_elem_of_here.
Qed.

(** X10. Whatever step of an overwrite raises before the flip is served, the
    data processor, the lookup of the staging table, the reconciliation at
    any of its requests or the flip itself, the target's definition, its
    location with it, is the one it had and the run raises. *)
Theorem unflipped_target_keeps_definition (now : datetime)
    (glue_context : GlueContext) (dyf : DynamicFrame) (output_path : string)
    (partition_keys : list string) (db tgt : string) (w : world)
    (existing : get_table_response) (r : result unit) (w' : world) :
  sink_local glue_context →
  lookup_answer db tgt w = Some existing →
  write_versioned_parquet now glue_context dyf output_path partition_keys
    db tgt w = (r, w') →
  (∀ table_input,
     (UpdateTable db table_input, None) ∉ drop (length (calls w)) (calls w')) →
  tables (cat w') !! (db, tgt) = tables (cat w) !! (db, tgt) ∧
  lookup_answer db tgt (start (cat w') []) = Some existing ∧
  ∃ e, r = Raise e.
Proof.
  intros Hlocal Hfound Hrun Hnoflip.
  pose proof (overwrite_exits _ _ _ _ _ _ _ _ _ _ _ Hfound Hrun) as Hexit.
  apply overwrite_exit_unflipped in Hexit as [[Htables Hr]|[ti Hin]];
    [| |done|apply version_tmp_name_fresh].
  - unfold after_call in Htables. simpl in Htables. split; [done|]. split.
    + destruct (lookup_answer_found _ _ _ _ Hfound) as (_ & stored & Hstored & ->).
      unfold lookup_answer, injected. simpl. by rewrite Htables, Hstored.
    + destruct r as [[]|e]; [done|by exists e].
  - exfalso. apply (Hnoflip ti).
    unfold after_call in Hin. simpl in Hin. rewrite length_app in Hin.
    simpl in Hin. rewrite <- drop_drop in Hin.
    by eapply (subseteq_drop 1).
Qed.

Lemma unflipped_target_keeps_definition_witness :
  tables (cat example_reconcile_failure.2) !! ("db", "sales")
  = tables
      (cat (start live_catalog
              [None; None; None; Some (ClientError "InternalServiceException")]))
      !! ("db", "sales") ∧
  lookup_answer "db" "sales" (start (cat example_reconcile_failure.2) [])
  = Some (GetTableResponse
            (table_record "db" "sales"
               {[ "StorageDescriptor" :=
                    VDict {[ "Location" := VStr "s3://bucket/db/sales/version_3/";
                             "Columns" := VList [] ]};
                  "CreateTime" := VInt 1 ]})) ∧
  ∃ e, example_reconcile_failure.1 = Raise e.
Proof.
  apply (unflipped_target_keeps_definition example_now example_context
           example_frame "s3://bucket/db/sales" ["day"] "db" "sales"
           (start live_catalog
              [None; None; None; Some (ClientError "InternalServiceException")])).
  - apply example_context_local.
  - reflexivity.
  - apply surjective_pairing.
  - intros table_input Hin.
    apply (list_elem_of_fmap_2 fst) in Hin. vm_compute in Hin.
    repeat (apply elem_of_cons in Hin as [Hin|Hin]; [discriminate|]).
    by apply elem_of_nil in Hin.
Defined.

(** At an exit of the overwrite branch reached after a served write, the
    run has returned or the staging table and its partitions are as the
    sink left them. *)
Lemma overwrite_exit_staging glue_context dyf partition_keys db tgt tmp
    existing w1 r w' next :
  tmp ≠ tgt →
  overwrite_exit glue_context dyf partition_keys db tgt tmp existing w1 r w' →
  calculate_next_location existing = Ok next →
  (writeFrame glue_context (job_sink next partition_keys db tmp) dyf (cat w1)).1
  = None →
  r = Ok tt ∨
  (tables (cat w') !! (db, tmp)
   = tables (writeFrame glue_context
               (job_sink next partition_keys db tmp) dyf (cat w1)).2 !! (db, tmp) ∧
   partitions (cat w') !! (db, tmp)
   = partitions (writeFrame glue_context
                   (job_sink next partition_keys db tmp) dyf (cat w1)).2
       !! (db, tmp)).
Proof.
  intros Hfresh Hexit Hnext Hserved.
  assert (Hk : (db, tmp) ≠ (db, tgt)) by congruence.
  destruct Hexit as
    [ e Hnext'
    | next' e w2 Hnext' Hwrite
    | next' w2 w3 Hnext' Hwrite Hfetch
    | next' w2 w3 staging e Hnext' Hwrite Hfetch Hinput
    | next' w2 w3 staging table_input e w4 Hnext' Hwrite Hfetch Hinput Hrec
    | next' w2 w3 staging table_input w4 e w5 Hnext' Hwrite Hfetch Hinput Hrec Hupd
    | next' w2 w3 staging table_input w4 w5 e w6
        Hnext' Hwrite Hfetch Hinput Hrec Hupd Hdrop
    | next' w2 w3 staging table_input w4 w5 w6
        Hnext' Hwrite Hfetch Hinput Hrec Hupd Hdrop ];
    [congruence| | | | | | |by left];
    assert (next' = next) as -> by congruence;
    right;
    pose proof (write_parquet_catalog _ _ _ _ _ _ _ _ _ Hwrite) as Hc2.
  - rewrite write_parquet_eq, Hserved in Hwrite. discriminate.
  - apply get_catalog_table_fetch in Hfetch as (-> & _). by rewrite Hc2.
  - apply get_catalog_table_fetch in Hfetch as (-> & _). by rewrite Hc2.
  - apply get_catalog_table_fetch in Hfetch as (Hc3 & _).
    apply reconcile_only_partitions in Hrec as (-> & _ & _ & _ & Hp & _).
    rewrite (Hp _ Hk), Hc3, Hc2. done.
  - apply get_catalog_table_fetch in Hfetch as (Hc3 & _).
    apply reconcile_only_partitions in Hrec as (Ht & _ & _ & _ & Hp & _).
    apply update_table_flip in Hupd as [_ ->].
    rewrite Ht, (Hp _ Hk), Hc3, Hc2. done.
  - apply get_catalog_table_fetch in Hfetch as (Hc3 & _).
    apply reconcile_only_partitions in Hrec as (Ht & _ & _ & _ & Hp & _).
    pose proof (make_table_input_name _ _ _ _ Hinput) as Hname.
    destruct (update_table_other _ _ _ _ _ _ _ Hupd Hname Hk) as [Ht5 Hp5].
    apply delete_table_drop in Hdrop as (_ & _ & ->).
    rewrite Ht5, Hp5, Ht, (Hp _ Hk), Hc3, Hc2. done.
Qed.

(** X11. When an overwrite raises after the data processor has written, the
    staging table and its partitions stay in the catalog as the data
    processor left them: the job removes nothing of what it staged. *)
Theorem failed_overwrite_leaves_staging (now : datetime)
    (glue_context : GlueContext) (dyf : DynamicFrame) (output_path : string)
    (partition_keys : list string) (db tgt : string) (w : world)
    (existing : get_table_response) (next : string) (e : exn) (w' : world) :
  lookup_answer db tgt w = Some existing →
  calculate_next_location existing = Ok next →
  (writeFrame glue_context
     (job_sink next partition_keys db (version_tmp_name tgt now)) dyf (cat w)).1
  = None →
  write_versioned_parquet now glue_context dyf output_path partition_keys
    db tgt w = (Raise e, w') →
  tables (cat w') !! (db, version_tmp_name tgt now)
  = tables (writeFrame glue_context
              (job_sink next partition_keys db (version_tmp_name tgt now))
              dyf (cat w)).2 !! (db, version_tmp_name tgt now) ∧
  partitions (cat w') !! (db, version_tmp_name tgt now)
  = partitions (writeFrame glue_context
                  (job_sink next partition_keys db (version_tmp_name tgt now))
                  dyf (cat w)).2 !! (db, version_tmp_name tgt now).
Proof.
  intros Hfound Hnext Hserved Hrun.
  pose proof (overwrite_exits _ _ _ _ _ _ _ _ _ _ _ Hfound Hrun) as Hexit.
  eapply overwrite_exit_staging in Hexit as [[=]|Hleft];
    [done|apply version_tmp_name_fresh|done|done].
Qed.

Lemma failed_overwrite_leaves_staging_witness :
  tables (cat example_cleanup_failure.2) !! ("db", version_tmp_name "sales" example_now)
  = tables (writeFrame example_context
              (job_sink "s3://bucket/db/sales/version_4/" ["day"] "db"
                 (version_tmp_name "sales" example_now))
              example_frame
              (cat (start live_catalog
                      (replicate 7 None
                       ++ [Some (ClientError "InternalServiceException")])))).2
      !! ("db", version_tmp_name "sales" example_now) ∧
  partitions (cat example_cleanup_failure.2)
    !! ("db", version_tmp_name "sales" example_now)
  = partitions (writeFrame example_context
                  (job_sink "s3://bucket/db/sales/version_4/" ["day"] "db"
                     (version_tmp_name "sales" example_now))
                  example_frame
                  (cat (start live_catalog
                          (replicate 7 None
                           ++ [Some (ClientError "InternalServiceException")])))).2
      !! ("db", version_tmp_name "sales" example_now).
Proof.
  apply (failed_overwrite_leaves_staging example_now example_context
           example_frame "s3://bucket/db/sales" ["day"] "db" "sales"
           (start live_catalog
              (replicate 7 None ++ [Some (ClientError "InternalServiceException")]))
           (GetTableResponse
              (table_record "db" "sales"
                 {[ "StorageDescriptor" :=
                      VDict {[ "Location" := VStr "s3://bucket/db/sales/version_3/";
                               "Columns" := VList [] ]};
                    "CreateTime" := VInt 1 ]}))
           "s3://bucket/db/sales/version_4/"
           (ClientError "InternalServiceException")).
  - reflexivity.
  - vm_compute. reflexivity.
  - reflexivity.
  - rewrite (surjective_pairing (write_versioned_parquet _ _ _ _ _ _ _ _)).
    f_equal.
Defined.

(** ** The overwrite when every request is served *)

Lemma bind_ok {A B} (m : M A) (f : A → M B) w a w1 :
  m w = (Ok a, w1) → bind m f w = f a w1.
Proof. unfold bind. by intros ->. Qed.

Lemma bind_assoc {A B C} (m : M A) (f : A → M B) (g : B → M C) w :
  bind (bind m f) g w = bind m (λ a, bind (f a) g) w.
Proof.
  unfold bind. destruct (m w) as [[a|e] w1]; [|done].
  by destruct (f a w1) as [[b|e] w2].
Qed.

Lemma get_catalog_table_served db name w stored :
  faults w = [] →
  tables (cat w) !! (db, name) = Some stored →
  get_catalog_table db name w
  = (Ok (Some (GetTableResponse (table_record db name stored))),
     World (cat w) [] (calls w ++ [(GetTable db name, None)])).
Proof.
  intros Hf Ht. rewrite get_catalog_table_eq.
  unfold lookup_answer, lookup_outcome, injected, after_call.
  by rewrite Hf, Ht.
Qed.

Lemma write_parquet_served glue_context dyf output_path partition_keys db name w c1 :
  writeFrame glue_context (job_sink output_path partition_keys db name) dyf (cat w)
  = (None, c1) →
  write_parquet glue_context dyf output_path partition_keys db name w
  = (Ok tt,
     World c1 (faults w)
       (calls w ++ [(WriteFrame output_path partition_keys db name, None)])).
Proof. intros Hsink. rewrite write_parquet_eq. by rewrite Hsink. Qed.

Lemma update_table_served db table_input w name old :
  faults w = [] →
  table_input !! "Name" = Some (VStr name) →
  tables (cat w) !! (db, name) = Some old →
  update_table db table_input w
  = (Ok tt,
     World (set_tables
              <[(db, name) := <["UpdateTime" := VInt (clock (cat w))]> table_input]>
              (cat w)) []
       (calls w ++ [(UpdateTable db table_input, None)])).
Proof.
  intros Hf Hname Hold. unfold update_table, client_call.
  by rewrite Hf, Hname, Hold.
Qed.

Lemma delete_table_served db name w old :
  faults w = [] →
  tables (cat w) !! (db, name) = Some old →
  delete_table db name w
  = (Ok tt,
     World (set_partitions (delete (db, name))
              (set_tables (delete (db, name)) (cat w))) []
       (calls w ++ [(DeleteTable db name, None)])).
Proof.
  intros Hf Hold. unfold delete_table, client_call. by rewrite Hf, Hold.
Qed.

Lemma reconcile_served db src tgt w :
  src ≠ tgt →
  faults w = [] →
  is_Some (tables (cat w) !! (db, src)) →
  is_Some (tables (cat w) !! (db, tgt)) →
  ∃ w',
    reconcile db src tgt w = (Ok tt, w') ∧
    faults w' = [] ∧
    tables (cat w') = tables (cat w) ∧
    clock (cat w') = clock (cat w) ∧
    dom (table_parts (cat w') (db, tgt)) = dom (table_parts (cat w) (db, src)) ∧
    ∀ k, k ≠ (db, tgt) → partitions (cat w') !! k = partitions (cat w) !! k.
Proof.
  intros Hne Hfaults Hsrc Htgt. unfold reconcile, bind.
  pose proof (delete_partitions_returns db tgt 25 w
                ltac:(lia) ltac:(lia) Hfaults Htgt) as Hret.
  pose proof (delete_partitions_spec db tgt 25 w ltac:(lia)) as Hspec.
  unfold spec in Hret, Hspec.
  destruct (delete_partitions db tgt 25 w) as [r wd].
  simpl in Hret, Hspec. destruct Hret as [-> Hf].
  destruct Hspec as [(Ht & _ & Hc & _ & Hp & _) Hempty].
  specialize (Hempty eq_refl).
  pose proof (copy_partitions_returns db src db tgt wd Hf) as Hcopy.
  rewrite Ht in Hcopy. specialize (Hcopy Hsrc Htgt).
  pose proof (copy_partitions_spec db src db tgt wd) as Hspec'.
  unfold spec in Hcopy, Hspec'.
  destruct (copy_partitions db src db tgt wd) as [r' w'].
  simpl in Hcopy, Hspec'. destruct Hcopy as [-> Hf'].
  destruct Hspec' as [(Ht' & _ & Hc' & _ & Hp' & _) Hdom].
  specialize (Hdom eq_refl).
  assert (Hk : (db, src) ≠ (db, tgt)) by congruence.
  exists w'. split; [done|]. split; [done|].
  split; [congruence|]. split; [congruence|]. split.
  - rewrite Hdom, Hempty, dom_empty_L, union_empty_l_L.
    unfold table_parts. by rewrite Hp.
  - intros k Hk'. by rewrite Hp', Hp.
Qed.

(** X12. When every request is served, the target's location is accepted and
    the data processor has registered the staging table with a storage
    descriptor, the overwrite returns: the target carries the staging
    definition at the next location, its partitions are the staging
    table's, the staging table and its partitions are gone from the
    catalog, and every other table is as it was. *)
Theorem overwrite_completes (now : datetime) (glue_context : GlueContext)
    (dyf : DynamicFrame) (output_path : string) (partition_keys : list string)
    (db tgt : string) (w : world) (existing : get_table_response)
    (next : string) (c1 : catalog) (stored sd : dict) :
  sink_local glue_context →
  faults w = [] →
  lookup_answer db tgt w = Some existing →
  calculate_next_location existing = Ok next →
  writeFrame glue_context
    (job_sink next partition_keys db (version_tmp_name tgt now)) dyf (cat w)
  = (None, c1) →
  tables c1 !! (db, version_tmp_name tgt now) = Some stored →
  stored !! "StorageDescriptor" = Some (VDict sd) →
  ∃ w',
    write_versioned_parquet now glue_context dyf output_path partition_keys
      db tgt w = (Ok tt, w') ∧
    tables (cat w') !! (db, tgt)
    = Some (<["UpdateTime" := VInt (clock c1)]>
              (flipped_definition
                 (table_record db (version_tmp_name tgt now) stored) sd tgt next)) ∧
    dom (table_parts (cat w') (db, tgt))
    = dom (table_parts c1 (db, version_tmp_name tgt now)) ∧
    tables (cat w') !! (db, version_tmp_name tgt now) = None ∧
    partitions (cat w') !! (db, version_tmp_name tgt now) = None ∧
    ∀ k, k ≠ (db, tgt) → k ≠ (db, version_tmp_name tgt now) →
      tables (cat w') !! k = tables (cat w) !! k ∧
      partitions (cat w') !! k = partitions (cat w) !! k.
Proof.
  intros Hlocal Hfaults Hfound Hnext Hsink Hstored Hsd.
  set (tmp := version_tmp_name tgt now) in *.
  assert (Hfresh : tmp ≠ tgt) by apply version_tmp_name_fresh.
  assert (Hk : (db, tgt) ≠ (db, tmp)) by congruence.
  destruct (lookup_answer_found _ _ _ _ Hfound) as (_ & old & Hold & ->).
  assert (Hsinklocal : ∀ k, k ≠ (db, tmp) →
            tables c1 !! k = tables (cat w) !! k ∧
            partitions c1 !! k = partitions (cat w) !! k).
  { intros k Hk'.
    pose proof (Hlocal (job_sink next partition_keys db tmp) dyf (cat w) k Hk')
      as Hl. by rewrite Hsink in Hl. }
  assert (Hinput : make_table_input (table_record db tmp stored) tgt next
                   = Ok (flipped_definition (table_record db tmp stored) sd tgt next)).
  { apply make_table_input_eq. unfold table_record.
    by rewrite !lookup_insert_ne. }
  set (w1 := World (cat w) [] (calls w ++ [(GetTable db tgt, None)])).
  set (w2 := World c1 [] (calls w1 ++ [(WriteFrame next partition_keys db tmp, None)])).
  set (w3 := World c1 [] (calls w2 ++ [(GetTable db tmp, None)])).
  destruct (reconcile_served db tmp tgt w3 Hfresh eq_refl) as
    (w4 & Hrec & Hf4 & Ht4 & Hc4 & Hdom & Hp4).
  { simpl. by eexists. }
  { simpl. destruct (Hsinklocal _ Hk) as [-> _]. by eexists. }
  assert (Hupd : update_table db
                   (flipped_definition (table_record db tmp stored) sd tgt next) w4
                 = (Ok tt,
                    World (set_tables
                             <[(db, tgt) :=
                                 <["UpdateTime" := VInt (clock (cat w4))]>
                                   (flipped_definition
                                      (table_record db tmp stored) sd tgt next)]>
                             (cat w4)) []
                      (calls w4
                       ++ [(UpdateTable db
                              (flipped_definition
                                 (table_record db tmp stored) sd tgt next), None)]))).
  { eapply update_table_served; [done| |].
    - by destruct (flipped_definition_lookup
                     (table_record db tmp stored) sd tgt next) as (_ & Hn & _).
    - rewrite Ht4. simpl. destruct (Hsinklocal _ Hk) as [-> _]. done. }
  eexists. split.
  - unfold write_versioned_parquet.
    erewrite bind_ok by (by apply get_catalog_table_served).
    cbv beta iota.
    erewrite bind_ok by (unfold lift; by rewrite Hnext).
    cbv beta iota. fold tmp.
    erewrite bind_ok by (by apply write_parquet_served).
    cbv beta iota.
    erewrite bind_ok by (by apply (get_catalog_table_served db tmp _ stored)).
    cbv beta iota.
    erewrite bind_ok by reflexivity.
    cbv beta iota.
    erewrite bind_ok by (unfold lift; simpl; by rewrite Hinput).
    cbv beta iota.
    rewrite <- (bind_assoc (delete_partitions db tgt 25)
                  (λ _, copy_partitions db tmp db tgt)).
    fold (reconcile db tmp tgt).
    erewrite bind_ok by apply Hrec.
    erewrite bind_ok by apply Hupd.
    eapply delete_table_served; [done|].
    simpl. rewrite lookup_insert_ne by done. rewrite Ht4. simpl. done.
  - simpl. rewrite Hc4. simpl.
    split; [|split; [|split; [|split]]].
    + by rewrite lookup_delete_ne, lookup_insert_eq.
    + unfold table_parts in *. simpl. by rewrite lookup_delete_ne.
    + by rewrite lookup_delete_eq.
    + by rewrite lookup_delete_eq.
    + intros k Hk1 Hk2.
      rewrite !lookup_delete_ne, lookup_insert_ne by done.
      rewrite Ht4, (Hp4 _ Hk1). simpl. by apply Hsinklocal.
Qed.

Lemma overwrite_completes_witness :
  ∃ w',
    write_versioned_parquet example_now example_context example_frame
      "s3://bucket/db/sales" ["day"] "db" "sales" (start live_catalog [])
    = (Ok tt, w') ∧
    tables (cat w') !! ("db", "sales")
    = Some (<["UpdateTime" :=
                VInt (clock
                        (writeFrame example_context
                           (job_sink "s3://bucket/db/sales/version_4/" ["day"] "db"
                              (version_tmp_name "sales" example_now))
                           example_frame live_catalog).2)]>
              (flipped_definition
                 (table_record "db" (version_tmp_name "sales" example_now)
                    (example_table
                       (job_sink "s3://bucket/db/sales/version_4/" ["day"] "db"
                          (version_tmp_name "sales" example_now))
                       example_frame))
                 example_staging_descriptor "sales"
                 "s3://bucket/db/sales/version_4/")) ∧
    dom (table_parts (cat w') ("db", "sales"))
    = dom (table_parts
             (writeFrame example_context
                (job_sink "s3://bucket/db/sales/version_4/" ["day"] "db"
                   (version_tmp_name "sales" example_now))
                example_frame live_catalog).2
             ("db", version_tmp_name "sales" example_now)) ∧
    tables (cat w') !! ("db", version_tmp_name "sales" example_now) = None ∧
    partitions (cat w') !! ("db", version_tmp_name "sales" example_now) = None ∧
    ∀ k, k ≠ ("db", "sales") → k ≠ ("db", version_tmp_name "sales" example_now) →
      tables (cat w') !! k = tables (cat (start live_catalog [])) !! k ∧
      partitions (cat w') !! k = partitions (cat (start live_catalog [])) !! k.
Proof.
  apply (overwrite_completes example_now example_context example_frame
           "s3://bucket/db/sales" ["day"] "db" "sales" (start live_catalog [])
           (GetTableResponse
              (table_record "db" "sales"
                 {[ "StorageDescriptor" :=
                      VDict {[ "Location" := VStr "s3://bucket/db/sales/version_3/";
                               "Columns" := VList [] ]};
                    "CreateTime" := VInt 1 ]}))
           "s3://bucket/db/sales/version_4/").
  - apply example_context_local.
  - reflexivity.
  - reflexivity.
  - vm_compute. reflexivity.
  - reflexivity.
  - reflexivity.
  - reflexivity.
Defined.

(** ** The entry point: from the arguments to the first write *)

Lemma args_getitem_ok (args : gmap string string) k v :
  args !! k = Some v → args_getitem args k = Ok v.
Proof. unfold args_getitem. by intros ->. Qed.

(** The arguments [getResolvedOptions] has resolved. *)
Lemma main_unfold now glue_context dyf (args : gmap string string)
    db sdb stbl tbl region job w :
  args !! "output_database" = Some db →
  args !! "source_database" = Some sdb →
  args !! "source_table" = Some stbl →
  args !! "output_table" = Some tbl →
  args !! "region" = Some region →
  args !! "JOB_NAME" = Some job →
  main now glue_context dyf args w
  = bind (get_output_path db tbl)
      (λ output_path,
         write_versioned_parquet now glue_context dyf output_path
           (resolve_partition_keys args) db tbl) w.
Proof.
  intros H1 H2 H3 H4 H5 H6. unfold main.
  erewrite bind_ok by (unfold lift; by rewrite (args_getitem_ok _ _ _ H1)).
  cbv beta.
  erewrite bind_ok by (unfold lift; by rewrite (args_getitem_ok _ _ _ H2)).
  cbv beta.
  erewrite bind_ok by (unfold lift; by rewrite (args_getitem_ok _ _ _ H3)).
  cbv beta.
  erewrite bind_ok by (unfold lift; by rewrite (args_getitem_ok _ _ _ H4)).
  cbv beta.
  erewrite bind_ok by (unfold lift; by rewrite (args_getitem_ok _ _ _ H5)).
  cbv beta zeta.
  erewrite bind_ok by (unfold lift; by rewrite (args_getitem_ok _ _ _ H6)).
  done.
Qed.



Lemma get_output_path_calls output_database output_table w :
  cat (get_output_path output_database output_table w).2 = cat w ∧
  ∃ o, calls (get_output_path output_database output_table w).2
       = calls w ++ [(GetDatabase output_database, o)].
Proof.
  unfold get_output_path, bind, get_database, client_call.
  destruct (faults w) as [|[e|] rest]; simpl; [|by eauto|];
    (destruct (databases (cat w) !! output_database) as [d|]; simpl;
     [|by eauto]);
    unfold lift, getitem; rewrite lookup_insert_ne by done;
    destruct (d !! "LocationUri") as [[]|]; simpl; eauto.
Qed.

(** X14. When the output path cannot be computed, the job stops there: the
    exception is the run's, the request for the database is the only one
    made, the catalog is as it was, and neither the lookup of the target
    nor the data processor is reached. *)
Theorem main_stops_at_output_path (now : datetime) (glue_context : GlueContext)
    (dyf : DynamicFrame) (args : gmap string string)
    (db sdb stbl tbl region job : string) (w : world) (e : exn) :
  args !! "output_database" = Some db →
  args !! "source_database" = Some sdb →
  args !! "source_table" = Some stbl →
  args !! "output_table" = Some tbl →
  args !! "region" = Some region →
  args !! "JOB_NAME" = Some job →
  (get_output_path db tbl w).1 = Raise e →
  (main now glue_context dyf args w).1 = Raise e ∧
  cat (main now glue_context dyf args w).2 = cat w ∧
  ∃ o, calls (main now glue_context dyf args w).2
       = calls w ++ [(GetDatabase db, o)].
Proof.
  intros H1 H2 H3 H4 H5 H6 Hraise.
  rewrite (main_unfold _ _ _ _ _ _ _ _ _ _ _ H1 H2 H3 H4 H5 H6).
  pose proof (get_output_path_calls db tbl w) as Hcalls.
  unfold bind.
  destruct (get_output_path db tbl w) as [r w1]. simpl in *. subst r.
  done.
Qed.

Lemma main_stops_at_output_path_witness :
  (main example_now example_context example_frame example_args
     (start {| databases := ∅; tables := ∅; partitions := ∅;
               clock := 0; default_page := 1 |} [])).1
  = Raise EntityNotFound ∧
  cat (main example_now example_context example_frame example_args
         (start {| databases := ∅; tables := ∅; partitions := ∅;
                   clock := 0; default_page := 1 |} [])).2
  = cat (start {| databases := ∅; tables := ∅; partitions := ∅;
                  clock := 0; default_page := 1 |} []) ∧
  ∃ o, calls (main example_now example_context example_frame example_args
                (start {| databases := ∅; tables := ∅; partitions := ∅;
                          clock := 0; default_page := 1 |} [])).2
       = calls (start {| databases := ∅; tables := ∅; partitions := ∅;
                         clock := 0; default_page := 1 |} [])
         ++ [(GetDatabase "db", o)].
Proof.
  apply (main_stops_at_output_path example_now example_context example_frame
           example_args "db" "db" "source" "sales" "eu-west-1" "overwrite").
  - reflexivity.
  - reflexivity.
  - reflexivity.
  - reflexivity.
  - reflexivity.
  - reflexivity.
  - reflexivity.
Defined.

(** ** The partitions the stack declares *)


Lemma string_app_inv_tail (a b c : string) : a +:+ c = b +:+ c → a = b.
Proof.
  assert (Hlonger : ∀ (y : ascii) (d : string), c ≠ String y d +:+ c).
  { intros y d Heq. apply (f_equal String.length) in Heq.
    rewrite string_app_cons in Heq. cbn [String.length] in Heq.
    rewrite string_length_app in Heq. lia. }
  revert b. induction a as [|x a IH]; intros b Heq.
  - destruct b as [|y b]; [done|].
    change ("" +:+ c) with c in Heq. by apply Hlonger in Heq.
  - destruct b as [|y b].
    + change ("" +:+ c) with c in Heq. symmetry in Heq.
      by apply Hlonger in Heq.
    + rewrite !string_app_cons in Heq. injection Heq as -> Heq.
      f_equal. by apply IH.
Qed.

(** The identifier of a partition construct tells its type, year and
    quarter apart when the type and the year have no underscore. *)
Lemma construct_id_inj (t y q t' y' q' : string) :
  all_chars (λ c, negb (Ascii.eqb c "_")) t = true →
  all_chars (λ c, negb (Ascii.eqb c "_")) y = true →
  all_chars (λ c, negb (Ascii.eqb c "_")) t' = true →
  all_chars (λ c, negb (Ascii.eqb c "_")) y' = true →
  t +:+ "_" +:+ y +:+ "_" +:+ q +:+ "_partition"
  = t' +:+ "_" +:+ y' +:+ "_" +:+ q' +:+ "_partition" →
  t = t' ∧ y = y' ∧ q = q'.
Proof.
  intros Ht Hy Ht' Hy' Heq.
  apply (f_equal (Py.split "_")) in Heq.
  change (t +:+ "_" +:+ y +:+ "_" +:+ q +:+ "_partition")
    with (t +:+ String "_" (y +:+ String "_" (q +:+ "_partition"))) in Heq.
  change (t' +:+ "_" +:+ y' +:+ "_" +:+ q' +:+ "_partition")
    with (t' +:+ String "_" (y' +:+ String "_" (q' +:+ "_partition"))) in Heq.
  rewrite (split_app_segment _ t), (split_app_segment _ y),
    (split_app_segment _ t'), (split_app_segment _ y') in Heq by done.
  injection Heq as -> -> Heq.
  apply (f_equal (Py.join "_")) in Heq. rewrite !join_split in Heq.
  apply string_app_inv_tail in Heq. done.
Qed.

Lemma elem_of_create_partitions account database_name table_name
    types years quarters (p : CfnPartition) :
  p ∈ create_partitions account database_name table_name types years quarters →
  ∃ t y q,
    t ∈ types ∧ y ∈ years ∧ q ∈ quarters ∧
    construct_id p = t +:+ "_" +:+ y +:+ "_" +:+ q +:+ "_partition" ∧
    partition_values p = [t; y; q] ∧
    partition_location p
    = "s3://ookla-open-data/parquet/performance/type=" +:+ t
        +:+ "/year=" +:+ y +:+ "/quarter=" +:+ q ∧
    p ∈ create_partitions account database_name table_name [t] [y] [q].
Proof.
  unfold create_partitions.
  intros (t & (y & (q & Hp & Hq)%list_elem_of_bind & Hy)%list_elem_of_bind
            & Ht)%list_elem_of_bind.
  apply list_elem_of_singleton in Hp as ->.
  exists t, y, q. repeat split; try done. simpl. apply list_elem_of_here.
Qed.

Lemma create_partitions_NoDup account database_name table_name
    (types years quarters : list string) :
  NoDup types → NoDup years → NoDup quarters →
  NoDup (create_partitions account database_name table_name types years quarters).
Proof.
  intros Htypes Hyears Hquarters. unfold create_partitions.
  apply NoDup_bind; [| |done].
  - intros t1 t2 p _ _
      (y1 & (q1 & Hp1 & _)%list_elem_of_bind & _)%list_elem_of_bind
      (y2 & (q2 & Hp2 & _)%list_elem_of_bind & _)%list_elem_of_bind.
    apply list_elem_of_singleton in Hp1, Hp2. subst p.
    by injection Hp2.
  - intros t _. apply NoDup_bind; [| |done].
    + intros y1 y2 p _ _
        (q1 & Hp1 & _)%list_elem_of_bind (q2 & Hp2 & _)%list_elem_of_bind.
      apply list_elem_of_singleton in Hp1, Hp2. subst p.
      by injection Hp2.
    + intros y _. apply NoDup_bind; [| |done].
      * intros q1 q2 p _ _ Hp1 Hp2.
        apply list_elem_of_singleton in Hp1, Hp2. subst p.
        by injection Hp2.
      * intros q _. apply NoDup_singleton.
Qed.



(** X16. The construct identifiers [create_partitions] gives within the stack
    are pairwise different when no list repeats an entry and no type and no
    year has an underscore. *)
Theorem create_partitions_ids_distinct
    (account database_name table_name : string)
    (types years quarters : list string) :
  NoDup types → NoDup years → NoDup quarters →
  Forall (λ s, all_chars (λ c, negb (Ascii.eqb c "_")) s = true) types →
  Forall (λ s, all_chars (λ c, negb (Ascii.eqb c "_")) s = true) years →
  NoDup (construct_id
           <$> create_partitions account database_name table_name
                 types years quarters).
Proof.
  intros Htypes Hyears Hquarters Htypes' Hyears'.
  apply NoDup_fmap_2_strong; [|by apply create_partitions_NoDup].
  intros p1 p2 Hp1 Hp2 Hids.
  apply elem_of_create_partitions in Hp1
    as (t1 & y1 & q1 & Ht1 & Hy1 & _ & Hid1 & _ & _ & Hin1).
  apply elem_of_create_partitions in Hp2
    as (t2 & y2 & q2 & Ht2 & Hy2 & _ & Hid2 & _ & _ & Hin2).
  rewrite Forall_forall in Htypes', Hyears'.
  rewrite Hid1, Hid2 in Hids.
  apply construct_id_inj in Hids as (-> & -> & ->); auto.
  apply list_elem_of_singleton in Hin1, Hin2. congruence.
Qed.

Lemma create_partitions_ids_distinct_witness :
  NoDup (construct_id
           <$> create_partitions "123456789012" "glue_overwrite_table_sample_db"
                 "overwrite_table_source_table_table"
                 ["fixed"; "mobile"] ["2019"; "2020"; "2021"]
                 ["1"; "2"; "3"; "4"]).
Proof.
  apply (create_partitions_ids_distinct "123456789012"
           "glue_overwrite_table_sample_db" "overwrite_table_source_table_table"
           ["fixed"; "mobile"] ["2019"; "2020"; "2021"] ["1"; "2"; "3"; "4"]).
  - apply NoDup_cons; split; [not_in_literals|]. apply NoDup_singleton.
  - repeat (apply NoDup_cons; split; [not_in_literals|]). apply NoDup_nil_2.
  - repeat (apply NoDup_cons; split; [not_in_literals|]). apply NoDup_nil_2.
  - repeat constructor.
  - repeat constructor.
Defined.

(** ** The locations published for the target *)







(** Through the data processor that registers the directory, the first
    write publishes [s3://bucket/db/sales/version_0/] and the run that
    follows it installs [s3://bucket/db/sales/version_1/]. *)
Example directory_first_and_second_write :
  directory_first_write.1 = Ok tt ∧
  location_of (cat directory_first_write.2) ("db", "sales")
  = Some "s3://bucket/db/sales/version_0/" ∧
  directory_second_write.1 = Ok tt ∧
  location_of (cat directory_second_write.2) ("db", "sales")
  = Some "s3://bucket/db/sales/version_1/".
Proof. vm_compute. repeat split; reflexivity. Qed.
